(** * Route-preparation pipeline: address normalisation, grouping,
      AI correction and geocode validation

    A shallow embedding of the TypeScript sources
    - [src/unnamed/part_000] (the [Index] page: [processFile], [normalizeAddress]),
    - [src/src/components/ResultsStep.tsx] (second half: the [correct-addresses]
      edge function: [calculateDistance], [geocodeAddress],
      [correctAddressesBatchWithAI], the request handler),
    - [src/supabase/functions/batch-geocode/index.ts] ([normalizeText],
      [addressMatchesExpected], the request handler).

    JavaScript strings are sequences of UTF-16 code units and are modelled as
    lists of [N].  JavaScript numbers are IEEE 754 binary64 values; the
    elementary functions [Math.sin], [Math.cos] and [Math.atan2], which the
    language leaves to the implementation, are supplied by the platform.
    Network calls are oracles whose outcomes are arguments of the embedded
    functions. *)

From Stdlib Require Import Ascii String DecimalString.
From Stdlib Require Import List NArith ZArith Bool Lia Permutation Sorted.
From Stdlib Require Import SpecFloat.
Import ListNotations.

(* ================================================================== *)
(** ** JavaScript strings *)

Module JS.

Definition jsstring := list N.

(** A literal of Basic Latin characters as code units. *)
Definition str (s : string) : jsstring :=
  map N_of_ascii (list_ascii_of_string s).
Arguments str s%_string.

Definition between (lo hi c : N) : bool := (lo <=? c)%N && (c <=? hi)%N.

(** [\d] *)
Definition isDigit (c : N) : bool := between 48 57 c.

(** [\w] without the unicode flag: [A-Za-z0-9_]. *)
Definition isWordChar (c : N) : bool :=
  between 97 122 c || between 65 90 c || isDigit c || (c =? 95)%N.

(** LineTerminator: LF, CR, LS, PS.  The regular expression [.] matches
    every code unit but these. *)
Definition isLineTerminator (c : N) : bool :=
  (c =? 10)%N || (c =? 13)%N || (c =? 8232)%N || (c =? 8233)%N.

(** [\s], which is also what [trim] strips: WhiteSpace and LineTerminator. *)
Definition isSpace (c : N) : bool :=
  between 9 13 c || (c =? 32)%N || (c =? 160)%N || (c =? 5760)%N
  || between 8192 8202 c || (c =? 8232)%N || (c =? 8233)%N
  || (c =? 8239)%N || (c =? 8287)%N || (c =? 12288)%N || (c =? 65279)%N.

Fixpoint eqb (a b : jsstring) : bool :=
  match a, b with
  | [], [] => true
  | x :: a', y :: b' => (x =? y)%N && eqb a' b'
  | _, _ => false
  end.

(** Truthiness of a string: non-empty. *)
Definition nonEmpty (s : jsstring) : bool :=
  match s with [] => false | _ :: _ => true end.

Fixpoint takeWhile (p : N -> bool) (s : jsstring) : jsstring :=
  match s with
  | [] => []
  | c :: s' => if p c then c :: takeWhile p s' else []
  end.

Fixpoint dropWhile (p : N -> bool) (s : jsstring) : jsstring :=
  match s with
  | [] => []
  | c :: s' => if p c then dropWhile p s' else s
  end.

Definition trimStart (s : jsstring) : jsstring := dropWhile isSpace s.

Fixpoint trimEnd (s : jsstring) : jsstring :=
  match s with
  | [] => []
  | c :: s' =>
      match trimEnd s' with
      | [] => if isSpace c then [] else [c]
      | t => c :: t
      end
  end.

(** [String.prototype.trim] *)
Definition trim (s : jsstring) : jsstring := trimEnd (trimStart s).

(** [s.replace(/\s+/g, ' ')]: [inRun] tells that the previous code unit was
    white space, whose run has already been replaced. *)
Fixpoint collapseSpaces (inRun : bool) (s : jsstring) : jsstring :=
  match s with
  | [] => []
  | c :: s' =>
      if isSpace c
      then if inRun then collapseSpaces true s' else 32%N :: collapseSpaces true s'
      else c :: collapseSpaces false s'
  end.

Definition replaceSpaceRuns (s : jsstring) : jsstring := collapseSpaces false s.

Fixpoint startsWith (s pre : jsstring) : bool :=
  match pre, s with
  | [], _ => true
  | _ :: _, [] => false
  | a :: pre', b :: s' => (a =? b)%N && startsWith s' pre'
  end.

(** [s.includes(sub)] *)
Fixpoint includes (s sub : jsstring) : bool :=
  startsWith s sub
  || match s with [] => false | _ :: s' => includes s' sub end.

(** [parts.join(sep)] *)
Fixpoint join (sep : jsstring) (parts : list jsstring) : jsstring :=
  match parts with
  | [] => []
  | [p] => p
  | p :: rest => p ++ sep ++ join sep rest
  end.

(** [s.split('\n')]: [cur] is the piece being read, reversed. *)
Fixpoint splitLinesAux (cur : jsstring) (s : jsstring) : list jsstring :=
  match s with
  | [] => [rev cur]
  | c :: s' =>
      if (c =? 10)%N then rev cur :: splitLinesAux [] s'
      else splitLinesAux (c :: cur) s'
  end.

Definition splitLines (s : jsstring) : list jsstring := splitLinesAux [] s.

End JS.
Import JS.

(* ================================================================== *)
(** ** [normalizeAddress] (part_000, lines 153-166) *)

(** The character class [[,\s]]. *)
Definition isSep (c : N) : bool := (c =? 44)%N || isSpace c.

(** [[,\s]+\d+] matched at the start of [s].  The two classes are disjoint,
    so the greedy run of separators cannot give a unit back to the digits:
    the match is the longest run of separators followed by the longest run
    of digits, both non-empty. *)
Definition sepsThenDigits (s : jsstring) : option jsstring :=
  match takeWhile isSep s, takeWhile isDigit (dropWhile isSep s) with
  | c :: seps, d :: ds => Some ((c :: seps) ++ d :: ds)
  | _, _ => None
  end.

(** [.*?[,\s]+\d+] at the start of [s]: the lazy prefix grows by one code
    unit (no line terminator) until the rest of the pattern matches. *)
Fixpoint lazyPrefix (s : jsstring) : option jsstring :=
  match sepsThenDigits s with
  | Some m => Some m
  | None =>
      match s with
      | [] => None
      | c :: s' =>
          if isLineTerminator c then None
          else option_map (cons c) (lazyPrefix s')
      end
  end.

(** [cleaned.match(/^(.+?[,\s]+\d+)/)]: capture group 1, when the pattern
    matches.  [.+?] takes at least one code unit. *)
Definition matchStreetNumber (s : jsstring) : option jsstring :=
  match s with
  | [] => None
  | c :: s' =>
      if isLineTerminator c then None
      else option_map (cons c) (lazyPrefix s')
  end.

Definition normalizeAddress (address : jsstring) : jsstring :=
  let cleaned := replaceSpaceRuns (trim address) in
  match matchStreetNumber cleaned with
  | Some m => trim m
  | None => cleaned
  end.


(* ================================================================== *)
(** ** JavaScript numbers

    A Number is an IEEE 754 binary64 value: a signed zero, a signed
    infinity, [NaN], or a finite [(-1)^s * m * 2^e].  The arithmetic is the
    round-to-nearest-even arithmetic of [SpecFloat] at precision 53 and
    maximal exponent 1024. *)

Definition number : Type := spec_float.

Definition nan : number := S754_nan.
Definition infinity : number := S754_infinity false.

Definition fadd : number -> number -> number := SFadd 53 1024.
Definition fsub : number -> number -> number := SFsub 53 1024.
Definition fmul : number -> number -> number := SFmul 53 1024.
Definition fdiv : number -> number -> number := SFdiv 53 1024.
Definition fopp : number -> number := SFopp.
Definition fabs : number -> number := SFabs.

(** [Math.sqrt], the correctly rounded square root. *)
Definition fsqrt : number -> number := SFsqrt 53 1024.

(** [x < y] and [x > y]: both are false when an operand is [NaN]. *)
Definition fltb : number -> number -> bool := SFltb.
Definition fgtb (x y : number) : bool := SFltb y x.
Definition fleb : number -> number -> bool := SFleb.


(** The Number of an integer literal. *)
Definition ofZ (z : Z) : number := binary_normalize 53 1024 z 0 false.

(** [isNaN(x)] and [Number.isFinite(x)] *)
Definition isNaN (x : number) : bool :=
  match x with S754_nan => true | _ => false end.

Definition isFiniteNumber (x : number) : bool :=
  match x with
  | S754_zero _ | S754_finite _ _ _ => true
  | _ => false
  end.

(** The sign bit; [NaN] has none here. *)
Definition signBit (x : number) : bool :=
  match x with
  | S754_zero s | S754_infinity s | S754_finite s _ _ => s
  | S754_nan => false
  end.

(** The value is a binary64 value: its mantissa and exponent are in range
    and canonical. *)
Definition isDouble (x : number) : bool := valid_binary 53 1024 x.

(** [Math.PI], 0x1.921fb54442d18p+1 *)
Definition Math_PI : number := S754_finite false 7074237752028440 (-51).
(* ================================================================== *)
(** ** JavaScript values, objects and the platform *)

(** The scalar values a spreadsheet cell or a JSON field holds. *)
Inductive value : Type :=
| VUndefined
| VNull
| VBool (b : bool)
| VNum (x : number)
| VStr (s : jsstring).

(** What the platform supplies and the sources only call: Unicode
    normalisation and case mapping, the rendering of a number, [parseFloat]
    on a string, and the elementary functions [Math.sin], [Math.cos] and
    [Math.atan2], whose results the language leaves to the implementation
    but for the special values listed in [EcmaMath] below. *)
Class Runtime : Type := {
  normalizeNFD : jsstring -> jsstring;
  toLowerCase : jsstring -> jsstring;
  numberToString : number -> jsstring;
  parseFloatStr : jsstring -> number;
  mathSin : number -> number;
  mathCos : number -> number;
  mathAtan2 : number -> number -> number
}.

(** ToBoolean *)
Definition truthy (v : value) : bool :=
  match v with
  | VUndefined | VNull => false
  | VBool b => b
  | VNum (S754_zero _) | VNum S754_nan => false
  | VNum _ => true
  | VStr s => nonEmpty s
  end.

(** [v || ''] *)
Definition orEmpty (v : value) : value := if truthy v then v else VStr [].

(** [a || b] on strings that may be undefined. *)
Definition orElse (a : option jsstring) (b : jsstring) : jsstring :=
  match a with
  | Some (c :: s) => c :: s
  | _ => b
  end.

(** [a || b] where [b] may be undefined too. *)
Definition orElseOpt (a b : option jsstring) : option jsstring :=
  match a with
  | Some (c :: s) => Some (c :: s)
  | _ => b
  end.

(** An object with string keys, as the list of its own properties in the
    order [Object.keys] reports them.  Keys are pairwise distinct. *)
Definition object : Type := list (jsstring * value).

(** [o[k]] *)
Fixpoint getProp (o : object) (k : jsstring) : value :=
  match o with
  | [] => VUndefined
  | (k', v) :: o' => if JS.eqb k' k then v else getProp o' k
  end.

(** [o[k] = v]: an existing property keeps its place, a new one goes last
    (the keys assigned in the sources are column names matched on letters,
    none of them an integer index, which would be reported first). *)
Fixpoint setProp (o : object) (k : jsstring) (v : value) : object :=
  match o with
  | [] => [(k, v)]
  | (k', v') :: o' =>
      if JS.eqb k' k then (k, v) :: o' else (k', v') :: setProp o' k v
  end.

(** [Object.keys(o)] *)
Definition keys (o : object) : list jsstring := map fst o.

Section Platform.

Context {rt : Runtime}.

(** [String(v)] *)
Definition toStr (v : value) : jsstring :=
  match v with
  | VUndefined => str "undefined"
  | VNull => str "null"
  | VBool true => str "true"
  | VBool false => str "false"
  | VNum x => numberToString x
  | VStr s => s
  end.

(** [parseFloat(v)]: the argument is converted to a string first. *)
Definition parseFloat (v : value) : number := parseFloatStr (toStr v).

(** [Object.keys(row).find(key => test(key.toLowerCase()))] *)
Definition findKey (test : jsstring -> bool) (row : object) : option jsstring :=
  find (fun key => test (toLowerCase key)) (keys row).

End Platform.

(* ================================================================== *)
(** ** The [batch-geocode] function (supabase/functions/batch-geocode) *)

(** *** Replacement of alternatives of literals, [/\b(a|b|c)\b/g] *)

Definition isWordAt (c : option N) : bool :=
  match c with Some u => isWordChar u | None => false end.

(** [\b] between the units [prev] and [next] ([None] at either end of the
    string): exactly one side is a word character. *)
Definition boundaryAt (prev next : option N) : bool :=
  xorb (isWordAt prev) (isWordAt next).

(** The rest of [s] after the literal [lit], when [s] starts with it. *)
Fixpoint stripPrefix (lit s : jsstring) : option jsstring :=
  match lit, s with
  | [], _ => Some s
  | _ :: _, [] => None
  | a :: lit', b :: s' => if (a =? b)%N then stripPrefix lit' s' else None
  end.

(** The first alternative, in the order written, that matches at the start
    of [s] and, with [trailB], is followed by a word boundary; the result is
    the number of units it takes.  [prev] is the unit before [s]. *)
Fixpoint firstAlt (trailB : bool) (alts : list jsstring)
    (prev : option N) (s : jsstring) : option nat :=
  match alts with
  | [] => None
  | alt :: alts' =>
      match stripPrefix alt s with
      | Some rest =>
          if negb trailB || boundaryAt (last (map Some alt) prev) (hd_error rest)
          then Some (length alt)
          else firstAlt trailB alts' prev s
      | None => firstAlt trailB alts' prev s
      end
  end.

(** [s.replace(/(alt1|alt2|...)/g, rep)], with [\b] before the group when
    [leadB] and after it when [trailB].  The scan goes left to right over
    the original string; [skip] counts the units of the current match still
    to pass.  Every alternative of the sources is a non-empty literal. *)
Fixpoint replaceAlts (leadB trailB : bool) (alts : list jsstring)
    (rep : jsstring) (prev : option N) (skip : nat) (s : jsstring) : jsstring :=
  match s with
  | [] => []
  | c :: s' =>
      match skip with
      | S k => replaceAlts leadB trailB alts rep (Some c) k s'
      | O =>
          match
            (if negb leadB || boundaryAt prev (Some c)
             then firstAlt trailB alts prev s else None)
          with
          | Some (S k) => rep ++ replaceAlts leadB trailB alts rep (Some c) k s'
          | _ => c :: replaceAlts leadB trailB alts rep (Some c) 0 s'
          end
      end
  end.

Definition replaceAll (leadB trailB : bool) (alts : list jsstring)
    (rep : jsstring) (s : jsstring) : jsstring :=
  replaceAlts leadB trailB alts rep None 0 s.

(** *** [normalizeText] (lines 15-26) *)

(** The class of U+0300 to U+036F, the combining diacritical marks. *)
Definition isCombiningMark (c : N) : bool := between 768 879 c.

(** [[^\w\s\-\,]] is removed: what stays. *)
Definition isKept (c : N) : bool :=
  isWordChar c || isSpace c || (c =? 45)%N || (c =? 44)%N.

Section BatchGeocode.

Context {rt : Runtime}.

Definition normalizeText (s : option jsstring) : jsstring :=
  match s with
  | None | Some [] => []
  | Some s =>
      let withNoAccents :=
        filter (fun c => negb (isCombiningMark c)) (normalizeNFD s) in
      let s1 := toLowerCase withNoAccents in
      let s2 := replaceAll false true
                  [str "av"; str "av."; str "avenida"] (str "avenida") s1 in
      let s3 := replaceAll true true [str "r"; str "r."] (str "rua") s2 in
      let s4 := replaceAll false true
                  [str "rod"; str "rod."; str "rodovia"] (str "rodovia") s3 in
      let s5 := replaceAll true true
                  [str "proximo a"; str "proximo";
                   str "pr" ++ [243%N] ++ str "ximo a";
                   str "perto de"; str "em frente ao"; str "ao lado de"]
                  [] s4 in
      let s6 := filter isKept s5 in
      trim (replaceSpaceRuns s6)
  end.

Record InputAddressRow : Type := {
  rawAddress : option jsstring;
  bairro : option jsstring;
  cidade : option jsstring;
  estado : option jsstring;
  otherFields : object
}.

Definition DEFAULT_COUNTRY_CODE : jsstring := str "br".

(** The entries of a [URLSearchParams], in order; its serialisation into a
    query string is left to the provider call. *)
Definition searchParams : Type := list (jsstring * jsstring).

Definition appendIf (name value : jsstring) (params : searchParams)
  : searchParams :=
  if nonEmpty value then params ++ [(name, value)] else params.

Definition buildStructuredParams (row : InputAddressRow) : searchParams :=
  let street := normalizeText (Some (orElse (rawAddress row) [])) in
  let city := normalizeText (Some (orElse (cidade row) [])) in
  let state := normalizeText (Some (orElse (estado row) [])) in
  let country := DEFAULT_COUNTRY_CODE in
  let params := [(str "format", str "json"); (str "addressdetails", str "1");
                 (str "limit", str "1"); (str "countrycodes", country)] in
  appendIf (str "state") state
    (appendIf (str "city") city (appendIf (str "street") street params)).

Definition pushIf (part : option jsstring) (parts : list jsstring)
  : list jsstring :=
  match part with
  | Some (c :: s) => parts ++ [c :: s]
  | _ => parts
  end.

Definition buildFreeTextParam (row : InputAddressRow) : searchParams :=
  let parts :=
    pushIf (estado row)
      (pushIf (cidade row) (pushIf (bairro row) (pushIf (rawAddress row) []))) in
  [(str "q", join (str ", ") parts); (str "format", str "json");
   (str "addressdetails", str "1"); (str "limit", str "1");
   (str "countrycodes", DEFAULT_COUNTRY_CODE)].

Record NominatimAddressDetails : Type := {
  city : option jsstring;
  town : option jsstring;
  village : option jsstring;
  county : option jsstring;
  suburb : option jsstring;
  neighbourhood : option jsstring;
  state : option jsstring
}.

Record ExpectedAddressDetails : Type := {
  exp_bairro : option jsstring;
  exp_cidade : option jsstring;
  exp_estado : option jsstring
}.

(** *** [addressMatchesExpected] (lines 85-113)

    The three checks are the function's local constants [cityMatches],
    [stateMatches] and [bairroMatches]; each is given here by its
    truthiness, which is all the final conjunction and its callers look at. *)

Definition gCity (a : NominatimAddressDetails) : jsstring :=
  let gotCity := orElse (city a) (orElse (town a) (orElse (village a) [])) in
  let gotCounty := orElse (county a) [] in
  normalizeText (Some (if nonEmpty gotCity then gotCity else gotCounty)).

Definition gBairro (a : NominatimAddressDetails) : jsstring :=
  let gotSuburb := orElse (suburb a) (orElse (neighbourhood a) []) in
  normalizeText (Some (orElse (Some gotSuburb) [])).

Definition gState (a : NominatimAddressDetails) : jsstring :=
  let gotState := orElse (state a) [] in
  normalizeText (Some (orElse (Some gotState) [])).

Definition expCity (e : ExpectedAddressDetails) : jsstring :=
  normalizeText (Some (orElse (exp_cidade e) [])).
Definition expBairro (e : ExpectedAddressDetails) : jsstring :=
  normalizeText (Some (orElse (exp_bairro e) [])).
Definition expState (e : ExpectedAddressDetails) : jsstring :=
  normalizeText (Some (orElse (exp_estado e) [])).

Definition cityMatches (a : NominatimAddressDetails)
    (e : ExpectedAddressDetails) : bool :=
  nonEmpty (expCity e) && nonEmpty (gCity a)
  && (includes (gCity a) (expCity e) || includes (expCity e) (gCity a)).

Definition stateMatches (a : NominatimAddressDetails)
    (e : ExpectedAddressDetails) : bool :=
  negb (nonEmpty (expState e))
  || (nonEmpty (gState a)
      && (includes (gState a) (expState e)
          || includes (expState e) (expState e))).

Definition bairroMatches (a : NominatimAddressDetails)
    (e : ExpectedAddressDetails) : bool :=
  if negb (nonEmpty (expBairro e)) then true
  else if nonEmpty (gBairro a)
  then includes (gBairro a) (expBairro e)
       || includes (expBairro e) (expBairro e)
  else false.

Definition addressMatchesExpected
    (nominatimAddress : option NominatimAddressDetails)
    (expected : ExpectedAddressDetails) : bool :=
  match nominatimAddress with
  | None => false
  | Some a =>
      cityMatches a expected && stateMatches a expected
      && bairroMatches a expected
  end.

End BatchGeocode.

(** *** The request handler (lines 150-266) *)

Record NominatimResult : Type := {
  lat : jsstring;
  lon : jsstring;
  display_name : jsstring;
  address : option NominatimAddressDetails
}.

(** What one call of [nominatimSearch] comes to: it throws (network error or
    a status that is not ok), or returns [null] (empty list), or returns the
    first entry of the list. *)
Inductive searchOutcome : Type :=
| SearchThrew
| SearchNull
| SearchFound (r : NominatimResult).

(** The outcomes of the up to three provider calls made for one row.  A call
    that is not made does not read its outcome. *)
Record ProviderReplies : Type := {
  structuredReply : searchOutcome;
  freeTextReply : searchOutcome;
  retryReply : searchOutcome
}.

Inductive Status : Type := valid | corrected | pending | mismatch.

(** [searchUsed]: the prefix written before the query, and the query. *)
Inductive SearchUsed : Type :=
| NoSearch
| UsedStructured (params : searchParams)
| UsedFreeText (params : searchParams)
| UsedRetryCorrected (params : searchParams).

(** The properties that the result writes after the spread of the row: a
    property of the row with one of these names is replaced. *)
Definition writtenFields : list jsstring :=
  [str "originalAddress"; str "correctedAddress"; str "latitude";
   str "longitude"; str "status"; str "searchUsed"; str "note";
   str "display_name"].

Definition isWritten (k : jsstring) : bool :=
  existsb (JS.eqb k) writtenFields.

(** [...row] in the result: the properties of the row that the result does
    not replace. *)
Definition spreadRow (row : InputAddressRow) : InputAddressRow :=
  {| rawAddress := rawAddress row;
     bairro := bairro row;
     cidade := cidade row;
     estado := estado row;
     otherFields :=
       filter (fun field => negb (isWritten (fst field))) (otherFields row) |}.

(** One object: the properties spread from the row, [inputRow], and the
    eight written after them. *)
Record ProcessedAddress : Type := {
  inputRow : InputAddressRow;
  originalAddress : jsstring;
  correctedAddress : option jsstring;
  latitude : option jsstring;
  longitude : option jsstring;
  status : Status;
  searchUsed : SearchUsed;
  note : jsstring;
  pa_display_name : option jsstring
}.

(** [(note ? note + ";" : "") + msg] *)
Definition addNote (note msg : jsstring) : jsstring :=
  (if nonEmpty note then note ++ str ";" else []) ++ msg.

Section Resolver.

Context {rt : Runtime}.

Definition expectedOf (row : InputAddressRow) : ExpectedAddressDetails :=
  {| exp_bairro := bairro row; exp_cidade := cidade row;
     exp_estado := estado row |}.

Definition correctedParams (row : InputAddressRow) : searchParams :=
  [(str "street", normalizeText (Some (orElse (rawAddress row) [])));
   (str "city", normalizeText (Some (orElse (cidade row) [])));
   (str "format", str "json"); (str "addressdetails", str "1");
   (str "limit", str "1"); (str "countrycodes", DEFAULT_COUNTRY_CODE)].

(** [found.address || {}] *)
Definition addressOrEmpty (r : NominatimResult) : NominatimAddressDetails :=
  match address r with
  | Some a => a
  | None => {| city := None; town := None; village := None; county := None;
               suburb := None; neighbourhood := None; state := None |}
  end.

(** The body of the loop over [addresses], for one row. *)
Definition resolveRow (row : InputAddressRow) (replies : ProviderReplies)
  : ProcessedAddress :=
  (* 1) structured search *)
  let '(searchUsed1, found1, note1) :=
    let structured := buildStructuredParams row in
    match structuredReply replies with
    | SearchFound r => (UsedStructured structured, Some r, [])
    | SearchNull => (UsedStructured structured, None, [])
    | SearchThrew =>
        (UsedStructured structured, None, str "erro-na-requisicao-structured")
    end in
  (* 2) free text, if nothing was found *)
  let '(searchUsed2, found2, note2) :=
    match found1 with
    | Some _ => (searchUsed1, found1, note1)
    | None =>
        let free := buildFreeTextParam row in
        match freeTextReply replies with
        | SearchFound r => (UsedFreeText free, Some r, note1)
        | SearchNull => (UsedFreeText free, None, note1)
        | SearchThrew =>
            (UsedFreeText free, None,
             addNote note1 (str "erro-na-requisicao-freetext"))
        end
    end in
  (* 3) validation against the row's locality, and the corrective retry *)
  let '(searchUsed3, found3, status3, note3) :=
    match found2 with
    | Some found =>
        if addressMatchesExpected (Some (addressOrEmpty found)) (expectedOf row)
        then (searchUsed2, found2, valid, str "matches-planilha")
        else
          let used := UsedRetryCorrected (correctedParams row) in
          match retryReply replies with
          | SearchFound retr =>
              if addressMatchesExpected (Some (addressOrEmpty retr))
                   (expectedOf row)
              then (used, Some retr, corrected, str "retry-corrected-success")
              else (used, found2, mismatch,
                    str "resultado-nao-coincide-com-cidade-bairro")
          | SearchNull =>
              (used, found2, mismatch,
               str "resultado-nao-coincide-com-cidade-bairro")
          | SearchThrew =>
              (used, found2, mismatch,
               addNote note2 (str "erro-na-requisicao-retry"))
          end
    | None =>
        (searchUsed2, None, pending,
         if nonEmpty note2 then note2 else str "nao-encontrado")
    end in
  {| inputRow := spreadRow row;
     originalAddress := orElse (rawAddress row) [];
     correctedAddress :=
       match status3 with
       | valid | corrected =>
           orElseOpt (option_map display_name found3) (rawAddress row)
       | _ => rawAddress row
       end;
     latitude := option_map lat found3;
     longitude := option_map lon found3;
     status := status3;
     searchUsed := searchUsed3;
     note := note3;
     pa_display_name := option_map display_name found3 |}.

(** The loop: row [i] is resolved with the provider's replies to its calls. *)
Fixpoint resolveFrom (i : nat) (replies : nat -> ProviderReplies)
    (addresses : list InputAddressRow) : list ProcessedAddress :=
  match addresses with
  | [] => []
  | row :: rest => resolveRow row (replies i) :: resolveFrom (S i) replies rest
  end.

Definition batchGeocode (replies : nat -> ProviderReplies)
    (addresses : list InputAddressRow) : list ProcessedAddress :=
  resolveFrom 0 replies addresses.

End Resolver.

(* ================================================================== *)
(** ** The [correct-addresses] function (ResultsStep.tsx, lines 131-402) *)

(** What the request of [geocodeAddress] comes to: an exception (also of
    [encodeURIComponent] or [response.json]), a status that is not ok, or
    the parsed list, each entry with its [lat] and [lon] fields. *)
Inductive fetchOutcome : Type :=
| FetchThrew
| FetchNotOk
| FetchJson (data : list (value * value)).

(** What one request to the AI gateway comes to: status 429, another status
    that is not ok, a body whose [choices?.[0]?.message?.content] is a string
    or is missing, or an exception (of [fetch], of [response.json], or of
    [trim] on a content that is no string). *)
Inductive aiResponse : Type :=
| AiRateLimited
| AiHttpError
| AiContent (content : option jsstring)
| AiThrew.

(** [line.replace(/^\d+\.\s*/, '')] *)
Definition stripNumbering (line : jsstring) : jsstring :=
  match takeWhile isDigit line, dropWhile isDigit line with
  | _ :: _, dot :: rest =>
      if (dot =? 46)%N then dropWhile isSpace rest else line
  | _, _ => line
  end.

Definition nonBlank (line : jsstring) : bool := nonEmpty (trim line).

(** The numbered list of the response, parsed (lines 238-241). *)
Definition parseCorrected (correctedText : jsstring) : list jsstring :=
  map (fun line => trim (stripNumbering line))
      (filter nonBlank (splitLines correctedText)).

(** The loop [for (attempt = 0; attempt < retries; attempt++)] of
    [correctAddressesBatchWithAI]; [remaining] is [retries - attempt]. *)
Fixpoint correctLoop (addresses : list jsstring)
    (responses : nat -> aiResponse) (retries attempt remaining : nat)
  : list jsstring :=
  match remaining with
  | O => addresses
  | S remaining' =>
      match responses attempt with
      | AiRateLimited =>
          (* wait 2^attempt * 500 ms; continue *)
          correctLoop addresses responses retries (S attempt) remaining'
      | AiHttpError => addresses
      | AiContent content =>
          match option_map trim content with
          | Some (c :: t) =>
              let correctedAddresses := parseCorrected (c :: t) in
              if (length correctedAddresses =? length addresses)%nat
              then correctedAddresses
              else addresses
          | _ => addresses
          end
      | AiThrew =>
          if (attempt =? retries - 1)%nat then addresses
          else correctLoop addresses responses retries (S attempt) remaining'
      end
  end.

Definition correctAddressesBatchWithAI (addresses : list jsstring)
    (responses : nat -> aiResponse) (retries : nat) : list jsstring :=
  correctLoop addresses responses retries 0 retries.

Definition AI_BATCH_SIZE : nat := 15.

Record AddressData : Type := {
  row : object;
  addressKey : option jsstring;
  zipKey : option jsstring;
  latKey : option jsstring;
  lonKey : option jsstring;
  ad_originalAddress : jsstring
}.

Fixpoint mapi_from {A B : Type} (i : nat) (f : nat -> A -> B) (l : list A)
  : list B :=
  match l with
  | [] => []
  | x :: l' => f i x :: mapi_from (S i) f l'
  end.

(** [l.map((x, idx) => f(idx, x))] *)
Definition mapi {A B : Type} (f : nat -> A -> B) (l : list A) : list B :=
  mapi_from 0 f l.

Section CorrectAddresses.

Context {rt : Runtime}.

(** [calculateDistance] (lines 141-154): the Haversine formula. *)
Definition calculateDistance (lat1 lon1 lat2 lon2 : number) : number :=
  let R := ofZ 6371000 in
  let phi1 := fdiv (fmul lat1 Math_PI) (ofZ 180) in
  let phi2 := fdiv (fmul lat2 Math_PI) (ofZ 180) in
  let dphi := fdiv (fmul (fsub lat2 lat1) Math_PI) (ofZ 180) in
  let dlambda := fdiv (fmul (fsub lon2 lon1) Math_PI) (ofZ 180) in
  let a :=
    fadd (fmul (mathSin (fdiv dphi (ofZ 2))) (mathSin (fdiv dphi (ofZ 2))))
         (fmul (fmul (fmul (mathCos phi1) (mathCos phi2))
                     (mathSin (fdiv dlambda (ofZ 2))))
               (mathSin (fdiv dlambda (ofZ 2)))) in
  let c := fmul (ofZ 2) (mathAtan2 (fsqrt a) (fsqrt (fsub (ofZ 1) a))) in
  fmul R c.

(** [geocodeAddress] (lines 157-190) *)
Definition geocodeAddress (fetch : jsstring -> fetchOutcome)
    (address : jsstring) (zipcode : option jsstring)
  : option (number * number) :=
  let query :=
    match zipcode with
    | Some (c :: z) => address ++ str ", " ++ (c :: z)
    | _ => address
    end in
  match fetch query with
  | FetchJson (d :: _) => Some (parseFloat (fst d), parseFloat (snd d))
  | _ => None
  end.

(** [String(row[key] || '').trim()] *)
Definition cellText (r : object) (key : jsstring) : jsstring :=
  trim (toStr (orEmpty (getProp r key))).

(** The entry of [addressData] for one row (lines 291-323). *)
Definition mkAddressData (r : object) : AddressData :=
  let addressKey :=
    findKey (fun key => includes key (str "address")
                        || includes key (str "endereco")
                        || includes key (str "endere" ++ [231%N] ++ str "o")) r in
  let zipKey :=
    findKey (fun key => includes key (str "zipcode")
                        || includes key (str "postal")
                        || includes key (str "cep")) r in
  let latKey :=
    findKey (fun key => includes key (str "latitude")
                        || JS.eqb key (str "lat")) r in
  let lonKey :=
    findKey (fun key => includes key (str "longitude")
                        || JS.eqb key (str "lon")
                        || JS.eqb key (str "lng")) r in
  {| row := r; addressKey := addressKey; zipKey := zipKey;
     latKey := latKey; lonKey := lonKey;
     ad_originalAddress :=
       match addressKey with
       | Some k => cellText r k
       | None => []
       end |}.

(** [correctedAddresses[idx] || originalAddress] (line 337) *)
Definition correctedAddressAt (correctedAddresses : list jsstring)
    (idx : nat) (originalAddress : jsstring) : jsstring :=
  orElse (nth_error correctedAddresses idx) originalAddress.

(** The coordinate validation of one row (lines 347-369): [r] is the row as
    received, [updatedRow] its copy after the address was written. *)
Definition validateCoordinates (fetch : jsstring -> fetchOutcome)
    (r updatedRow : object) (latKey lonKey : option jsstring)
    (correctedAddress : jsstring) (zipcode : option jsstring) : object :=
  match latKey, lonKey with
  | Some latKey, Some lonKey =>
      let originalLat := parseFloat (getProp r latKey) in
      let originalLon := parseFloat (getProp r lonKey) in
      if negb (isNaN originalLat) && negb (isNaN originalLon) then
        match geocodeAddress fetch correctedAddress zipcode with
        | Some (geocodedLat, geocodedLon) =>
            let distance :=
              calculateDistance originalLat originalLon
                geocodedLat geocodedLon in
            if fgtb distance (ofZ 200)
            then setProp (setProp updatedRow latKey (VNum geocodedLat))
                         lonKey (VNum geocodedLon)
            else updatedRow
        | None => updatedRow
        end
      else updatedRow
  | _, _ => updatedRow
  end.

(** The callback of [addressData.map] (lines 332-372). *)
Definition processRow (correctedAddresses : list jsstring)
    (fetch : nat -> jsstring -> fetchOutcome) (idx : nat) (data : AddressData)
  : object :=
  match addressKey data with
  | None => row data
  | Some k =>
      let originalAddress := ad_originalAddress data in
      let correctedAddress :=
        correctedAddressAt correctedAddresses idx originalAddress in
      let zipcode := option_map (cellText (row data)) (zipKey data) in
      let updatedRow :=
        if JS.eqb correctedAddress originalAddress then row data
        else setProp (row data) k (VStr correctedAddress) in
      validateCoordinates (fetch idx) (row data) updatedRow
        (latKey data) (lonKey data) correctedAddress zipcode
  end.

(** The addresses sent to the corrector (line 326). *)
Definition batchAddresses (addressData : list AddressData) : list jsstring :=
  filter nonEmpty (map ad_originalAddress addressData).

(** One turn of the loop over the batches (lines 286-374). *)
Definition processBatch (responses : nat -> aiResponse)
    (fetch : nat -> jsstring -> fetchOutcome) (batch : list object)
  : list object :=
  let addressData := map mkAddressData batch in
  let addresses := batchAddresses addressData in
  let correctedAddresses :=
    match addresses with
    | [] => []
    | _ :: _ => correctAddressesBatchWithAI addresses responses 3
    end in
  mapi (processRow correctedAddresses fetch) addressData.

(** The loop over the batches: [fuel] bounds the number of turns, and the
    number of rows is enough of it. *)
Fixpoint correctFrom (fuel : nat) (batchIndex : nat)
    (responses : nat -> nat -> aiResponse)
    (fetch : nat -> nat -> jsstring -> fetchOutcome) (rows : list object)
  : list object :=
  match fuel, rows with
  | O, _ | _, [] => []
  | S fuel', _ :: _ =>
      processBatch (responses batchIndex) (fetch batchIndex)
        (firstn AI_BATCH_SIZE rows)
      ++ correctFrom fuel' (S batchIndex) responses fetch
           (skipn AI_BATCH_SIZE rows)
  end.

Definition correctAddresses (responses : nat -> nat -> aiResponse)
    (fetch : nat -> nat -> jsstring -> fetchOutcome) (rows : list object)
  : list object :=
  correctFrom (length rows) 0 responses fetch rows.

End CorrectAddresses.

(* ================================================================== *)
(** ** [processFile] (part_000, lines 111-255): grouping by address *)

(** The property names every plain object inherits from [Object.prototype];
    each is a function (or, for [__proto__], the prototype itself), hence
    truthy and without a [push] method. *)
Definition objectPrototypeKeys : list jsstring :=
  [str "constructor"; str "__defineGetter__"; str "__defineSetter__";
   str "hasOwnProperty"; str "__lookupGetter__"; str "__lookupSetter__";
   str "isPrototypeOf"; str "propertyIsEnumerable"; str "toString";
   str "valueOf"; str "__proto__"; str "toLocaleString"].

Definition inherited (k : jsstring) : bool :=
  existsb (JS.eqb k) objectPrototypeKeys.

Inductive error : Type :=
| EmptySheet          (* "Planilha vazia ou sem dados validos" *)
| NoAddressColumn     (* "Coluna de endereco nao encontrada na planilha" *)
| NotAFunction.       (* TypeError: grouped[normalizedAddress].push *)

Inductive outcome (A : Type) : Type :=
| Done (a : A)
| Thrown (e : error).
Arguments Done {A} a.
Arguments Thrown {A} e.

(** [grouped]: the buckets by normalised address, in the order the keys were
    created. *)
Definition groups : Type := list (jsstring * list object).

(** The own property [grouped[k]]. *)
Fixpoint lookupBucket (grouped : groups) (k : jsstring)
  : option (list object) :=
  match grouped with
  | [] => None
  | (k', b) :: g' => if JS.eqb k' k then Some b else lookupBucket g' k
  end.

(** [grouped[k].push(r)] on an own bucket. *)
Fixpoint pushTo (grouped : groups) (k : jsstring) (r : object) : groups :=
  match grouped with
  | [] => []
  | (k', b) :: g' =>
      if JS.eqb k' k then (k', b ++ [r]) :: g' else (k', b) :: pushTo g' k r
  end.

(** The value of a decimal numeral. *)
Definition digitsValue (k : jsstring) : N :=
  fold_left (fun acc c => (acc * 10 + (c - 48))%N) k 0%N.

(** An array index: the canonical numeral of an integer below 2^32 - 1. *)
Definition arrayIndex (k : jsstring) : option N :=
  match k with
  | [] => None
  | c :: k' =>
      if forallb isDigit k && (negb (c =? 48)%N || negb (nonEmpty k'))
      then if (digitsValue k <=? 4294967294)%N then Some (digitsValue k)
           else None
      else None
  end.

Fixpoint insertByIndex {B : Type} (i : N) (e : jsstring * B)
    (l : list (N * (jsstring * B))) : list (N * (jsstring * B)) :=
  match l with
  | [] => [(i, e)]
  | (j, e') :: l' =>
      if (i <=? j)%N then (i, e) :: l else (j, e') :: insertByIndex i e l'
  end.

Fixpoint indexEntries {B : Type} (o : list (jsstring * B))
  : list (N * (jsstring * B)) :=
  match o with
  | [] => []
  | e :: o' =>
      match arrayIndex (fst e) with
      | Some i => insertByIndex i e (indexEntries o')
      | None => indexEntries o'
      end
  end.

Definition isNamed {B : Type} (e : jsstring * B) : bool :=
  match arrayIndex (fst e) with Some _ => false | None => true end.

(** [Object.entries(o)]: the array indices in ascending order, then the other
    keys in the order of their creation. *)
Definition entries {B : Type} (o : list (jsstring * B))
  : list (jsstring * B) :=
  map snd (indexEntries o) ++ filter isNamed o.

Section Grouping.

Context {rt : Runtime}.

(** The key of a row: [normalizeAddress(String(row[addressColumn] || '').trim())]. *)
Definition rowKey (addressColumn : jsstring) (r : object) : jsstring :=
  let fullAddress := trim (toStr (orEmpty (getProp r addressColumn))) in
  normalizeAddress fullAddress.

(** The callback of [jsonData.forEach] (lines 172-180).  [grouped] is an
    object literal: the lookup of a key it does not own goes on to
    [Object.prototype], and what is found there is truthy and cannot [push]. *)
Definition groupStep (addressColumn : jsstring) (grouped : groups)
    (r : object) : outcome groups :=
  let normalizedAddress := rowKey addressColumn r in
  match lookupBucket grouped normalizedAddress with
  | Some _ => Done (pushTo grouped normalizedAddress r)
  | None =>
      if inherited normalizedAddress then Thrown NotAFunction
      else Done (grouped ++ [(normalizedAddress, [r])])
  end.

Fixpoint groupFrom (addressColumn : jsstring) (grouped : groups)
    (jsonData : list object) : outcome groups :=
  match jsonData with
  | [] => Done grouped
  | r :: rest =>
      match groupStep addressColumn grouped r with
      | Done grouped' => groupFrom addressColumn grouped' rest
      | Thrown e => Thrown e
      end
  end.

Definition groupRows (addressColumn : jsstring) (jsonData : list object)
  : outcome groups :=
  groupFrom addressColumn [] jsonData.

(** [String(r[sequenceColumn] || '')] *)
Definition sequenceText (sequenceColumn : jsstring) (r : object) : jsstring :=
  toStr (orEmpty (getProp r sequenceColumn)).

(** [s && s.trim() !== ''] *)
Definition keepSequence (s : jsstring) : bool :=
  nonEmpty s && nonEmpty (trim s).

Definition joinSequences (sequenceColumn : jsstring) (rows : list object)
  : jsstring :=
  join (str "; ")
       (filter keepSequence (map (sequenceText sequenceColumn) rows)).

(** The callback of [Object.entries(grouped).map] (lines 183-196). *)
Definition mergeGroup (sequenceColumn : option jsstring) (rows : list object)
  : object :=
  let firstRow := match rows with r :: _ => r | [] => [] end in
  match sequenceColumn with
  | Some sc => setProp firstRow sc (VStr (joinSequences sc rows))
  | None => firstRow
  end.

Definition findAddressColumn (first : object) : option jsstring :=
  findKey (fun key => includes key (str "endereco")
                      || includes key (str "endere" ++ [231%N] ++ str "o")
                      || includes key (str "address")
                      || includes key (str "rua")) first.

Definition findSequenceColumn (first : object) : option jsstring :=
  findKey (fun key => includes key (str "sequence")
                      || includes key (str "sequencia")) first.

(** [results]: the merged rows, one per group (lines 183-196). *)
Definition mergeGroups (sequenceColumn : option jsstring) (grouped : groups)
  : list object :=
  map (fun e => mergeGroup sequenceColumn (snd e)) (entries grouped).

(** [processFile] from the parsed sheet to [results] (lines 134-196). *)
Definition processFile (jsonData : list object) : outcome (list object) :=
  match jsonData with
  | [] => Thrown EmptySheet
  | first :: _ =>
      let sequenceColumn := findSequenceColumn first in
      match findAddressColumn first with
      | None => Thrown NoAddressColumn
      | Some addressColumn =>
          match groupRows addressColumn jsonData with
          | Done grouped => Done (mergeGroups sequenceColumn grouped)
          | Thrown e => Thrown e
          end
      end
  end.

End Grouping.

(* ================================================================== *)
(** ** A platform for the worked examples

    The functions below agree with the platform on strings of Latin-1 code
    units (below 256).  Numbers are parsed from decimal literals with
    correct rounding and rendered by their shortest decimal.  The
    elementary functions are computed in fixed point with 224 fractional
    bits and rounded to the nearest Number; the language leaves their
    results to the implementation, and fixes only the special values that
    [EcmaMath] lists.  The general theorems hold for every [Runtime]; the
    worked examples run on this one. *)

(** The canonical decompositions of the Latin-1 capital letters: the code
    unit, its base letter and its combining mark.  The small letters are 32
    above, and so are their bases. *)
Definition latin1Decompositions : list (N * (N * N)) :=
  [(192, (65, 768)); (193, (65, 769)); (194, (65, 770)); (195, (65, 771));
   (196, (65, 776)); (197, (65, 778)); (199, (67, 807)); (200, (69, 768));
   (201, (69, 769)); (202, (69, 770)); (203, (69, 776)); (204, (73, 768));
   (205, (73, 769)); (206, (73, 770)); (207, (73, 776)); (209, (78, 771));
   (210, (79, 768)); (211, (79, 769)); (212, (79, 770)); (213, (79, 771));
   (214, (79, 776)); (217, (85, 768)); (218, (85, 769)); (219, (85, 770));
   (220, (85, 776)); (221, (89, 769))]%N.

Fixpoint decompositionOf (table : list (N * (N * N))) (c : N)
  : option (N * N) :=
  match table with
  | [] => None
  | (u, d) :: table' =>
      if (u =? c)%N then Some d else decompositionOf table' c
  end.

Definition nfdUnit (c : N) : jsstring :=
  match decompositionOf latin1Decompositions c with
  | Some (b, m) => [b; m]
  | None =>
      match decompositionOf latin1Decompositions (c - 32) with
      | Some (b, m) => if between 224 255 c then [(b + 32)%N; m] else [c]
      | None => if (c =? 255)%N then [121%N; 776%N] else [c]
      end
  end.

Definition nfdLatin1 (s : jsstring) : jsstring := flat_map nfdUnit s.

Definition lowerUnit (c : N) : N :=
  if between 65 90 c || (between 192 222 c && negb (c =? 215)%N)
  then (c + 32)%N else c.

Definition lowerLatin1 (s : jsstring) : jsstring := map lowerUnit s.

(** *** Numbers *)

(** The Number nearest to [(-1)^negative * digits * 10^exponent]: the
    quotient is taken with 64 bits more than the divisor has and a sticky
    bit for the remainder, and rounded once. *)
Definition decimalToNumber (negative : bool) (digits : N) (exponent : Z)
  : number :=
  match digits with
  | N0 => S754_zero negative
  | Npos d =>
      let magnitude :=
        if (0 <=? exponent)%Z
        then binary_normalize 53 1024 (Z.pos d * 10 ^ exponent) 0 false
        else
          let divisor := (10 ^ (- exponent))%Z in
          let shift := (Z.log2 divisor + 65)%Z in
          let '(q, r) := Z.div_eucl (Z.shiftl (Z.pos d) shift) divisor in
          let sticky := if (r =? 0)%Z then 0%Z else 1%Z in
          binary_normalize 53 1024 (2 * q + sticky) (- shift - 1) false in
      if negative then fopp magnitude else magnitude
  end.

(** [m * 2^e < 10^n], for a positive mantissa. *)
Definition belowPowerOfTen (m : positive) (e n : Z) : bool :=
  (Z.pos m * 2 ^ Z.max e 0 * 10 ^ Z.max (- n) 0
   <? 2 ^ Z.max (- e) 0 * 10 ^ Z.max n 0)%Z.

(** The least [n] with [m * 2^e < 10^n], sought from [n]. *)
Fixpoint decimalExponentFrom (fuel : nat) (m : positive) (e n : Z) : Z :=
  match fuel with
  | O => n
  | S fuel' =>
      if negb (belowPowerOfTen m e n)
      then decimalExponentFrom fuel' m e (n + 1)
      else if belowPowerOfTen m e (n - 1)
           then decimalExponentFrom fuel' m e (n - 1)
           else n
  end.

Definition decimalExponent (m : positive) (e : Z) : Z :=
  decimalExponentFrom 8 m e
    ((Z.pos (digits2_pos m) + e) * 30103 / 100000)%Z.

(** The digits [s] and the exponent [n] of a decimal [s * 10^(n - k)] of [k]
    digits that reads back as [m * 2^e], if there is one: the nearer of the
    two decimals around the number. *)
Definition decimalOfLength (m : positive) (e n0 k : Z) : option (Z * Z) :=
  let x := S754_finite false m e in
  let num := (Z.pos m * 2 ^ Z.max e 0 * 10 ^ Z.max (k - n0) 0)%Z in
  let den := (2 ^ Z.max (- e) 0 * 10 ^ Z.max (n0 - k) 0)%Z in
  let low := (num / den)%Z in
  let high := (low + 1)%Z in
  let readsBack (s n : Z) : bool :=
    match decimalToNumber false (Z.to_N s) (n - k) with
    | S754_finite false m' e' => Pos.eqb m' m && Z.eqb e' e
    | _ => false
    end in
  let lowOk := (10 ^ (k - 1) <=? low)%Z && readsBack low n0 in
  let '(highDigits, highExponent) :=
    if (high =? 10 ^ k)%Z then ((10 ^ (k - 1))%Z, (n0 + 1)%Z)
    else (high, n0) in
  let highOk := readsBack highDigits highExponent in
  let lowNearer :=
    match (2 * num ?= (2 * low + 1) * den)%Z with
    | Lt => true
    | Eq => Z.even low
    | Gt => false
    end in
  if lowOk && (lowNearer || negb highOk) then Some (low, n0)
  else if highOk then Some (highDigits, highExponent)
  else None.

(** The shortest decimal that reads back as the number. *)
Fixpoint shortestDecimalFrom (fuel : nat) (m : positive) (e n0 k : Z)
  : Z * Z :=
  match fuel with
  | O => (0%Z, 0%Z)
  | S fuel' =>
      match decimalOfLength m e n0 k with
      | Some d => d
      | None => shortestDecimalFrom fuel' m e n0 (k + 1)
      end
  end.

Definition renderDigits (z : Z) : jsstring :=
  str (NilZero.string_of_uint (N.to_uint (Z.to_N z))).

(** [Number::toString] of a positive finite number. *)
Definition renderPositive (m : positive) (e : Z) : jsstring :=
  let '(s, n) := shortestDecimalFrom 18 m e (decimalExponent m e) 1 in
  let digits := renderDigits s in
  let k := Z.of_nat (length digits) in
  if (k <=? n)%Z && (n <=? 21)%Z
  then digits ++ repeat 48%N (Z.to_nat (n - k))
  else if (0 <? n)%Z && (n <=? 21)%Z
  then firstn (Z.to_nat n) digits ++ str "." ++ skipn (Z.to_nat n) digits
  else if (-6 <? n)%Z && (n <=? 0)%Z
  then str "0." ++ repeat 48%N (Z.to_nat (- n)) ++ digits
  else
    let exponentPart :=
      str "e" ++ (if (0 <=? n - 1)%Z then str "+" else str "-")
      ++ renderDigits (Z.abs (n - 1)) in
    match digits with
    | [d] => [d] ++ exponentPart
    | d :: rest => [d] ++ str "." ++ rest ++ exponentPart
    | [] => exponentPart
    end.

(** [Number::toString] *)
Definition renderNumber (x : number) : jsstring :=
  match x with
  | S754_nan => str "NaN"
  | S754_zero _ => str "0"
  | S754_infinity false => str "Infinity"
  | S754_infinity true => str "-Infinity"
  | S754_finite false m e => renderPositive m e
  | S754_finite true m e => str "-" ++ renderPositive m e
  end.

(** [parseFloat] on a string: leading white space, a sign, then [Infinity]
    or a decimal literal with digits, a fraction and an exponent part; what
    follows is ignored.  No digit: [NaN]. *)
Definition parseDecimal (s : jsstring) : number :=
  let s0 := trimStart s in
  let '(negative, s1) :=
    match s0 with
    | 45%N :: s' => (true, s')
    | 43%N :: s' => (false, s')
    | _ => (false, s0)
    end in
  if startsWith s1 (str "Infinity") then S754_infinity negative
  else
    let intDigits := takeWhile isDigit s1 in
    let afterInt := dropWhile isDigit s1 in
    let '(fracDigits, afterFrac) :=
      match afterInt with
      | 46%N :: r => (takeWhile isDigit r, dropWhile isDigit r)
      | _ => ([], afterInt)
      end in
    let exponent :=
      match afterFrac with
      | e :: r =>
          if (e =? 101)%N || (e =? 69)%N then
            let '(negativeExp, r1) :=
              match r with
              | 45%N :: r' => (true, r')
              | 43%N :: r' => (false, r')
              | _ => (false, r)
              end in
            match takeWhile isDigit r1 with
            | [] => 0%Z
            | ds => cond_Zopp negativeExp (Z.of_N (digitsValue ds))
            end
          else 0%Z
      | [] => 0%Z
      end in
    match intDigits ++ fracDigits with
    | [] => nan
    | ds =>
        decimalToNumber negative (digitsValue ds)
          (exponent - Z.of_nat (length fracDigits))
    end.

(** *** The elementary functions, in fixed point *)

Definition fixBits : Z := 224.
Definition fixOne : Z := 2 ^ fixBits.

(** The Number nearest to the fixed-point value [z]. *)
Definition ofFix (z : Z) : number := binary_normalize 53 1024 z (- fixBits) false.

Definition fixMul (a b : Z) : Z := Z.shiftr (a * b) fixBits.
Definition fixDiv (a b : Z) : Z := (Z.shiftl a fixBits / b)%Z.
Definition fixSqrt (a : Z) : Z := Z.sqrt (Z.shiftl a fixBits).

(** The alternating series [power / (2k+1) - power * t2 / (2k+3) + ...] of
    the arc tangent, from the term of index [k]. *)
Fixpoint atanSum (fuel : nat) (t2 power k : Z) : Z :=
  match fuel with
  | O => 0%Z
  | S fuel' =>
      (power / (2 * k + 1) - atanSum fuel' t2 (fixMul power t2) (k + 1))%Z
  end.

(** The arc tangent of [1 / n] with [bits] fractional bits:
    [1/n - 1/(3 n^3) + 1/(5 n^5) - ...]. *)
Fixpoint atanInverseSum (fuel : nat) (n2 power k : Z) : Z :=
  match fuel with
  | O => 0%Z
  | S fuel' =>
      (power / (2 * k + 1) - atanInverseSum fuel' n2 (power / n2) (k + 1))%Z
  end.

Definition atanInverse (bits n : Z) : Z :=
  atanInverseSum 320 (n * n) (2 ^ bits / n) 0.

(** [pi] by Machin's formula, with enough bits to reduce the largest
    Number, and rounded to the working precision. *)
Definition wideBits : Z := 1344.

Definition widePi : Z :=
  Eval vm_compute in
    (4 * (4 * atanInverse wideBits 5 - atanInverse wideBits 239))%Z.

Definition fixPi : Z := Eval vm_compute in Z.shiftr widePi (wideBits - fixBits).

(** [m * 2^e] less the nearest multiple of [2 pi], in fixed point: between
    [-pi] and [pi]. *)
Definition reduceArgument (m : positive) (e : Z) : Z :=
  let x := Z.shiftl (Z.pos m) (e + wideBits) in
  let twoPi := (2 * widePi)%Z in
  Z.shiftr (x - twoPi * ((2 * x + twoPi) / (2 * twoPi))) (wideBits - fixBits).

(** The series of the sine and of the cosine, from the term [term] of index
    [k]: the next term is [- term * r2 / ((n + 1) (n + 2))], [n] being the
    degree of [term]. *)
Fixpoint alternatingSum (fuel : nat) (r2 term degree : Z) : Z :=
  match fuel with
  | O => 0%Z
  | S fuel' =>
      (term - alternatingSum fuel' r2
                (fixMul term r2 / ((degree + 1) * (degree + 2)))
                (degree + 2))%Z
  end.

Definition sinFix (r : Z) : Z := alternatingSum 60 (fixMul r r) r 1.
Definition cosFix (r : Z) : Z := alternatingSum 60 (fixMul r r) fixOne 0.

(** The arc tangent of a ratio [t] between 0 and 1: the argument is halved
    three times, [atan t = 2 atan (t / (1 + sqrt (1 + t^2)))], and the
    series summed. *)
Definition halveAngle (t : Z) : Z :=
  fixDiv t (fixOne + fixSqrt (fixOne + fixMul t t)).

Definition atanUnit (t : Z) : Z :=
  let t3 := halveAngle (halveAngle (halveAngle t)) in
  (8 * atanSum 48 (fixMul t3 t3) t3 0)%Z.

(** The magnitude is below [2^bound]. *)
Definition belowPowerOfTwo (m : positive) (e bound : Z) : bool :=
  (Z.pos (digits2_pos m) + e <=? bound)%Z.

Definition withSign (s : bool) (v : number) : number :=
  if s then fopp v else v.

(** [Math.sin]: below [2^-27] the sine is the argument, to the precision of
    a Number. *)
Definition sinPlatform (x : number) : number :=
  match x with
  | S754_nan | S754_infinity _ => nan
  | S754_zero _ => x
  | S754_finite s m e =>
      if belowPowerOfTwo m e (-27) then x
      else withSign s (ofFix (sinFix (reduceArgument m e)))
  end.

(** A cosine is kept between -1 and 1. *)
Definition clampUnit (v : number) : number :=
  if isDouble v && fleb (fabs v) (ofZ 1) then v else ofZ 1.

(** [Math.cos] *)
Definition cosPlatform (x : number) : number :=
  match x with
  | S754_nan | S754_infinity _ => nan
  | S754_zero _ => ofZ 1
  | S754_finite s m e =>
      if belowPowerOfTwo m e (-27) then ofZ 1
      else clampUnit (ofFix (cosFix (reduceArgument m e)))
  end.

(** The arc tangent of [(my * 2^ey) / (mx * 2^ex)], a ratio of at most 1. *)
Definition atanRatio (my : positive) (ey : Z) (mx : positive) (ex : Z) : Z :=
  atanUnit (Z.shiftl (Z.pos my) (ey - ex + fixBits) / Z.pos mx).

(** [Math.atan2] *)
Definition atan2Platform (y x : number) : number :=
  match y, x with
  | S754_nan, _ | _, S754_nan => nan
  | S754_zero sy, _ =>
      withSign sy (if signBit x then Math_PI else S754_zero false)
  | _, S754_zero _ => withSign (signBit y) (ofFix (fixPi / 2))
  | S754_infinity sy, S754_infinity sx =>
      withSign sy (ofFix (if sx then 3 * fixPi / 4 else fixPi / 4))
  | S754_infinity sy, S754_finite _ _ _ => withSign sy (ofFix (fixPi / 2))
  | S754_finite sy _ _, S754_infinity sx =>
      withSign sy (if sx then Math_PI else S754_zero false)
  | S754_finite sy my ey, S754_finite sx mx ex =>
      withSign sy
        (if fleb (fabs y) (fabs x) then
           if sx then ofFix (fixPi - atanRatio my ey mx ex)
           else if (Z.pos (digits2_pos my) + ey
                    - (Z.pos (digits2_pos mx) + ex) <=? -30)%Z
                then fdiv (fabs y) (fabs x)
                else ofFix (atanRatio my ey mx ex)
         else if sx then ofFix (fixPi / 2 + atanRatio mx ex my ey)
              else ofFix (fixPi / 2 - atanRatio mx ex my ey))
  end.

Definition latin1Runtime : Runtime :=
  {| normalizeNFD := nfdLatin1;
     toLowerCase := lowerLatin1;
     numberToString := renderNumber;
     parseFloatStr := parseDecimal;
     mathSin := sinPlatform;
     mathCos := cosPlatform;
     mathAtan2 := atan2Platform |}.

(* ================================================================== *)
(** ** Data of the worked examples *)

Definition noDetails : NominatimAddressDetails :=
  {| city := None; town := None; village := None; county := None;
     suburb := None; neighbourhood := None; state := None |}.

(** A provider result in the centre of Rio de Janeiro. *)
Definition gotCentro : NominatimAddressDetails :=
  {| city := Some (str "Rio de Janeiro"); town := None; village := None;
     county := None; suburb := Some (str "Centro"); neighbourhood := None;
     state := Some (str "Rio de Janeiro") |}.

(** A provider result in another neighbourhood of the same city. *)
Definition gotTijuca : NominatimAddressDetails :=
  {| city := Some (str "Rio de Janeiro"); town := None; village := None;
     county := None; suburb := Some (str "Tijuca"); neighbourhood := None;
     state := Some (str "Rio de Janeiro") |}.

Definition resultCentro : NominatimResult :=
  {| lat := str "-22.9068"; lon := str "-43.1729";
     display_name := str "Rua A, 10, Centro, Rio de Janeiro";
     address := Some gotCentro |}.

Definition resultTijuca : NominatimResult :=
  {| lat := str "-22.9250"; lon := str "-43.2350";
     display_name := str "Rua A, 10, Tijuca, Rio de Janeiro";
     address := Some gotTijuca |}.

(** A row without locality hints. *)
Definition rowNoHints : InputAddressRow :=
  {| rawAddress := Some (str "Rua A, 10"); bairro := None;
     cidade := Some []; estado := None; otherFields := [] |}.

(** A row that expects the centre of Rio de Janeiro. *)
Definition rowCentro : InputAddressRow :=
  {| rawAddress := Some (str "Rua A, 10"); bairro := Some (str "Centro");
     cidade := Some (str "Rio de Janeiro"); estado := Some (str "RJ");
     otherFields := [] |}.

Definition expectCentro : ExpectedAddressDetails :=
  {| exp_bairro := Some (str "Centro");
     exp_cidade := Some (str "Rio de Janeiro");
     exp_estado := Some (str "RJ") |}.

(** The structured search finds the centre. *)
Definition repliesFound : ProviderReplies :=
  {| structuredReply := SearchFound resultCentro;
     freeTextReply := SearchNull;
     retryReply := SearchFound resultCentro |}.

(** The structured search fails, the free-text search finds nothing. *)
Definition repliesNothing : ProviderReplies :=
  {| structuredReply := SearchThrew;
     freeTextReply := SearchNull;
     retryReply := SearchNull |}.

Definition exampleReplies (i : nat) : ProviderReplies :=
  match i with
  | O => repliesNothing
  | _ => repliesFound
  end.

Definition exampleAddresses : list InputAddressRow :=
  [rowCentro; rowNoHints; rowCentro].

(** A batch of two addresses, and responses of the AI gateway: one that is
    rate limited and then answers with a single line, one that answers
    with two lines. *)
Definition twoAddresses : list jsstring :=
  [str "rua a 10"; str "av brasil 100"].

Definition oneLineText : jsstring := str "1. Rua A, 10".

Definition twoLineText : jsstring :=
  str "1. Rua A, 10" ++ [10%N] ++ str "2. Avenida Brasil, 100".

Definition replyOneLine (attempt : nat) : aiResponse :=
  match attempt with
  | O => AiRateLimited
  | _ => AiContent (Some oneLineText)
  end.

Definition replyTwoLines (attempt : nat) : aiResponse :=
  AiContent (Some twoLineText).

(** Rows of a batch: one with a blank address, then two addresses. *)
Definition rowBlank : object := [(str "Endereco", VStr [])].
Definition rowA : object := [(str "Endereco", VStr (str "rua a 10"))].
Definition rowB : object := [(str "Endereco", VStr (str "rua b 20"))].

Definition replyRowB (attempt : nat) : aiResponse :=
  AiContent (Some (str "1. Rua B, 20")).

Definition replyRowsAB (attempt : nat) : aiResponse :=
  AiContent (Some (str "1. Rua A, 10" ++ [10%N] ++ str "2. Rua B, 20")).

Definition noFetch (idx : nat) (query : jsstring) : fetchOutcome := FetchNotOk.

(** A row with coordinates, and a geocoder that answers with a point of the
    equator half a turn away. *)
Definition rowCoords : object :=
  [(str "Endereco", VStr (str "rua a 10"));
   (str "Latitude", VStr (str "0"));
   (str "Longitude", VStr (str "0"))].

Definition fetchFar (query : jsstring) : fetchOutcome :=
  FetchJson [(VStr (str "0"), VStr (str "180"))].

Definition fetchSame (query : jsstring) : fetchOutcome :=
  FetchJson [(VStr (str "0"), VStr (str "0"))].






(** Rows of a sheet with an address and a sequence column. *)
Definition sheetRow (address sequence : jsstring) : object :=
  [(str "Endereco", VStr address); (str "Sequence", VStr sequence)].

(** The grouping and the sequence-merge examples of the specification. *)
Definition exampleSheet : list object :=
  [sheetRow (str "Rua A, 10, Apto 2") (str "S1");
   sheetRow (str "Rua A, 100") (str "S4");
   sheetRow (str "Rua A, 10, Casa") [];
   sheetRow (str "Rua A, 10") (str "S3")].

(** A sheet one of whose addresses is the word "constructor". *)
Definition constructorSheet : list object :=
  [sheetRow (str "Rua A, 10") (str "S1");
   sheetRow (str "constructor") (str "S2")].

(** A bucket whose first sequence value has a space before it. *)
Definition paddedBucket : list object :=
  [sheetRow (str "Rua A, 10") (str " S1");
   sheetRow (str "Rua A, 10, Casa") (str "S2")].

(** A sheet with an address that is an array index. *)
Definition numberedSheet : list object :=
  [sheetRow (str "Rua B, 5") (str "S1"); sheetRow (str "42") (str "S2")].

(* ================================================================== *)
(** ** Further definitions: the request of the corrector, the keys in the
       order of their first appearance, the export *)

(** The text starts with a digit. *)
Definition startsWithDigit (s : jsstring) : bool :=
  match s with
  | c :: _ => isDigit c
  | [] => false
  end.

(** The elements of [l] not in [seen], each once, in the order of their
    first appearance. *)
Fixpoint dedupeFrom (seen : list jsstring) (l : list jsstring)
  : list jsstring :=
  match l with
  | [] => []
  | k :: l' =>
      if existsb (JS.eqb k) seen then dedupeFrom seen l'
      else k :: dedupeFrom (seen ++ [k]) l'
  end.

Definition firstAppearances (l : list jsstring) : list jsstring :=
  dedupeFrom [] l.

(** The groups of [exampleSheet]. *)
Definition exampleGroups : groups :=
  [(str "Rua A, 10",
    [sheetRow (str "Rua A, 10, Apto 2") (str "S1");
     sheetRow (str "Rua A, 10, Casa") [];
     sheetRow (str "Rua A, 10") (str "S3")]);
   (str "Rua A, 100", [sheetRow (str "Rua A, 100") (str "S4")])].

(** [`${n}`] for a natural number. *)
Definition renderNat (n : nat) : jsstring :=
  str (NilZero.string_of_uint (Nat.to_uint n)).

(** [`${idx + 1}. ${addr}`] *)
Definition numberedLine (idx : nat) (addr : jsstring) : jsstring :=
  renderNat (idx + 1) ++ str ". " ++ addr.

(** The numbered list sent to the corrector (ResultsStep.tsx, line 196):
    [addresses.map((addr, idx) => `${idx + 1}. ${addr}`).join('\n')]. *)
Definition addressList (addresses : list jsstring) : jsstring :=
  join [10%N] (mapi numberedLine addresses).

(** The code unit is not a line feed. *)
Definition notLineFeed (c : N) : bool := negb (c =? 10)%N.

(** A row without an address column, and a sheet row with coordinates. *)
Definition rowNoAddress : object :=
  [(str "Nome", VStr (str "Maria")); (str "Sequence", VStr (str "S9"))].

Definition failingFetch (idx : nat) (query : jsstring) : fetchOutcome :=
  FetchThrew.

(** *** The end of [processFile]: the call of the corrector (part_000,
        lines 200-235) *)

(** What the race between the call of [correct-addresses] and the
    two-minute timer gives the page: the timer wins, the call throws, the
    call answers with an error, or it answers with data that may lack
    [correctedRows]. *)
Inductive correctionOutcome : Type :=
| CorrectionTimedOut
| CorrectionThrew
| CorrectionError
| CorrectionData (correctedRows : option (list object)).

(** The rows the page keeps, [setProcessedData]: [correctedRows] when the
    answer has them, an array being truthy even when empty, and [results]
    in every other case. *)
Definition processedDataOf (results : list object)
    (reply : correctionOutcome) : list object :=
  match reply with
  | CorrectionData (Some correctedRows) => correctedRows
  | CorrectionData None => results
  | CorrectionError => results
  | CorrectionTimedOut | CorrectionThrew => results
  end.

(** The reply carries rows. *)
Definition hasCorrectedRows (reply : correctionOutcome) : bool :=
  match reply with
  | CorrectionData (Some _) => true
  | _ => false
  end.

(** *** [handleExport] (part_000, lines 263-307) *)

Inductive exportFormat : Type := Xlsx | Csv.

(** What the handler reads from the render it was created in. *)
Record PageState : Type := {
  user : option jsstring;              (* [user.id], when a user is signed in *)
  credits : number;
  processedData : list object
}.

(** A row of the answer of the [deduct_credit] procedure. *)
Record DeductRow : Type := {
  success : bool;
  error_msg : option jsstring
}.

(** What the call of the procedure comes to: it throws, or it answers with
    [error], null or an object with a [message], and [data], null or the
    rows. *)
Inductive deductOutcome : Type :=
| DeductThrew
| DeductAnswered (error : option (option jsstring))
                 (data : option (list DeductRow)).

(** [error || !data || !data[0]?.success] *)
Definition deductFailed (error : option (option jsstring))
    (data : option (list DeductRow)) : bool :=
  match error with Some _ => true | None => false end
  || match data with
     | None => true
     | Some [] => true
     | Some (first :: _) => negb (success first)
     end.

(** [data?.[0]?.error_msg || error?.message || "Erro ao descontar credito"] *)
Definition deductMessage (error : option (option jsstring))
    (data : option (list DeductRow)) : jsstring :=
  let fromData :=
    match data with
    | Some (first :: _) => error_msg first
    | _ => None
    end in
  let fromError := match error with Some message => message | None => None end in
  orElse fromData
    (orElse fromError (str "Erro ao descontar cr" ++ [233%N] ++ str "dito")).

(** An awaited call, or a block of calls, that completes or throws. *)
Inductive callOutcome : Type := Completes | Throws.

Inductive toast : Type :=
| ToastError (message : jsstring) (description : option jsstring)
| ToastSuccess (message : jsstring).

(** [String(n).padStart(2, '0')] *)
Definition padStart2 (n : nat) : jsstring :=
  let s := renderNat n in
  if (length s <? 2)%nat then repeat 48%N (2 - length s) ++ s else s.

Definition formatName (format : exportFormat) : jsstring :=
  match format with Xlsx => str "xlsx" | Csv => str "csv" end.

(** [format.toUpperCase()] *)
Definition formatUpperCase (format : exportFormat) : jsstring :=
  match format with Xlsx => str "XLSX" | Csv => str "CSV" end.

(** [`RotaSmart-${day}-${month}-${year}`] with the extension of the format;
    [monthIndex] is what [getMonth] returns, counted from zero. *)
Definition exportFileName (format : exportFormat)
    (date monthIndex fullYear : nat) : jsstring :=
  let day := padStart2 date in
  let month := padStart2 (monthIndex + 1) in
  let fileName :=
    str "RotaSmart-" ++ day ++ str "-" ++ month ++ str "-"
    ++ renderNat fullYear in
  match format with
  | Xlsx => fileName ++ str ".xlsx"
  | Csv => fileName ++ str ".csv"
  end.

(** What one run of the handler does: the toast shown, whether the dialog to
    buy credits is opened, whether the credit procedure is called, whether
    the update [prev => prev - 1] of the credits is queued, the download
    that [insertDownload] is asked to record, the file written with its
    name and its rows, and whether the run ends with an exception. *)
Record ExportRun : Type := {
  toastShown : option toast;
  buyCreditsOpened : bool;
  deductCalled : bool;
  creditsDecremented : bool;
  downloadRequested : option jsstring;
  fileWritten : option (jsstring * list object);
  rejected : bool
}.

Definition stopped (shown : option toast) (opened called : bool) : ExportRun :=
  {| toastShown := shown; buyCreditsOpened := opened; deductCalled := called;
     creditsDecremented := false; downloadRequested := None;
     fileWritten := None; rejected := false |}.

(** [handleExport]: [reply] is the outcome of the credit procedure, [isoNow]
    the time stamp of the download record, [recording] the outcome of
    [insertDownload], [writing] that of the calls of the XLSX library, and
    [date], [monthIndex] and [fullYear] the day of the export. *)
Definition handleExport {rt : Runtime} (format : exportFormat) (st : PageState)
    (reply : deductOutcome) (isoNow : jsstring)
    (recording writing : callOutcome) (date monthIndex fullYear : nat)
  : ExportRun :=
  match user st with
  | None =>
      stopped
        (Some (ToastError (str "Usu" ++ [225%N] ++ str "rio n" ++ [227%N]
                             ++ str "o autenticado") None))
        false false
  | Some userId =>
      if fltb (credits st) (ofZ 1) then
        stopped
          (Some (ToastError
                   (str "Compre mais cr" ++ [233%N]
                      ++ str "ditos para continuar")
                   (Some (str "Cr" ++ [233%N] ++ str "ditos insuficientes"))))
          true false
      else
        match reply with
        | DeductThrew =>
            {| toastShown := None; buyCreditsOpened := false;
               deductCalled := true; creditsDecremented := false;
               downloadRequested := None; fileWritten := None;
               rejected := true |}
        | DeductAnswered error data =>
            if deductFailed error data then
              stopped (Some (ToastError (deductMessage error data) None))
                false true
            else
              let download :=
                str "download_" ++ formatName format ++ str "_" ++ isoNow in
              match recording with
              | Throws =>
                  {| toastShown := None; buyCreditsOpened := false;
                     deductCalled := true; creditsDecremented := true;
                     downloadRequested := Some download;
                     fileWritten := None; rejected := true |}
              | Completes =>
                  let exportData := processedData st in
                  match writing with
                  | Throws =>
                      {| toastShown := None; buyCreditsOpened := false;
                         deductCalled := true; creditsDecremented := true;
                         downloadRequested := Some download;
                         fileWritten := None; rejected := true |}
                  | Completes =>
                      {| toastShown :=
                           Some (ToastSuccess
                                   (str "Arquivo exportado! Seu arquivo "
                                    ++ formatUpperCase format
                                    ++ str " foi baixado com sucesso. Cr"
                                    ++ [233%N] ++ str "ditos restantes: "
                                    ++ numberToString
                                         (fsub (credits st) (ofZ 1))));
                         buyCreditsOpened := false;
                         deductCalled := true; creditsDecremented := true;
                         downloadRequested := Some download;
                         fileWritten :=
                           Some (exportFileName format date monthIndex
                                   fullYear, exportData);
                         rejected := false |}
                  end
              end
        end
  end.

(** The credits of the page after a run: the queued update is applied to
    the credits the page then has, which the listener of the profile also
    writes (lines 69-87). *)
Definition creditsAfter (run : ExportRun) (prev : number) : number :=
  if creditsDecremented run then fsub prev (ofZ 1) else prev.

(** The deduction was made. *)
Definition deductSucceeded (reply : deductOutcome) : bool :=
  match reply with
  | DeductThrew => false
  | DeductAnswered error data => negb (deductFailed error data)
  end.

(** A page with one credit, and the answers of the credit procedure. *)
Definition pageOneCredit : PageState :=
  {| user := Some (str "u1"); credits := ofZ 1;
     processedData := [rowNoAddress] |}.

Definition deductOk : deductOutcome :=
  DeductAnswered None (Some [{| success := true; error_msg := None |}]).

(* ================================================================== *)
(** ** Auxiliary predicates used in the proofs *)

(** White space occurs in [s] only as single U+0020 units; [prevSpace]
    tells that the unit before [s] was white space. *)
Fixpoint singleSpaced (prevSpace : bool) (s : jsstring) : bool :=
  match s with
  | [] => true
  | c :: s' =>
      if isSpace c
      then negb prevSpace && (c =? 32)%N && singleSpaced true s'
      else singleSpaced false s'
  end.

(** [s] is empty or ends with a unit that is not white space. *)
Definition endsClean (s : jsstring) : Prop :=
  s = [] \/ exists l c, s = l ++ [c] /\ isSpace c = false.

(** [s] is empty or starts with a unit that is not white space. *)
Definition startsClean (s : jsstring) : bool :=
  match s with [] => true | c :: _ => negb (isSpace c) end.

(** A locality hint that is missing or empty. *)
Definition isEmptyHint (h : option jsstring) : bool :=
  negb (nonEmpty (orElse h [])).

(** The result the structured or, failing it, the free-text search found. *)
Definition firstFound (replies : ProviderReplies) : option NominatimResult :=
  match structuredReply replies with
  | SearchFound r => Some r
  | _ =>
      match freeTextReply replies with
      | SearchFound r => Some r
      | _ => None
      end
  end.

(** The invariant of [status] in a row resolved with the replies [replies]:
    [valid] and [corrected] come with both coordinates; with [pending] and
    [mismatch] a coordinate is absent, or both are those of the result found
    first, which failed the validation against the row's locality. *)
Definition statusInvariant {rt : Runtime} (replies : ProviderReplies)
    (p : ProcessedAddress) : Prop :=
  match status p with
  | valid | corrected =>
      exists la lo, latitude p = Some la /\ longitude p = Some lo
  | pending | mismatch =>
      (latitude p = None \/ longitude p = None)
      \/ exists r,
           firstFound replies = Some r
           /\ latitude p = Some (lat r) /\ longitude p = Some (lon r)
           /\ addressMatchesExpected (Some (addressOrEmpty r))
                (expectedOf (inputRow p)) = false
  end.

(** The rows of [rows] whose key is [k], in order. *)
Definition rowsWithKey {rt : Runtime} (addressColumn k : jsstring)
    (rows : list object) : list object :=
  filter (fun r => JS.eqb (rowKey addressColumn r) k) rows.

(** What holds of [grouped] after the rows [done] have been put in: the keys
    are pairwise distinct and none is inherited, every row's key has a
    bucket, the bucket of a key is not empty and holds the rows with that
    key in their order, and the buckets together hold each row once. *)
Record groupedInv {rt : Runtime} (addressColumn : jsstring)
    (grouped : groups) (done : list object) : Prop := {
  inv_keys : NoDup (map fst grouped);
  inv_own : forall k, In k (map fst grouped) -> inherited k = false;
  inv_cover : forall r, In r done ->
                        In (rowKey addressColumn r) (map fst grouped);
  inv_bucket : forall k b, In (k, b) grouped ->
                           b <> [] /\ b = rowsWithKey addressColumn k done;
  inv_perm : Permutation (concat (map snd grouped)) done
}.

(** The sequence value the specification words describe: the non-blank
    values, trimmed, joined by "; ". *)
Definition joinTrimmedSequences {rt : Runtime} (sequenceColumn : jsstring)
    (rows : list object) : jsstring :=
  join (str "; ")
       (filter nonEmpty
          (map (fun r => trim (sequenceText sequenceColumn r)) rows)).

(** Degrees to radians, as [calculateDistance] does it. *)
Definition radians (x : number) : number :=
  fdiv (fmul x Math_PI) (ofZ 180).

(** The special values of the elementary functions that the language fixes
    and [calculateDistance] meets: the sine of a zero is that zero, the sine
    of [NaN] or of an infinity is [NaN], the arc tangent of a [NaN] ordinate
    is [NaN], and the arc tangent of the ordinate [+0] with a positive
    abscissa is [+0]. *)
Record EcmaMath (rt : Runtime) : Prop := {
  sin_zero : forall s, mathSin (S754_zero s) = S754_zero s;
  sin_nan : mathSin nan = nan;
  sin_infinity : forall s, mathSin (S754_infinity s) = nan;
  atan2_nan : forall x, mathAtan2 nan x = nan;
  atan2_zero :
    forall x, fltb (S754_zero false) x = true ->
              mathAtan2 (S754_zero false) x = S754_zero false
}.



(** The result passes the validation against the row's locality. *)
Definition matchesRow {rt : Runtime} (r0 : InputAddressRow)
    (r : NominatimResult) : bool :=
  addressMatchesExpected (Some (addressOrEmpty r)) (expectedOf r0).

(** The provider result has no city, town, village or county. *)
Definition noCityDetails (a : NominatimAddressDetails) : bool :=
  isEmptyHint (city a) && isEmptyHint (town a) && isEmptyHint (village a)
  && isEmptyHint (county a).

(** A provider result without the address breakdown. *)
Definition resultBare : NominatimResult :=
  {| lat := str "-22.9068"; lon := str "-43.1729";
     display_name := str "Rio de Janeiro"; address := None |}.

Definition repliesBare : ProviderReplies :=
  {| structuredReply := SearchNull;
     freeTextReply := SearchFound resultBare;
     retryReply := SearchNull |}.

(** The first result is rejected, the retry finds the centre. *)
Definition repliesRetry : ProviderReplies :=
  {| structuredReply := SearchFound resultBare;
     freeTextReply := SearchThrew;
     retryReply := SearchFound resultCentro |}.

(** The merged rows of [exampleSheet]. *)
Definition exampleResults : list object :=
  match processFile (rt := latin1Runtime) exampleSheet with
  | Done results => results
  | Thrown _ => []
  end.

(** The key is an array index, and the index it is. *)
Definition isIndexKey (k : jsstring) : bool :=
  match arrayIndex k with Some _ => true | None => false end.

Definition indexValue (k : jsstring) : N :=
  match arrayIndex k with Some i => i | None => 0%N end.

(** The groups of [numberedSheet], in the order of their creation. *)
Definition numberedGroups : groups :=
  [(str "Rua B, 5", [sheetRow (str "Rua B, 5") (str "S1")]);
   (str "42", [sheetRow (str "42") (str "S2")])].

(** The order in which [indexEntries] keeps the array indices. *)
Definition indexOrder {B : Type} (a b : N * (jsstring * B)) : Prop :=
  (fst a <= fst b)%N.

(* ================================================================== *)
(** ** Facts about the string primitives *)

Section StringFacts.

Variable p : N -> bool.

Lemma takeWhile_dropWhile s : takeWhile p s ++ dropWhile p s = s.
Proof.
  induction s as [|c s IH]; simpl; [reflexivity|].
  destruct (p c); simpl; [now rewrite IH | reflexivity].
Qed.

Lemma takeWhile_Forall s : Forall (fun c => p c = true) (takeWhile p s).
Proof.
  induction s as [|c s IH]; simpl; [constructor|].
  destruct (p c) eqn:E; constructor; assumption.
Qed.

Lemma dropWhile_head s c r : dropWhile p s = c :: r -> p c = false.
Proof.
  induction s as [|a s IH]; simpl; [discriminate|].
  destruct (p a) eqn:E; [exact IH|].
  intros H; injection H as -> _; exact E.
Qed.

Lemma takeWhile_app_stop a c r :
  Forall (fun x => p x = true) a -> p c = false ->
  takeWhile p (a ++ c :: r) = a.
Proof.
  intros Ha Hc. induction Ha as [|x a Hx _ IH]; simpl.
  - now rewrite Hc.
  - now rewrite Hx, IH.
Qed.

Lemma dropWhile_app_stop a c r :
  Forall (fun x => p x = true) a -> p c = false ->
  dropWhile p (a ++ c :: r) = c :: r.
Proof.
  intros Ha Hc. induction Ha as [|x a Hx _ IH]; simpl.
  - now rewrite Hc.
  - now rewrite Hx.
Qed.

Lemma takeWhile_all a :
  Forall (fun x => p x = true) a -> takeWhile p a = a.
Proof.
  induction 1 as [|x a Hx _ IH]; simpl; [reflexivity|].
  now rewrite Hx, IH.
Qed.

End StringFacts.

Lemma isDigit_cases c :
  isDigit c = true ->
  (c = 48 \/ c = 49 \/ c = 50 \/ c = 51 \/ c = 52 \/ c = 53 \/ c = 54
   \/ c = 55 \/ c = 56 \/ c = 57)%N.
Proof.
  unfold isDigit, between. intros H.
  apply andb_true_iff in H as [H1 H2].
  apply N.leb_le in H1, H2. lia.
Qed.

Lemma isDigit_not_space c : isDigit c = true -> isSpace c = false.
Proof.
  intros H. apply isDigit_cases in H.
  repeat (destruct H as [-> | H]; [reflexivity|]). now subst.
Qed.

Lemma isDigit_not_sep c : isDigit c = true -> isSep c = false.
Proof.
  intros H. apply isDigit_cases in H.
  repeat (destruct H as [-> | H]; [reflexivity|]). now subst.
Qed.

Lemma trimEnd_snoc l c :
  trimEnd (l ++ [c]) = if isSpace c then trimEnd l else l ++ [c].
Proof.
  induction l as [|a l IH]; simpl.
  - destruct (isSpace c); reflexivity.
  - rewrite IH. destruct (isSpace c); [reflexivity|].
    destruct l; reflexivity.
Qed.

Lemma trimEnd_endsClean s : endsClean (trimEnd s).
Proof.
  induction s as [|c l IH] using rev_ind.
  - now left.
  - rewrite trimEnd_snoc. destruct (isSpace c) eqn:E; [exact IH|].
    right. now exists l, c.
Qed.

Lemma trimEnd_fixed s : endsClean s -> trimEnd s = s.
Proof.
  intros [-> | (l & c & -> & Hc)]; [reflexivity|].
  now rewrite trimEnd_snoc, Hc.
Qed.

Lemma trimStart_startsClean s : startsClean (trimStart s) = true.
Proof.
  unfold trimStart. destruct (dropWhile isSpace s) as [|c r] eqn:E;
    [reflexivity|].
  simpl. now rewrite (dropWhile_head _ _ _ _ E).
Qed.

Lemma trimStart_fixed s : startsClean s = true -> trimStart s = s.
Proof.
  destruct s as [|c s]; [reflexivity|]. unfold trimStart. simpl.
  destruct (isSpace c); [discriminate | reflexivity].
Qed.

Lemma trimEnd_startsClean s :
  startsClean s = true -> startsClean (trimEnd s) = true.
Proof.
  destruct s as [|c s]; [reflexivity|]. simpl.
  destruct (isSpace c) eqn:E; [discriminate|]. intros _.
  destruct (trimEnd s); simpl; now rewrite E.
Qed.

Lemma trim_fixed s : startsClean s = true -> endsClean s -> trim s = s.
Proof.
  intros H1 H2. unfold trim. rewrite (trimStart_fixed _ H1).
  now apply trimEnd_fixed.
Qed.

Lemma trim_startsClean s : startsClean (trim s) = true.
Proof. apply trimEnd_startsClean, trimStart_startsClean. Qed.

Lemma trim_endsClean s : endsClean (trim s).
Proof. apply trimEnd_endsClean. Qed.

Lemma collapseSpaces_snoc b l c :
  isSpace c = false ->
  collapseSpaces b (l ++ [c]) = collapseSpaces b l ++ [c].
Proof.
  intros Hc. revert b. induction l as [|a l IH]; intros b; simpl.
  - now rewrite Hc.
  - destruct (isSpace a); [destruct b|]; now rewrite IH.
Qed.

Lemma collapseSpaces_endsClean b s :
  endsClean s -> endsClean (collapseSpaces b s).
Proof.
  intros [-> | (l & c & -> & Hc)]; [now left|].
  right. rewrite (collapseSpaces_snoc _ _ _ Hc). eauto.
Qed.

Lemma collapseSpaces_startsClean b s :
  startsClean s = true -> startsClean (collapseSpaces b s) = true.
Proof.
  destruct s as [|c s]; [reflexivity|]. simpl.
  destruct (isSpace c) eqn:E; [discriminate|]. simpl. now rewrite E.
Qed.

Lemma collapseSpaces_singleSpaced b s :
  singleSpaced b (collapseSpaces b s) = true.
Proof.
  revert b. induction s as [|c s IH]; intros b; simpl; [reflexivity|].
  destruct (isSpace c) eqn:E.
  - destruct b; [apply IH|]. simpl. apply IH.
  - simpl. rewrite E. apply IH.
Qed.

Lemma singleSpaced_fixed b s :
  singleSpaced b s = true -> collapseSpaces b s = s.
Proof.
  revert b. induction s as [|c s IH]; intros b; simpl; [reflexivity|].
  destruct (isSpace c) eqn:E.
  - intros H. apply andb_true_iff in H as [H H3].
    apply andb_true_iff in H as [H1 H2].
    destruct b; [discriminate|]. apply N.eqb_eq in H2. subst c.
    now rewrite (IH _ H3).
  - intros H. now rewrite (IH _ H).
Qed.

Lemma singleSpaced_weaken b s :
  singleSpaced b s = true -> singleSpaced false s = true.
Proof.
  destruct s as [|c s]; [reflexivity|]. simpl.
  destruct (isSpace c); [|auto]. destruct b; simpl; [discriminate | auto].
Qed.

Lemma singleSpaced_prefix b m r :
  singleSpaced b (m ++ r) = true -> singleSpaced b m = true.
Proof.
  revert b. induction m as [|c m IH]; intros b; simpl; [reflexivity|].
  destruct (isSpace c).
  - intros H. apply andb_true_iff in H as [H H3]. rewrite H. simpl. eauto.
  - eauto.
Qed.

(* ================================================================== *)
(** ** [normalizeAddress]: the street-and-number pattern *)

Lemma sepsThenDigits_shape s m :
  sepsThenDigits s = Some m ->
  exists seps ds r,
    m = seps ++ ds /\ s = m ++ r /\ seps <> [] /\ ds <> []
    /\ Forall (fun c => isSep c = true) seps
    /\ Forall (fun c => isDigit c = true) ds.
Proof.
  unfold sepsThenDigits. intros H.
  pose proof (takeWhile_dropWhile isSep s) as E1.
  pose proof (takeWhile_dropWhile isDigit (dropWhile isSep s)) as E2.
  remember (dropWhile isDigit (dropWhile isSep s)) as rest eqn:Hrest.
  clear Hrest.
  pose proof (takeWhile_Forall isSep s) as F1.
  pose proof (takeWhile_Forall isDigit (dropWhile isSep s)) as F2.
  destruct (takeWhile isSep s) as [|c seps]; [discriminate|].
  destruct (takeWhile isDigit (dropWhile isSep s)) as [|d ds]; [discriminate|].
  injection H as <-.
  exists (c :: seps), (d :: ds), rest.
  repeat split; try discriminate; try assumption.
  simpl in E1, E2 |- *. rewrite <- app_assoc. simpl. rewrite E2.
  exact (eq_sym E1).
Qed.

Lemma sepsThenDigits_exact seps ds :
  seps <> [] -> ds <> [] ->
  Forall (fun c => isSep c = true) seps ->
  Forall (fun c => isDigit c = true) ds ->
  sepsThenDigits (seps ++ ds) = Some (seps ++ ds).
Proof.
  intros Hs Hd Fs Fd.
  destruct seps as [|c seps]; [congruence|].
  destruct ds as [|d ds]; [congruence|].
  assert (Hdsep : isSep d = false)
    by (apply isDigit_not_sep; now inversion Fd).
  unfold sepsThenDigits.
  rewrite (takeWhile_app_stop isSep (c :: seps) d ds Fs Hdsep).
  rewrite (dropWhile_app_stop isSep (c :: seps) d ds Fs Hdsep).
  rewrite (takeWhile_all isDigit (d :: ds) Fd). reflexivity.
Qed.

(** A match inside a prefix is a match in the whole string (the digits may
    run further). *)
Lemma sepsThenDigits_extend m x r :
  sepsThenDigits m = Some x -> exists x', sepsThenDigits (m ++ r) = Some x'.
Proof.
  intros H. destruct (sepsThenDigits_shape _ _ H)
    as (seps & ds & r0 & -> & -> & Hs & Hd & Fs & Fd).
  destruct seps as [|c seps]; [congruence|].
  destruct ds as [|d ds]; [congruence|].
  assert (Hdig : isDigit d = true) by now inversion Fd.
  assert (Hdsep : isSep d = false) by now apply isDigit_not_sep.
  unfold sepsThenDigits.
  replace ((((c :: seps) ++ d :: ds) ++ r0) ++ r)
    with ((c :: seps) ++ d :: (ds ++ r0 ++ r))
    by (now rewrite <- !app_assoc).
  rewrite (takeWhile_app_stop isSep (c :: seps) d _ Fs Hdsep).
  rewrite (dropWhile_app_stop isSep (c :: seps) d _ Fs Hdsep).
  simpl takeWhile. rewrite Hdig. eauto.
Qed.

Lemma lazyPrefix_unfold s :
  lazyPrefix s =
  match sepsThenDigits s with
  | Some m => Some m
  | None =>
      match s with
      | [] => None
      | c :: s' =>
          if isLineTerminator c then None
          else option_map (cons c) (lazyPrefix s')
      end
  end.
Proof. destruct s; reflexivity. Qed.

Lemma lazyPrefix_prefix s m : lazyPrefix s = Some m -> exists r, s = m ++ r.
Proof.
  revert m. induction s as [|c s IH]; intros m; rewrite lazyPrefix_unfold.
  - destruct (sepsThenDigits []) eqn:E; [|discriminate].
    intros H; injection H as <-.
    destruct (sepsThenDigits_shape _ _ E) as (_ & _ & r & _ & Hr & _). eauto.
  - destruct (sepsThenDigits (c :: s)) eqn:E.
    + intros H; injection H as <-.
      destruct (sepsThenDigits_shape _ _ E) as (_ & _ & r & _ & Hr & _). eauto.
    + destruct (isLineTerminator c); [discriminate|].
      destruct (lazyPrefix s) as [m'|] eqn:E'; [|discriminate].
      intros H; injection H as <-.
      destruct (IH _ eq_refl) as [r ->]. now exists r.
Qed.

Lemma lazyPrefix_ends_with_digit s m :
  lazyPrefix s = Some m -> exists l d, m = l ++ [d] /\ isDigit d = true.
Proof.
  revert m. induction s as [|c s IH]; intros m; rewrite lazyPrefix_unfold.
  - destruct (sepsThenDigits []) eqn:E; [|discriminate].
    unfold sepsThenDigits in E. discriminate.
  - destruct (sepsThenDigits (c :: s)) eqn:E.
    + intros H; injection H as <-.
      destruct (sepsThenDigits_shape _ _ E)
        as (seps & ds & _ & -> & _ & _ & Hd & _ & Fd).
      destruct (exists_last Hd) as (ds' & d & ->).
      exists (seps ++ ds'), d. split; [now rewrite app_assoc|].
      apply Forall_app in Fd as [_ Fd]. now inversion Fd.
    + destruct (isLineTerminator c); [discriminate|].
      destruct (lazyPrefix s) as [m'|] eqn:E'; [|discriminate].
      intros H; injection H as <-.
      destruct (IH _ eq_refl) as (l & d & -> & Hd).
      now exists (c :: l), d.
Qed.

(** The text captured by the pattern is matched by the pattern, whole. *)
Lemma lazyPrefix_idem s m : lazyPrefix s = Some m -> lazyPrefix m = Some m.
Proof.
  revert m. induction s as [|c s IH]; intros m; rewrite lazyPrefix_unfold.
  - destruct (sepsThenDigits []) eqn:E; [|discriminate].
    unfold sepsThenDigits in E. discriminate.
  - destruct (sepsThenDigits (c :: s)) eqn:E.
    + intros H; injection H as <-.
      destruct (sepsThenDigits_shape _ _ E)
        as (seps & ds & _ & -> & _ & Hs & Hd & Fs & Fd).
      rewrite lazyPrefix_unfold.
      now rewrite (sepsThenDigits_exact _ _ Hs Hd Fs Fd).
    + destruct (isLineTerminator c) eqn:Hc; [discriminate|].
      destruct (lazyPrefix s) as [m'|] eqn:E'; [|discriminate].
      intros H; injection H as <-.
      destruct (lazyPrefix_prefix _ _ E') as [r Hr].
      rewrite lazyPrefix_unfold.
      destruct (sepsThenDigits (c :: m')) eqn:E2.
      * destruct (sepsThenDigits_extend _ _ r E2) as [x' Hx'].
        simpl in Hx'. rewrite <- Hr in Hx'. congruence.
      * rewrite Hc, (IH _ eq_refl). reflexivity.
Qed.

Lemma matchStreetNumber_idem s m :
  matchStreetNumber s = Some m -> matchStreetNumber m = Some m.
Proof.
  destruct s as [|c s]; [discriminate|]. simpl.
  destruct (isLineTerminator c) eqn:Hc; [discriminate|].
  destruct (lazyPrefix s) as [m'|] eqn:E; [|discriminate].
  intros H; injection H as <-. simpl.
  now rewrite Hc, (lazyPrefix_idem _ _ E).
Qed.

Lemma matchStreetNumber_shape s m :
  matchStreetNumber s = Some m ->
  exists c m' r l d,
    s = m ++ r /\ m = c :: m' /\ m = l ++ [d] /\ isDigit d = true.
Proof.
  destruct s as [|c s]; [discriminate|]. simpl.
  destruct (isLineTerminator c) eqn:Hc; [discriminate|].
  destruct (lazyPrefix s) as [m'|] eqn:E; [|discriminate].
  intros H; injection H as <-.
  destruct (lazyPrefix_prefix _ _ E) as [r ->].
  destruct (lazyPrefix_ends_with_digit _ _ E) as (l & d & -> & Hd).
  now exists c, (l ++ [d]), r, (c :: l), d.
Qed.

(** The cleaned address: trimmed, with single spaces. *)
Lemma cleaned_tidy a :
  let cleaned := replaceSpaceRuns (trim a) in
  startsClean cleaned = true /\ endsClean cleaned
  /\ singleSpaced false cleaned = true.
Proof.
  unfold replaceSpaceRuns. repeat split.
  - apply collapseSpaces_startsClean, trim_startsClean.
  - apply collapseSpaces_endsClean, trim_endsClean.
  - apply collapseSpaces_singleSpaced.
Qed.

Lemma tidy_fixed s :
  startsClean s = true -> endsClean s -> singleSpaced false s = true ->
  replaceSpaceRuns (trim s) = s.
Proof.
  intros H1 H2 H3. rewrite (trim_fixed _ H1 H2).
  now apply singleSpaced_fixed.
Qed.

Lemma normalizeAddress_fixed s :
  startsClean s = true -> endsClean s -> singleSpaced false s = true ->
  matchStreetNumber s = Some s \/ matchStreetNumber s = None ->
  normalizeAddress s = s.
Proof.
  intros H1 H2 H3 H. unfold normalizeAddress.
  rewrite (tidy_fixed _ H1 H2 H3).
  destruct H as [-> | ->]; [now apply trim_fixed | reflexivity].
Qed.

(** C5. For every address string [a], [normalizeAddress] is idempotent:
    normalising a normalised address returns it unchanged. *)
Theorem normalizeAddress_idempotent (a : jsstring) :
  normalizeAddress (normalizeAddress a) = normalizeAddress a.
Proof.
  destruct (cleaned_tidy a) as (H1 & H2 & H3).
  unfold normalizeAddress at 2 3.
  set (cleaned := replaceSpaceRuns (trim a)) in *.
  destruct (matchStreetNumber cleaned) as [m|] eqn:E.
  - destruct (matchStreetNumber_shape _ _ E)
      as (c & m' & r & l & d & Hr & Hm & Hl & Hd).
    assert (S1 : startsClean m = true).
    { rewrite Hr, Hm in H1. rewrite Hm. exact H1. }
    assert (S2 : endsClean m).
    { right. exists l, d. split; [exact Hl | now apply isDigit_not_space]. }
    assert (S3 : singleSpaced false m = true).
    { rewrite Hr in H3. exact (singleSpaced_prefix _ _ _ H3). }
    rewrite (trim_fixed _ S1 S2).
    apply normalizeAddress_fixed; auto.
    left. exact (matchStreetNumber_idem _ _ E).
  - apply normalizeAddress_fixed; auto.
Qed.

Example normalizeAddress_comment :
  normalizeAddress (str "Rua Justo de Morais, 21, Casa")
  = str "Rua Justo de Morais, 21".
Proof. vm_compute. reflexivity. Qed.

Example normalizeAddress_spec_examples :
  normalizeAddress (str "Rua A, 10, Apto 2") = str "Rua A, 10"
  /\ normalizeAddress (str "Rua A, 10, Casa") = str "Rua A, 10"
  /\ normalizeAddress (str "Rua A, 100") = str "Rua A, 100"
  /\ normalizeAddress (str "  Rua   sem numero ") = str "Rua sem numero".
Proof. vm_compute. repeat split. Qed.

(* ================================================================== *)
(** ** The arithmetic of Numbers *)












(** *** Rounding without overflow *)



Lemma Zdigits2_nonneg (z : Z) : (0 <= Zdigits2 z)%Z.
Proof. destruct z; simpl; lia. Qed.










Lemma fsub_not_finite (x y : number) :
  isFiniteNumber x = false \/ isFiniteNumber y = false ->
  isFiniteNumber (fsub x y) = false.
Proof.
  destruct x as [sx|sx| |sx mx ex], y as [sy|sy| |sy my ey];
    intros [H | H]; try discriminate; try reflexivity;
    now destruct sx, sy.
Qed.

(** Degrees to radians, and the half of it. *)
Lemma radians_not_finite (x : number) :
  isFiniteNumber x = false ->
  isFiniteNumber (fdiv (fmul x Math_PI) (ofZ 180)) = false.
Proof.
  destruct x as [s|s| |s m e]; try discriminate; intros _;
    [now destruct s | reflexivity].
Qed.

Lemma half_not_finite (x : number) :
  isFiniteNumber x = false -> isFiniteNumber (fdiv x (ofZ 2)) = false.
Proof.
  destruct x as [s|s| |s m e]; try discriminate; intros _;
    [now destruct s | reflexivity].
Qed.

Lemma fmul_nan_l (x : number) : fmul nan x = nan.
Proof. reflexivity. Qed.

Lemma fmul_nan_r (x : number) : fmul x nan = nan.
Proof. now destruct x. Qed.

Lemma fadd_nan_l (x : number) : fadd nan x = nan.
Proof. reflexivity. Qed.

Lemma fadd_nan_r (x : number) : fadd x nan = nan.
Proof. now destruct x. Qed.

(* ================================================================== *)
(** ** [batch-geocode]: locality validation and the status of a row *)

Lemma startsWith_refl s : startsWith s s = true.
Proof.
  induction s as [|c s IH]; simpl; [reflexivity|].
  now rewrite N.eqb_refl, IH.
Qed.

Lemma includes_refl s : includes s s = true.
Proof. destruct s; simpl; [reflexivity|]. now rewrite N.eqb_refl, startsWith_refl. Qed.

Section GeocodeFacts.

Context {rt : Runtime}.

#[local] Arguments addressMatchesExpected : simpl never.

Lemma normalizeText_empty : normalizeText (@Some jsstring []) = [].
Proof. reflexivity. Qed.

Lemma orElse_empty_hint h : isEmptyHint h = true -> orElse h [] = [].
Proof. destruct h as [[|c s]|]; simpl; (discriminate || reflexivity). Qed.

(** What the neighbourhood check of the code computes. *)
Lemma bairroMatches_spec a e :
  bairroMatches a e = negb (nonEmpty (expBairro e)) || nonEmpty (gBairro a).
Proof.
  unfold bairroMatches. rewrite includes_refl, orb_true_r.
  destruct (nonEmpty (expBairro e)), (nonEmpty (gBairro a)); reflexivity.
Qed.

(** What the state check of the code computes. *)
Lemma stateMatches_spec a e :
  stateMatches a e = negb (nonEmpty (expState e)) || nonEmpty (gState a).
Proof.
  unfold stateMatches. rewrite includes_refl, orb_true_r.
  now rewrite andb_true_r.
Qed.

Lemma cityMatches_needs_expected a e :
  isEmptyHint (exp_cidade e) = true -> cityMatches a e = false.
Proof.
  intros H. unfold cityMatches, expCity.
  now rewrite (orElse_empty_hint _ H), normalizeText_empty.
Qed.

Lemma resolveRow_inputRow row0 replies :
  inputRow (resolveRow row0 replies) = spreadRow row0.
Proof.
  unfold resolveRow.
  destruct (structuredReply replies), (freeTextReply replies),
    (retryReply replies); simpl;
    repeat match goal with
           | |- context [addressMatchesExpected ?a ?e] =>
               destruct (addressMatchesExpected a e)
           end; reflexivity.
Qed.

Lemma resolveRow_statusInvariant row0 replies :
  statusInvariant replies (resolveRow row0 replies).
Proof.
  unfold statusInvariant. rewrite resolveRow_inputRow.
  unfold resolveRow, firstFound.
  destruct (structuredReply replies) as [| |r1],
    (freeTextReply replies) as [| |r2],
    (retryReply replies) as [| |r3]; simpl;
    repeat match goal with
           | |- context [addressMatchesExpected ?a ?e] =>
               destruct (addressMatchesExpected a e) eqn:?
           end; simpl; eauto 10.
Qed.

Lemma resolveFrom_nth replies addresses :
  forall i k p,
    nth_error (resolveFrom i replies addresses) k = Some p ->
    exists row0, nth_error addresses k = Some row0
                 /\ p = resolveRow row0 (replies (i + k)).
Proof.
  induction addresses as [|row0 rest IH]; intros i k p; simpl.
  - destruct k; discriminate.
  - destruct k as [|k]; simpl.
    + intros H; injection H as <-. exists row0. now rewrite Nat.add_0_r.
    + intros H. destruct (IH _ _ _ H) as (row1 & H1 & ->).
      exists row1. split; [exact H1|]. now rewrite Nat.add_succ_r.
Qed.

(** C3. Every [ProcessedAddress] the resolver produces satisfies the status
    invariant: with [valid] or [corrected] both coordinates are present;
    with [pending] or [mismatch] a coordinate is absent, or the coordinates
    are those of the result found first, which failed the validation. *)
Theorem batchGeocode_statusInvariant
    (replies : nat -> ProviderReplies) (addresses : list InputAddressRow)
    (i : nat) (p : ProcessedAddress) :
  nth_error (batchGeocode replies addresses) i = Some p ->
  statusInvariant (replies i) p.
Proof.
  intros H. destruct (resolveFrom_nth _ _ _ _ _ H) as (row0 & _ & ->).
  apply resolveRow_statusInvariant.
Qed.

(** C1, as the code has it. For every input row whose locality hints are all
    empty, the state and neighbourhood checks hold but the city check fails,
    so [addressMatchesExpected] rejects every result: the row's status is
    [mismatch] when the structured or the free-text search finds a result
    and [pending] when none does; it is never [valid]. *)
Theorem empty_hints_never_valid
    (row0 : InputAddressRow) (replies : ProviderReplies) :
  isEmptyHint (bairro row0) = true ->
  isEmptyHint (cidade row0) = true ->
  isEmptyHint (estado row0) = true ->
  (forall a, stateMatches a (expectedOf row0) = true
             /\ bairroMatches a (expectedOf row0) = true
             /\ cityMatches a (expectedOf row0) = false
             /\ addressMatchesExpected (Some a) (expectedOf row0) = false)
  /\ status (resolveRow row0 replies)
     = match firstFound replies with
       | Some _ => mismatch
       | None => pending
       end.
Proof.
  intros Hb Hc He.
  assert (Hall : forall a,
             stateMatches a (expectedOf row0) = true
             /\ bairroMatches a (expectedOf row0) = true
             /\ cityMatches a (expectedOf row0) = false
             /\ addressMatchesExpected (Some a) (expectedOf row0) = false).
  { intros a.
    assert (C : cityMatches a (expectedOf row0) = false)
      by now apply cityMatches_needs_expected.
    repeat split.
    - rewrite stateMatches_spec. unfold expState.
      cbn [expectedOf exp_estado]. now rewrite (orElse_empty_hint _ He).
    - rewrite bairroMatches_spec. unfold expBairro.
      cbn [expectedOf exp_bairro]. now rewrite (orElse_empty_hint _ Hb).
    - exact C.
    - unfold addressMatchesExpected. now rewrite C. }
  split; [exact Hall|].
  unfold resolveRow, firstFound.
  destruct (structuredReply replies) as [| |r1],
    (freeTextReply replies) as [| |r2],
    (retryReply replies) as [| |r3]; simpl;
    repeat match goal with
           | |- context [addressMatchesExpected (Some ?a) ?e] =>
               rewrite (proj2 (proj2 (proj2 (Hall a))))
           end; reflexivity.
Qed.

End GeocodeFacts.

(** *** Worked examples on the Latin-1 platform *)

Example resolveRow_statuses :
  status (resolveRow (rt := latin1Runtime) rowCentro repliesFound) = valid
  /\ status (resolveRow (rt := latin1Runtime) rowCentro repliesNothing) = pending
  /\ latitude (resolveRow (rt := latin1Runtime) rowCentro repliesFound)
     = Some (str "-22.9068")
  /\ note (resolveRow (rt := latin1Runtime) rowCentro repliesNothing)
     = str "erro-na-requisicao-structured".
Proof. vm_compute. repeat split. Qed.

(** C1, as stated, fails: a row without locality hints, for which the
    structured search finds a result, does not have that result accepted,
    and its status is [mismatch], not [valid]. *)
Lemma empty_hints_result_rejected :
  (isEmptyHint (bairro rowNoHints) = true
   /\ isEmptyHint (cidade rowNoHints) = true
   /\ isEmptyHint (estado rowNoHints) = true)
  /\ firstFound repliesFound = Some resultCentro
  /\ addressMatchesExpected (rt := latin1Runtime)
       (Some (addressOrEmpty resultCentro)) (expectedOf rowNoHints) = false
  /\ status (resolveRow (rt := latin1Runtime) rowNoHints repliesFound)
     = mismatch
  /\ status (resolveRow (rt := latin1Runtime) rowNoHints repliesFound)
     <> valid.
Proof. vm_compute. repeat split; discriminate. Qed.

Lemma empty_hints_never_valid_witness :
  (isEmptyHint (bairro rowNoHints) = true
   /\ isEmptyHint (cidade rowNoHints) = true
   /\ isEmptyHint (estado rowNoHints) = true)
  /\ status (resolveRow (rt := latin1Runtime) rowNoHints repliesFound)
     = mismatch.
Proof.
  split; [repeat split|].
  exact (proj2 (empty_hints_never_valid (rt := latin1Runtime)
                  rowNoHints repliesFound eq_refl eq_refl eq_refl)).
Defined.

Lemma batchGeocode_statusInvariant_witness :
  nth_error (batchGeocode (rt := latin1Runtime) exampleReplies exampleAddresses) 1
  = Some (resolveRow (rt := latin1Runtime) rowNoHints repliesFound)
  /\ statusInvariant (rt := latin1Runtime) (exampleReplies 1)
       (resolveRow (rt := latin1Runtime) rowNoHints repliesFound).
Proof.
  split; [reflexivity|].
  apply (batchGeocode_statusInvariant (rt := latin1Runtime)
           exampleReplies exampleAddresses 1).
  reflexivity.
Defined.

(** C8, the failing input: the row expects the neighbourhood "Centro" and
    the provider returns "Tijuca".  Neither normalised name contains the
    other, yet the neighbourhood check holds, because its second test
    compares the expected name with itself; so does the state check
    ("RJ" against "Rio de Janeiro"), and the result is accepted. *)
Lemma bairroMatches_unrelated_neighbourhood :
  gBairro (rt := latin1Runtime) gotTijuca = str "tijuca"
  /\ expBairro (rt := latin1Runtime) expectCentro = str "centro"
  /\ includes (str "tijuca") (str "centro") = false
  /\ includes (str "centro") (str "tijuca") = false
  /\ bairroMatches (rt := latin1Runtime) gotTijuca expectCentro = true
  /\ addressMatchesExpected (rt := latin1Runtime) (Some gotTijuca) expectCentro
     = true.
Proof. vm_compute. repeat split. Qed.

Example normalizeText_examples :
  normalizeText (rt := latin1Runtime) (Some (str "Av. Brasil, 100 - Centro"))
  = str "avenida brasil, 100 - centro"
  /\ normalizeText (rt := latin1Runtime)
       (Some (str "R. Gustavo Sampaio proximo ao mercado"))
     = str "rua gustavo sampaio ao mercado"
  /\ normalizeText (rt := latin1Runtime)
       (Some (str "Rod. BR-101 perto de Sao Joao"))
     = str "rodovia br-101 sao joao"
  /\ normalizeText (rt := latin1Runtime)
       (Some (str "S" ++ [227%N] ++ str "o Jo" ++ [195%N] ++ str "O"))
     = str "sao joao"
  /\ normalizeText (rt := latin1Runtime) None = [].
Proof. vm_compute. repeat split. Qed.

(* ================================================================== *)
(** ** [calculateDistance] *)




Section DistanceFacts.

Context {rt : Runtime}.





(** With a coordinate that is [NaN] or infinite the distance is [NaN]. *)
Lemma calculateDistance_not_finite (lat1 lon1 lat2 lon2 : number) :
  EcmaMath rt ->
  isFiniteNumber lat1 && isFiniteNumber lon1
  && isFiniteNumber lat2 && isFiniteNumber lon2 = false ->
  calculateDistance lat1 lon1 lat2 lon2 = nan.
Proof.
  intros Hecma Hnf.
  assert (Hsin : forall x, isFiniteNumber x = false ->
                           mathSin (fdiv (radians x) (ofZ 2)) = nan).
  { intros x Hx. apply radians_not_finite, half_not_finite in Hx.
    fold (radians x) in Hx.
    destruct (fdiv (radians x) (ofZ 2)) as [s|s| |s m e];
      try discriminate;
      [apply (sin_infinity rt Hecma) | apply (sin_nan rt Hecma)]. }
  assert (Ha : isFiniteNumber (fsub lat2 lat1) = false
               \/ isFiniteNumber (fsub lon2 lon1) = false).
  { destruct (isFiniteNumber lat1) eqn:E1;
      [|left; apply fsub_not_finite; now right].
    destruct (isFiniteNumber lat2) eqn:E2;
      [|left; apply fsub_not_finite; now left].
    right. apply fsub_not_finite.
    destruct (isFiniteNumber lon1), (isFiniteNumber lon2);
      try discriminate; auto. }
  unfold calculateDistance.
  fold (radians (fsub lat2 lat1)). fold (radians (fsub lon2 lon1)).
  assert (E : fadd
                (fmul (mathSin (fdiv (radians (fsub lat2 lat1)) (ofZ 2)))
                      (mathSin (fdiv (radians (fsub lat2 lat1)) (ofZ 2))))
                (fmul
                   (fmul
                      (fmul (mathCos (fdiv (fmul lat1 Math_PI) (ofZ 180)))
                            (mathCos (fdiv (fmul lat2 Math_PI) (ofZ 180))))
                      (mathSin (fdiv (radians (fsub lon2 lon1)) (ofZ 2))))
                   (mathSin (fdiv (radians (fsub lon2 lon1)) (ofZ 2))))
              = nan).
  { destruct Ha as [H | H]; rewrite (Hsin _ H).
    - now rewrite fmul_nan_l.
    - now rewrite !fmul_nan_r, fadd_nan_r. }
  rewrite E. change (fsqrt nan) with nan.
  rewrite (atan2_nan rt Hecma). reflexivity.
Qed.


End DistanceFacts.

(** *** The example platform keeps these laws *)

Lemma latin1_ecmaMath : EcmaMath latin1Runtime.
Proof.
  constructor; try reflexivity.
  intros x Hx. destruct x as [s|s| |s m e]; try discriminate;
    destruct s; try discriminate; reflexivity.
Qed.






(* ================================================================== *)
(** ** [correctAddressesBatchWithAI] *)

Lemma parseCorrected_length text :
  length (parseCorrected text) = length (filter nonBlank (splitLines text)).
Proof. unfold parseCorrected. apply length_map. Qed.

Lemma correctLoop_length addresses responses retries :
  forall remaining attempt,
    length (correctLoop addresses responses retries attempt remaining)
    = length addresses.
Proof.
  induction remaining as [|remaining IH]; intros attempt; simpl;
    [reflexivity|].
  destruct (responses attempt) as [| |content|]; try reflexivity.
  - apply IH.
  - destruct (option_map trim content) as [[|c t]|]; try reflexivity.
    destruct (length (parseCorrected (c :: t)) =? length addresses)%nat
      eqn:E; [|reflexivity].
    now apply Nat.eqb_eq.
  - destruct (attempt =? retries - 1)%nat; [reflexivity | apply IH].
Qed.

(** The attempts before [k] were retried (status 429, or an exception before
    the last attempt) and attempt [k] got a response whose non-blank lines
    are not as many as the addresses: the loop returns the addresses. *)
Lemma correctLoop_mismatch addresses responses retries k text :
  (k < retries)%nat ->
  responses k = AiContent (Some text) ->
  length (filter nonBlank (splitLines (trim text))) <> length addresses ->
  forall remaining attempt,
    (attempt <= k)%nat -> (attempt + remaining = retries)%nat ->
    (forall j, (attempt <= j < k)%nat ->
               responses j = AiRateLimited \/ responses j = AiThrew) ->
    correctLoop addresses responses retries attempt remaining = addresses.
Proof.
  intros Hk Hresp Hlen.
  induction remaining as [|remaining IH]; intros attempt Hle Hsum Hretry;
    simpl; [reflexivity|].
  destruct (Nat.eq_dec attempt k) as [->|Hne].
  - rewrite Hresp. simpl.
    destruct (trim text) as [|c t] eqn:E; [reflexivity|].
    rewrite parseCorrected_length.
    destruct (Nat.eqb_spec
                (length (filter nonBlank (splitLines (c :: t))))
                (length addresses)) as [Heq|_]; [contradiction | reflexivity].
  - assert (Hlt : (attempt <= attempt < k)%nat) by lia.
    assert (Hnext : correctLoop addresses responses retries (S attempt)
                      remaining = addresses).
    { apply IH; [lia | lia |]. intros j Hj. apply Hretry. lia. }
    destruct (Hretry attempt Hlt) as [-> | ->]; [exact Hnext|].
    destruct (Nat.eqb_spec attempt (retries - 1)); [reflexivity | exact Hnext].
Qed.

(** C2. The output of [correctAddressesBatchWithAI] always has the length of
    its input; and when the response that is parsed has a number of
    non-blank lines different from the number of input addresses, the
    output is the input, unchanged. *)
Theorem correctAddressesBatchWithAI_length_preserving
    (addresses : list jsstring) (responses : nat -> aiResponse)
    (retries : nat) :
  length (correctAddressesBatchWithAI addresses responses retries)
  = length addresses
  /\ forall k text,
       (k < retries)%nat ->
       (forall j, (j < k)%nat ->
                  responses j = AiRateLimited \/ responses j = AiThrew) ->
       responses k = AiContent (Some text) ->
       length (filter nonBlank (splitLines (trim text))) <> length addresses ->
       correctAddressesBatchWithAI addresses responses retries = addresses.
Proof.
  split; [apply correctLoop_length|].
  intros k text Hk Hretry Hresp Hlen.
  unfold correctAddressesBatchWithAI.
  apply (correctLoop_mismatch addresses responses retries k text Hk Hresp Hlen);
    [lia | lia |].
  intros j Hj. apply Hretry. lia.
Qed.

(* ================================================================== *)
(** ** The [correct-addresses] handler *)

Lemma mapi_from_nth {A B : Type} (f : nat -> A -> B) (l : list A) :
  forall i k,
    nth_error (mapi_from i f l) k = option_map (f (i + k)%nat) (nth_error l k).
Proof.
  induction l as [|x l IH]; intros i k; simpl.
  - now destruct k.
  - destruct k as [|k]; simpl.
    + now rewrite Nat.add_0_r.
    + rewrite IH. now rewrite Nat.add_succ_r.
Qed.

Lemma mapi_nth {A B : Type} (f : nat -> A -> B) (l : list A) (k : nat) :
  nth_error (mapi f l) k = option_map (f k) (nth_error l k).
Proof. unfold mapi. now rewrite mapi_from_nth. Qed.

Section FilterIndex.

Variables (A : Type) (p : A -> bool).

Lemma filter_all_id (l : list A) :
  (forall x, In x l -> p x = true) -> filter p l = l.
Proof.
  induction l as [|x l IH]; intros H; simpl; [reflexivity|].
  rewrite (H x (or_introl eq_refl)). f_equal. apply IH.
  intros y Hy. apply H. now right.
Qed.

(** An element of the filtered list comes from a position of the list
    before which exactly as many elements were kept as its own position. *)
Lemma filter_nth_origin (l : list A) :
  forall i a,
    nth_error (filter p l) i = Some a ->
    exists j, nth_error l j = Some a
              /\ length (filter p (firstn j l)) = i.
Proof.
  induction l as [|x l IH]; intros i a; simpl.
  - destruct i; discriminate.
  - destruct (p x) eqn:Hx.
    + destruct i as [|i]; simpl.
      * intros H. exists 0%nat. now split.
      * intros H. destruct (IH _ _ H) as (j & Hj & Hlen).
        exists (S j). simpl. rewrite Hx. simpl. now rewrite Hlen.
    + intros H. destruct (IH _ _ H) as (j & Hj & Hlen).
      exists (S j). simpl. now rewrite Hx.
Qed.

Lemma filter_full (l : list A) :
  length (filter p l) = length l ->
  forall k b, nth_error l k = Some b -> p b = true.
Proof.
  induction l as [|x l IH]; intros H k b; simpl in *.
  - destruct k; discriminate.
  - pose proof (filter_length_le p l) as Hle.
    destruct (p x) eqn:Hx; simpl in H; [|lia].
    destruct k as [|k]; simpl.
    + intros E; injection E as <-. exact Hx.
    + apply IH. lia.
Qed.

(** When an element before position [i] was dropped, the element at position
    [i] of the filtered list comes from a later position of the list. *)
Lemma filter_nth_shifted (l : list A) (i k : nat) (a b : A) :
  (k < i)%nat -> nth_error l k = Some b -> p b = false ->
  nth_error (filter p l) i = Some a ->
  exists j, (i < j)%nat /\ nth_error l j = Some a
            /\ length (filter p (firstn j l)) = i.
Proof.
  intros Hk Hb Hpb Ha.
  destruct (filter_nth_origin _ _ _ Ha) as (j & Hj & Hlen).
  exists j. split; [|now split].
  assert (Hjl : (j < length l)%nat)
    by (apply nth_error_Some; congruence).
  pose proof (filter_length_le p (firstn j l)) as Hle.
  rewrite length_firstn, Nat.min_l in Hle by lia.
  destruct (Nat.eq_dec i j) as [->|Hne]; [|lia].
  exfalso.
  assert (Hfull : length (filter p (firstn j l)) = length (firstn j l))
    by (rewrite length_firstn, Nat.min_l by lia; exact Hlen).
  assert (Hbk : nth_error (firstn j l) k = Some b)
    by (rewrite nth_error_firstn;
        destruct (Nat.ltb_spec k j); [exact Hb | lia]).
  rewrite (filter_full _ Hfull _ _ Hbk) in Hpb. discriminate.
Qed.

End FilterIndex.

Section HandlerFacts.

Context {rt : Runtime}.

Lemma batchCorrections_length (responses : nat -> aiResponse)
    (addresses : list jsstring) :
  length (match addresses with
          | [] => []
          | _ :: _ => correctAddressesBatchWithAI addresses responses 3
          end) = length addresses.
Proof.
  destruct addresses; [reflexivity|]. apply correctLoop_length.
Qed.

End HandlerFacts.

(** *** The loop over the batches returns one row per input row *)

Lemma mapi_from_length {A B : Type} (f : nat -> A -> B) (l : list A) :
  forall i, length (mapi_from i f l) = length l.
Proof.
  induction l as [|x l IH]; intros i; simpl; [reflexivity|].
  now rewrite IH.
Qed.

Section LoopFacts.

Context {rt : Runtime}.

Lemma processBatch_length responses fetch (batch : list object) :
  length (processBatch responses fetch batch) = length batch.
Proof.
  unfold processBatch, mapi. now rewrite mapi_from_length, length_map.
Qed.

Lemma correctFrom_length responses fetch :
  forall fuel batchIndex rows,
    (length rows <= fuel)%nat ->
    length (correctFrom fuel batchIndex responses fetch rows) = length rows.
Proof.
  induction fuel as [|fuel IH]; intros batchIndex rows Hfuel.
  - destruct rows; [reflexivity | simpl in Hfuel; lia].
  - destruct rows as [|r rows]; [reflexivity|].
    cbn [correctFrom]. rewrite length_app, processBatch_length, IH.
    + rewrite length_firstn, length_skipn. lia.
    + rewrite length_skipn. unfold AI_BATCH_SIZE. simpl in *. lia.
Qed.

(** The fuel given to the loop is enough: every row comes back. *)
Lemma correctAddresses_length responses fetch (rows : list object) :
  length (correctAddresses responses fetch rows) = length rows.
Proof. apply correctFrom_length. lia. Qed.

End LoopFacts.

(** *** Worked examples on the Latin-1 platform *)

Example parseCorrected_example :
  parseCorrected twoLineText = [str "Rua A, 10"; str "Avenida Brasil, 100"].
Proof. vm_compute. reflexivity. Qed.

Example correctAddressesBatchWithAI_applies :
  correctAddressesBatchWithAI twoAddresses replyTwoLines 3
  = [str "Rua A, 10"; str "Avenida Brasil, 100"].
Proof. vm_compute. reflexivity. Qed.

(** The example of the specification: two addresses, one line returned. *)
Lemma correctAddressesBatchWithAI_fallback_witness :
  length (filter nonBlank (splitLines (trim oneLineText)))
  <> length twoAddresses
  /\ correctAddressesBatchWithAI twoAddresses replyOneLine 3 = twoAddresses.
Proof.
  split; [vm_compute; discriminate|].
  apply (proj2 (correctAddressesBatchWithAI_length_preserving
                  twoAddresses replyOneLine 3) 1%nat oneLineText).
  - lia.
  - intros j Hj. left. destruct j; [reflexivity | lia].
  - reflexivity.
  - vm_compute; discriminate.
Defined.

(** C10, as stated, fails on its second part: in the batch of a row with a
    blank address followed by one address, the only correction goes to the
    blank row, and the row at position 1, which has a blank row before it,
    receives no correction at all: it is returned as it came. *)
Lemma blank_before_last_row_keeps_address :
  batchAddresses (map (mkAddressData (rt := latin1Runtime)) [rowBlank; rowB])
  = [str "rua b 20"]
  /\ correctAddressesBatchWithAI [str "rua b 20"] replyRowB 3
     = [str "Rua B, 20"]
  /\ nth_error (processBatch (rt := latin1Runtime) replyRowB noFetch
                  [rowBlank; rowB]) 0
     = Some [(str "Endereco", VStr (str "Rua B, 20"))]
  /\ nth_error (processBatch (rt := latin1Runtime) replyRowB noFetch
                  [rowBlank; rowB]) 1
     = Some rowB.
Proof. vm_compute. repeat split. Qed.

(* ================================================================== *)
(** ** [processFile]: the groups *)

Lemma eqb_eq (a b : jsstring) : JS.eqb a b = true <-> a = b.
Proof.
  revert b. induction a as [|x a IH]; intros [|y b]; simpl;
    try (split; (discriminate || reflexivity)).
  rewrite andb_true_iff, N.eqb_eq, IH.
  split; [intros [-> ->]; reflexivity | intros H; injection H; auto].
Qed.

Lemma eqb_refl (a : jsstring) : JS.eqb a a = true.
Proof. now apply eqb_eq. Qed.

Lemma eqb_neq (a b : jsstring) : JS.eqb a b = false <-> a <> b.
Proof.
  split.
  - intros H E. apply eqb_eq in E. congruence.
  - intros H. destruct (JS.eqb a b) eqn:E; [|reflexivity].
    apply eqb_eq in E. contradiction.
Qed.

Lemma lookupBucket_None grouped k :
  lookupBucket grouped k = None <-> ~ In k (map fst grouped).
Proof.
  induction grouped as [|[k' b] g IH]; simpl; [tauto|].
  destruct (JS.eqb k' k) eqn:E.
  - apply eqb_eq in E. split; [discriminate | intros H; exfalso; auto].
  - apply eqb_neq in E. rewrite IH. tauto.
Qed.

Lemma lookupBucket_Some grouped k b :
  lookupBucket grouped k = Some b -> In (k, b) grouped.
Proof.
  induction grouped as [|[k' b'] g IH]; simpl; [discriminate|].
  destruct (JS.eqb k' k) eqn:E.
  - apply eqb_eq in E. intros H; injection H as <-. left. now subst.
  - intros H. right. auto.
Qed.

Lemma pushTo_keys grouped k r : map fst (pushTo grouped k r) = map fst grouped.
Proof.
  induction grouped as [|[k' b] g IH]; simpl; [reflexivity|].
  destruct (JS.eqb k' k); simpl; [reflexivity | now rewrite IH].
Qed.

Lemma pushTo_In grouped k r k' b' :
  NoDup (map fst grouped) ->
  In (k', b') (pushTo grouped k r) ->
  (k' <> k /\ In (k', b') grouped)
  \/ (k' = k /\ exists b, b' = b ++ [r] /\ In (k, b) grouped).
Proof.
  induction grouped as [|[k0 b0] g IH]; simpl; [tauto|].
  intros Hnd. inversion Hnd as [|? ? Hnotin Hnd']; subst.
  destruct (JS.eqb k0 k) eqn:E.
  - apply eqb_eq in E. subst k0. intros [H | H].
    + injection H as <- <-. right. split; [reflexivity|]. eauto.
    + left. split; [|now right].
      intros ->. apply Hnotin. apply (in_map fst) in H. exact H.
  - apply eqb_neq in E. intros [H | H].
    + injection H as <- <-. left. split; [exact E | now left].
    + destruct (IH Hnd' H) as [[H1 H2] | (H1 & b & H2 & H3)].
      * left. split; [exact H1 | now right].
      * right. split; [exact H1|]. exists b. split; [exact H2 | now right].
Qed.

Lemma pushTo_perm grouped k r b :
  lookupBucket grouped k = Some b ->
  Permutation (concat (map snd (pushTo grouped k r)))
              (r :: concat (map snd grouped)).
Proof.
  induction grouped as [|[k' b'] g IH]; simpl; [discriminate|].
  destruct (JS.eqb k' k); simpl.
  - intros _. rewrite <- app_assoc. simpl.
    apply Permutation_sym, Permutation_middle.
  - intros H. specialize (IH H).
    rewrite IH. apply Permutation_sym, Permutation_middle.
Qed.

Lemma NoDup_snoc {A : Type} (l : list A) (a : A) :
  NoDup l -> ~ In a l -> NoDup (l ++ [a]).
Proof.
  induction l as [|x l IH]; simpl; intros Hnd Hin.
  - constructor; [tauto | constructor].
  - inversion Hnd as [|? ? Hx Hl]; subst. constructor.
    + intros H. apply in_app_or in H as [H | [H | []]]; [tauto|].
      subst. tauto.
    + apply IH; tauto.
Qed.

Section GroupingFacts.

Context {rt : Runtime}.

Variable addressColumn : jsstring.

Lemma rowsWithKey_snoc k done r :
  rowsWithKey addressColumn k (done ++ [r])
  = rowsWithKey addressColumn k done
    ++ (if JS.eqb (rowKey addressColumn r) k then [r] else []).
Proof. unfold rowsWithKey. rewrite filter_app. reflexivity. Qed.

Lemma rowsWithKey_absent k done :
  (forall r, In r done -> rowKey addressColumn r <> k) ->
  rowsWithKey addressColumn k done = [].
Proof.
  unfold rowsWithKey. induction done as [|r done IH]; intros H; simpl;
    [reflexivity|].
  rewrite (proj2 (eqb_neq _ _) (H r (or_introl eq_refl))).
  apply IH. intros r' Hr'. apply H. now right.
Qed.

Lemma groupedInv_nil : groupedInv addressColumn [] [].
Proof.
  constructor; simpl; try tauto; [constructor | constructor].
Qed.

(** One row more: the invariant is kept. *)
Lemma groupStep_inv grouped done r grouped' :
  groupedInv addressColumn grouped done ->
  groupStep addressColumn grouped r = Done grouped' ->
  groupedInv addressColumn grouped' (done ++ [r]).
Proof.
  intros [Hnd Hown Hcov Hbuck Hperm]. unfold groupStep.
  set (k := rowKey addressColumn r).
  destruct (lookupBucket grouped k) as [b|] eqn:Hl.
  - intros H; injection H as <-.
    pose proof (lookupBucket_Some _ _ _ Hl) as Hin.
    constructor.
    + now rewrite pushTo_keys.
    + rewrite pushTo_keys. exact Hown.
    + rewrite pushTo_keys. intros r' Hr'.
      apply in_app_or in Hr' as [Hr' | [<- | []]]; [now apply Hcov|].
      fold k. apply (in_map fst) in Hin. exact Hin.
    + intros k' b' Hb'. rewrite rowsWithKey_snoc. fold k.
      destruct (pushTo_In _ _ _ _ _ Hnd Hb')
        as [[Hne Hold] | (-> & b0 & -> & Hold)].
      * destruct (Hbuck _ _ Hold) as [Hne' ->].
        rewrite (proj2 (eqb_neq k k')) by congruence.
        now rewrite app_nil_r.
      * destruct (Hbuck _ _ Hold) as [Hne' <-].
        rewrite eqb_refl. split; [|reflexivity].
        destruct b0; discriminate.
    + rewrite (pushTo_perm _ _ r _ Hl), Hperm.
      apply Permutation_cons_append.
  - destruct (inherited k) eqn:Hinh; [discriminate|].
    intros H; injection H as <-.
    apply lookupBucket_None in Hl.
    constructor.
    + rewrite map_app. simpl. now apply NoDup_snoc.
    + rewrite map_app. simpl. intros k' Hk'.
      apply in_app_or in Hk' as [Hk' | [<- | []]]; auto.
    + rewrite map_app. simpl. intros r' Hr'. apply in_or_app.
      apply in_app_or in Hr' as [Hr' | [<- | []]]; [left; auto|].
      right. now left.
    + intros k' b' Hb'. rewrite rowsWithKey_snoc. fold k.
      apply in_app_or in Hb' as [Hold | [Hnew | []]].
      * destruct (Hbuck _ _ Hold) as [Hne' ->].
        assert (k <> k')
          by (intros ->; apply Hl; apply (in_map fst) in Hold; exact Hold).
        rewrite (proj2 (eqb_neq k k')) by assumption.
        now rewrite app_nil_r.
      * injection Hnew as <- <-. rewrite eqb_refl.
        rewrite rowsWithKey_absent; [split; [discriminate | reflexivity]|].
        intros r' Hr' E. apply Hl. rewrite <- E. now apply Hcov.
    + rewrite map_app, concat_app. simpl.
      now apply Permutation_app_tail.
Qed.

Lemma groupFrom_inv rows :
  forall grouped done grouped',
    groupedInv addressColumn grouped done ->
    groupFrom addressColumn grouped rows = Done grouped' ->
    groupedInv addressColumn grouped' (done ++ rows).
Proof.
  induction rows as [|r rows IH]; intros grouped done grouped' Hinv; simpl.
  - intros H; injection H as <-. now rewrite app_nil_r.
  - destruct (groupStep addressColumn grouped r) as [g1|e] eqn:Hs;
      [|discriminate].
    intros H. replace (done ++ r :: rows) with ((done ++ [r]) ++ rows)
      by (now rewrite <- app_assoc).
    apply (IH g1); [|exact H]. now apply groupStep_inv with (grouped := grouped).
Qed.

Lemma groupRows_inv rows grouped :
  groupRows addressColumn rows = Done grouped ->
  groupedInv addressColumn grouped rows.
Proof.
  intros H. apply (groupFrom_inv rows [] [] grouped groupedInv_nil H).
Qed.

End GroupingFacts.

(** *** [Object.entries] lists every bucket once *)

Lemma insertByIndex_perm {B : Type} (i : N) (e : jsstring * B) l :
  Permutation (insertByIndex i e l) ((i, e) :: l).
Proof.
  induction l as [|[j e'] l IH]; simpl; [reflexivity|].
  destruct (i <=? j)%N; [reflexivity|].
  rewrite IH. apply perm_swap.
Qed.

Lemma indexEntries_perm {B : Type} (o : list (jsstring * B)) :
  Permutation (map snd (indexEntries o))
              (filter (fun e => negb (isNamed e)) o).
Proof.
  induction o as [|e o IH]; simpl; [reflexivity|].
  unfold isNamed at 1. destruct (arrayIndex (fst e)) as [i|]; simpl.
  - rewrite insertByIndex_perm. simpl. now constructor.
  - exact IH.
Qed.

Lemma filter_split_perm {A : Type} (p : A -> bool) (l : list A) :
  Permutation (filter (fun x => negb (p x)) l ++ filter p l) l.
Proof.
  induction l as [|x l IH]; simpl; [reflexivity|].
  destruct (p x); simpl.
  - rewrite <- Permutation_middle. now constructor.
  - now constructor.
Qed.

Lemma entries_perm {B : Type} (o : list (jsstring * B)) :
  Permutation (entries o) o.
Proof.
  unfold entries. rewrite indexEntries_perm. apply filter_split_perm.
Qed.

Lemma concat_nonempty_length {A : Type} (ls : list (list A)) :
  (forall l, In l ls -> l <> []) -> (length ls <= length (concat ls))%nat.
Proof.
  induction ls as [|l ls IH]; intros H; simpl; [lia|].
  rewrite length_app.
  assert (l <> []) by (apply H; now left).
  assert (length ls <= length (concat ls))%nat
    by (apply IH; intros l' Hl'; apply H; now right).
  destruct l; [congruence | simpl; lia].
Qed.

Lemma getProp_setProp (o : object) (k : jsstring) (v : value) :
  getProp (setProp o k v) k = v.
Proof.
  induction o as [|[k' v'] o IH]; simpl.
  - now rewrite eqb_refl.
  - destruct (JS.eqb k' k) eqn:E; simpl; [now rewrite eqb_refl|].
    now rewrite E.
Qed.

Lemma keepSequence_nonBlank (s : jsstring) : keepSequence s = nonBlank s.
Proof.
  unfold keepSequence, nonBlank. destruct s as [|c s]; reflexivity.
Qed.

Section GroupingTheorems.

Context {rt : Runtime}.

(** When grouping completes, the merged rows are at most as many as the
    input rows, and the buckets partition the input: the keys are pairwise
    distinct, the bucket of a key holds exactly the rows with that key, in
    their order, and the buckets together hold every row once. *)
Lemma groupRows_partition (addressColumn : jsstring)
    (sequenceColumn : option jsstring) (rows : list object)
    (grouped : groups) :
  groupRows addressColumn rows = Done grouped ->
  (length (mergeGroups sequenceColumn grouped) <= length rows)%nat
  /\ NoDup (map fst grouped)
  /\ (forall k b, In (k, b) grouped ->
                  b <> [] /\ b = rowsWithKey addressColumn k rows)
  /\ (forall r, In r rows -> In (rowKey addressColumn r) (map fst grouped))
  /\ Permutation (concat (map snd grouped)) rows
  /\ Permutation (entries grouped) grouped.
Proof.
  intros H. destruct (groupRows_inv _ _ _ H) as [Hnd _ Hcov Hbuck Hperm].
  repeat split; try assumption; try (now apply Hbuck with (k := k)).
  - unfold mergeGroups. rewrite length_map.
    rewrite (Permutation_length (entries_perm grouped)).
    rewrite <- (Permutation_length Hperm), <- (length_map snd grouped).
    apply concat_nonempty_length. intros b Hb.
    apply in_map_iff in Hb as ([k b'] & <- & Hin). simpl.
    now apply Hbuck with (k := k).
  - apply entries_perm.
Qed.

(** Grouping completes when no row's key is a name inherited from
    [Object.prototype]. *)
Lemma groupFrom_total (addressColumn : jsstring) (rows : list object) :
  (forall r, In r rows -> inherited (rowKey addressColumn r) = false) ->
  forall grouped, exists grouped',
    groupFrom addressColumn grouped rows = Done grouped'.
Proof.
  induction rows as [|r rows IH]; intros H grouped; simpl; [eauto|].
  unfold groupStep.
  destruct (lookupBucket grouped (rowKey addressColumn r)).
  - apply IH. intros r' Hr'. apply H. now right.
  - rewrite (H r (or_introl eq_refl)).
    apply IH. intros r' Hr'. apply H. now right.
Qed.

(** Grouping throws at the first row whose key is such a name. *)
Lemma groupFrom_throws (addressColumn : jsstring) (rows : list object) :
  forall grouped,
    (forall k, In k (map fst grouped) -> inherited k = false) ->
    (exists r, In r rows /\ inherited (rowKey addressColumn r) = true) ->
    groupFrom addressColumn grouped rows = Thrown NotAFunction.
Proof.
  induction rows as [|r rows IH]; intros grouped Hown (r0 & Hin & Hk);
    [destruct Hin|].
  simpl. unfold groupStep.
  destruct (lookupBucket grouped (rowKey addressColumn r)) as [b|] eqn:Hl.
  - apply IH.
    + rewrite pushTo_keys. exact Hown.
    + destruct Hin as [<- | Hin]; [|eauto].
      apply lookupBucket_Some, (in_map fst) in Hl. simpl in Hl.
      rewrite (Hown _ Hl) in Hk. discriminate.
  - destruct (inherited (rowKey addressColumn r)) eqn:Hi; [reflexivity|].
    apply IH.
    + rewrite map_app. simpl. intros k Hk'.
      apply in_app_or in Hk' as [Hk' | [<- | []]]; auto.
    + destruct Hin as [<- | Hin]; [congruence | eauto].
Qed.

(** The sequence value of a merged row: the values of the column in the
    rows of the bucket, in bucket order, each rendered by [String(v || '')]
    and kept as it is when it is not blank, joined by "; ". *)
Lemma mergeGroup_sequence (sequenceColumn : jsstring) (rows : list object) :
  getProp (mergeGroup (Some sequenceColumn) rows) sequenceColumn
  = VStr (join (str "; ")
            (filter nonBlank (map (sequenceText sequenceColumn) rows))).
Proof.
  unfold mergeGroup. rewrite getProp_setProp. unfold joinSequences.
  now rewrite (filter_ext _ _ keepSequence_nonBlank).
Qed.

(** C6, as the code has it. For every group of rows with a known sequence
    column, the merged row's sequence value is the "; "-joined list of the
    non-blank sequence values of all rows of the group in bucket order,
    each value kept as stored (not trimmed); in particular a group of three
    rows with sequence values "S1", "" and "S3" yields "S1; S3". *)
Theorem merged_sequence_joins_nonblank
    (sequenceColumn : jsstring) (grouped : groups) :
  Forall2
    (fun bucket merged =>
       getProp merged sequenceColumn
       = VStr (join (str "; ")
                 (filter nonBlank
                    (map (sequenceText sequenceColumn) (snd bucket)))))
    (entries grouped) (mergeGroups (Some sequenceColumn) grouped)
  /\ forall r1 r2 r3,
       getProp r1 sequenceColumn = VStr (str "S1") ->
       getProp r2 sequenceColumn = VStr [] ->
       getProp r3 sequenceColumn = VStr (str "S3") ->
       getProp (mergeGroup (Some sequenceColumn) [r1; r2; r3]) sequenceColumn
       = VStr (str "S1; S3").
Proof.
  split.
  - unfold mergeGroups. induction (entries grouped) as [|e l IH]; simpl;
      constructor; [apply mergeGroup_sequence | exact IH].
  - intros r1 r2 r3 H1 H2 H3. rewrite mergeGroup_sequence.
    unfold sequenceText. simpl. rewrite H1, H2, H3. reflexivity.
Qed.

End GroupingTheorems.

(** *** Worked examples on the Latin-1 platform *)

Example processFile_example :
  processFile (rt := latin1Runtime) exampleSheet
  = Done [sheetRow (str "Rua A, 10, Apto 2") (str "S1; S3");
          sheetRow (str "Rua A, 100") (str "S4")].
Proof. vm_compute. reflexivity. Qed.

Example processFile_array_index_first :
  processFile (rt := latin1Runtime) numberedSheet
  = Done [sheetRow (str "42") (str "S2"); sheetRow (str "Rua B, 5") (str "S1")].
Proof. vm_compute. reflexivity. Qed.

Example groupRows_example_partition :
  exists grouped,
    groupRows (rt := latin1Runtime) (str "Endereco") exampleSheet = Done grouped
    /\ Permutation (concat (map snd grouped)) exampleSheet
    /\ (length (mergeGroups (rt := latin1Runtime) (Some (str "Sequence")) grouped)
        <= length exampleSheet)%nat.
Proof.
  destruct (groupFrom_total (rt := latin1Runtime) (str "Endereco") exampleSheet)
    with (grouped := @nil (jsstring * list object)) as [grouped H].
  - intros r Hr. repeat (destruct Hr as [<- | Hr]; [reflexivity|]).
    destruct Hr.
  - exists grouped. split; [exact H|].
    destruct (groupRows_partition (rt := latin1Runtime) (str "Endereco")
                (Some (str "Sequence")) exampleSheet grouped H)
      as (H1 & _ & _ & _ & H5 & _).
    now split.
Qed.

(** C4, the failing input: a sheet with an address cell that reads
    "constructor".  Its key is found on [Object.prototype], no bucket is
    created for it, and [push] on what was found throws: no row is grouped
    and no merged row is produced. *)
Lemma processFile_constructor_address_throws :
  rowKey (rt := latin1Runtime) (str "Endereco")
    (sheetRow (str "constructor") (str "S2")) = str "constructor"
  /\ groupRows (rt := latin1Runtime) (str "Endereco") constructorSheet
     = Thrown NotAFunction
  /\ processFile (rt := latin1Runtime) constructorSheet = Thrown NotAFunction.
Proof. vm_compute. repeat split. Qed.

(** C6, as stated, fails: a sequence value with a space before it is joined
    as it is stored, not trimmed. *)
Lemma merged_sequence_not_trimmed :
  getProp (mergeGroup (rt := latin1Runtime) (Some (str "Sequence")) paddedBucket)
    (str "Sequence")
  = VStr (str " S1; S2")
  /\ joinTrimmedSequences (rt := latin1Runtime) (str "Sequence") paddedBucket
     = str "S1; S2"
  /\ getProp (mergeGroup (rt := latin1Runtime) (Some (str "Sequence")) paddedBucket)
       (str "Sequence")
     <> VStr (joinTrimmedSequences (rt := latin1Runtime) (str "Sequence")
                paddedBucket).
Proof. vm_compute. repeat split. discriminate. Qed.

Lemma merged_sequence_joins_nonblank_witness :
  getProp (mergeGroup (rt := latin1Runtime) (Some (str "Sequence"))
             [sheetRow (str "Rua A, 10, Apto 2") (str "S1");
              sheetRow (str "Rua A, 10, Casa") [];
              sheetRow (str "Rua A, 10") (str "S3")])
    (str "Sequence")
  = VStr (str "S1; S3").
Proof.
  exact (proj2 (merged_sequence_joins_nonblank (rt := latin1Runtime)
                  (str "Sequence") [])
           (sheetRow (str "Rua A, 10, Apto 2") (str "S1"))
           (sheetRow (str "Rua A, 10, Casa") [])
           (sheetRow (str "Rua A, 10") (str "S3"))
           eq_refl eq_refl eq_refl).
Defined.

(* ================================================================== *)
(** ** More on [normalizeAddress] *)

Lemma trimEnd_app l s :
  trimEnd (l ++ s) = match trimEnd s with [] => trimEnd l | t => l ++ t end.
Proof.
  induction l as [|a l IH]; simpl.
  - now destruct (trimEnd s).
  - rewrite IH. destruct (trimEnd s) as [|x t]; [reflexivity|].
    destruct l; reflexivity.
Qed.

Lemma trimEnd_head c s :
  trimEnd (c :: s) = [] \/ exists u, trimEnd (c :: s) = c :: u.
Proof.
  simpl. destruct (trimEnd s) as [|x t]; [|eauto].
  destruct (isSpace c); eauto.
Qed.

Lemma collapseSpaces_app_after b l d t :
  isSpace d = false ->
  collapseSpaces b (l ++ d :: t)
  = collapseSpaces b (l ++ [d]) ++ collapseSpaces false t.
Proof.
  intros Hd. revert b. induction l as [|a l IH]; intros b; simpl.
  - now rewrite Hd.
  - destruct (isSpace a); [destruct b|]; now rewrite IH.
Qed.

Lemma takeWhile_app_tail (p : N -> bool) a t :
  Forall (fun x => p x = true) a ->
  match t with [] => True | c :: _ => p c = false end ->
  takeWhile p (a ++ t) = a.
Proof.
  intros Ha Ht. destruct t as [|c t].
  - rewrite app_nil_r. now apply takeWhile_all.
  - now apply takeWhile_app_stop.
Qed.

Lemma sepsThenDigits_exact_tail seps ds t :
  seps <> [] -> ds <> [] ->
  Forall (fun c => isSep c = true) seps ->
  Forall (fun c => isDigit c = true) ds ->
  startsWithDigit t = false ->
  sepsThenDigits ((seps ++ ds) ++ t) = Some (seps ++ ds).
Proof.
  intros Hs Hd Fs Fd Ht.
  destruct seps as [|c seps]; [congruence|].
  destruct ds as [|d ds]; [congruence|].
  assert (Hdsep : isSep d = false)
    by (apply isDigit_not_sep; now inversion Fd).
  unfold sepsThenDigits.
  replace (((c :: seps) ++ d :: ds) ++ t)
    with ((c :: seps) ++ d :: (ds ++ t)) by (now rewrite <- app_assoc).
  rewrite (takeWhile_app_stop isSep (c :: seps) d _ Fs Hdsep).
  rewrite (dropWhile_app_stop isSep (c :: seps) d _ Fs Hdsep).
  change (d :: ds ++ t) with ((d :: ds) ++ t).
  rewrite (takeWhile_app_tail isDigit (d :: ds) t Fd); [reflexivity|].
  destruct t; [exact I | exact Ht].
Qed.

Lemma dropWhile_snoc_stop (p : N -> bool) l d :
  p d = false -> dropWhile p (l ++ [d]) <> [].
Proof.
  intros Hd. induction l as [|a l IH]; simpl.
  - rewrite Hd. discriminate.
  - destruct (p a); [exact IH | discriminate].
Qed.

(** Where the pattern does not match a text that ends with a digit, it does
    not match the text followed by more either. *)
Lemma sepsThenDigits_none_extend l d t :
  isDigit d = true ->
  sepsThenDigits (l ++ [d]) = None ->
  sepsThenDigits ((l ++ [d]) ++ t) = None.
Proof.
  intros Hd Hnone. unfold sepsThenDigits in *.
  pose proof (takeWhile_dropWhile isSep (l ++ [d])) as E.
  pose proof (takeWhile_Forall isSep (l ++ [d])) as F.
  pose proof (dropWhile_snoc_stop isSep l d (isDigit_not_sep _ Hd)) as Hne.
  remember (takeWhile isSep (l ++ [d])) as tw eqn:Etw.
  destruct (dropWhile isSep (l ++ [d])) as [|x rest] eqn:Edrop; [congruence|].
  pose proof (dropWhile_head _ _ _ _ Edrop) as Hx.
  rewrite <- E, <- app_assoc, <- app_comm_cons.
  rewrite (takeWhile_app_stop isSep tw x (rest ++ t) F Hx).
  rewrite (dropWhile_app_stop isSep tw x (rest ++ t) F Hx).
  destruct tw as [|c seps]; [reflexivity|].
  simpl in Hnone |- *. destruct (isDigit x); [discriminate | reflexivity].
Qed.

Lemma lazyPrefix_extend m t :
  lazyPrefix m = Some m -> startsWithDigit t = false ->
  lazyPrefix (m ++ t) = Some m.
Proof.
  intros Hm Ht. induction m as [|c m IH].
  - rewrite lazyPrefix_unfold in Hm. discriminate.
  - pose proof (lazyPrefix_ends_with_digit _ _ Hm) as (l & d & El & Hd).
    rewrite lazyPrefix_unfold in Hm. rewrite lazyPrefix_unfold.
    destruct (sepsThenDigits (c :: m)) as [x|] eqn:E.
    + injection Hm as ->.
      destruct (sepsThenDigits_shape _ _ E)
        as (seps & ds & _ & Ex & _ & Hs & Hds & Fs & Fd).
      rewrite Ex. now rewrite (sepsThenDigits_exact_tail seps ds t).
    + rewrite El in E |- *.
      rewrite (sepsThenDigits_none_extend l d t Hd E).
      rewrite <- El. simpl.
      destruct (isLineTerminator c); [discriminate|].
      destruct (lazyPrefix m) as [m'|] eqn:Em; [|discriminate].
      injection Hm as ->. now rewrite (IH eq_refl).
Qed.

(** What holds of every key: it is tidy, it is a prefix of the cleaned
    address, and when the cleaned address holds a street and a number the
    key is that text, which the pattern matches whole. *)
Lemma normalizeAddress_facts a :
  startsClean (normalizeAddress a) = true
  /\ endsClean (normalizeAddress a)
  /\ singleSpaced false (normalizeAddress a) = true
  /\ (exists r, replaceSpaceRuns (trim a) = normalizeAddress a ++ r)
  /\ (matchStreetNumber (replaceSpaceRuns (trim a)) = None ->
      normalizeAddress a = replaceSpaceRuns (trim a)
      /\ matchStreetNumber (normalizeAddress a) = None)
  /\ (matchStreetNumber (replaceSpaceRuns (trim a)) <> None ->
      matchStreetNumber (normalizeAddress a) = Some (normalizeAddress a)
      /\ exists l d, normalizeAddress a = l ++ [d] /\ isDigit d = true).
Proof.
  destruct (cleaned_tidy a) as (H1 & H2 & H3).
  unfold normalizeAddress.
  set (cleaned := replaceSpaceRuns (trim a)) in *.
  destruct (matchStreetNumber cleaned) as [m|] eqn:E.
  - destruct (matchStreetNumber_shape _ _ E)
      as (c & m' & r & l & d & Hr & Hm & Hl & Hd).
    assert (S1 : startsClean m = true).
    { rewrite Hr, Hm in H1. rewrite Hm. exact H1. }
    assert (S2 : endsClean m).
    { right. exists l, d. split; [exact Hl | now apply isDigit_not_space]. }
    assert (S3 : singleSpaced false m = true).
    { rewrite Hr in H3. exact (singleSpaced_prefix _ _ _ H3). }
    rewrite (trim_fixed _ S1 S2).
    repeat split; try assumption; try discriminate; eauto.
    exact (matchStreetNumber_idem _ _ E).
  - repeat split; try assumption; try congruence.
    exists []. now rewrite app_nil_r.
Qed.

(** X1. A key is tidy: trimming it, or replacing its runs of white space by
    single spaces, changes nothing. *)
Theorem normalizeAddress_tidy (a : jsstring) :
  trim (normalizeAddress a) = normalizeAddress a
  /\ replaceSpaceRuns (normalizeAddress a) = normalizeAddress a.
Proof.
  destruct (normalizeAddress_facts a) as (H1 & H2 & H3 & _).
  split; [now apply trim_fixed | now apply singleSpaced_fixed].
Qed.

(** X2. The key is a prefix of the cleaned address (the address trimmed,
    with single spaces).  When the pattern of a street and a number does
    not match the cleaned address, the key is the whole of it; when it
    matches, the key is the text matched, which ends with a digit, and what
    follows it in the cleaned address is left out. *)
Theorem normalizeAddress_prefix (a : jsstring) :
  exists r,
    replaceSpaceRuns (trim a) = normalizeAddress a ++ r
    /\ ((matchStreetNumber (replaceSpaceRuns (trim a)) = None /\ r = [])
        \/ (matchStreetNumber (replaceSpaceRuns (trim a))
            = Some (normalizeAddress a)
            /\ exists l d, normalizeAddress a = l ++ [d] /\ isDigit d = true)).
Proof.
  destruct (normalizeAddress_facts a) as (_ & _ & _ & [r Hr] & Hnone & Hsome).
  exists r. split; [exact Hr|].
  destruct (matchStreetNumber (replaceSpaceRuns (trim a))) as [m|] eqn:E.
  - right. split; [|apply Hsome; discriminate].
    f_equal. unfold normalizeAddress. rewrite E.
    destruct (cleaned_tidy a) as (H1 & H2 & H3).
    destruct (matchStreetNumber_shape _ _ E)
      as (c & m' & r' & l & d & Hr' & Hm & Hl & Hd).
    symmetry. apply trim_fixed.
    + rewrite Hr', Hm in H1. rewrite Hm. exact H1.
    + right. exists l, d. split; [exact Hl | now apply isDigit_not_space].
  - left. split; [reflexivity|].
    destruct (Hnone eq_refl) as [Hk _]. rewrite Hk in Hr.
    apply (f_equal (@length N)) in Hr. rewrite length_app in Hr.
    destruct r; [reflexivity | simpl in Hr; lia].
Qed.

(** X3. Complements are ignored: when the key of an address holds a street
    and a number, any text that does not start with a digit can be put
    after the key without changing it. *)
Theorem normalizeAddress_ignores_complement (a s : jsstring) :
  matchStreetNumber (normalizeAddress a) <> None ->
  startsWithDigit s = false ->
  normalizeAddress (normalizeAddress a ++ s) = normalizeAddress a.
Proof.
  intros Hnum Hs.
  destruct (normalizeAddress_facts a) as (S1 & S2 & S3 & _ & Hnone & Hsome).
  assert (Hmatch : matchStreetNumber (replaceSpaceRuns (trim a)) <> None).
  { intros E. destruct (Hnone E) as [_ E']. contradiction. }
  destruct (Hsome Hmatch) as (Hidem & l & d & Hl & Hd).
  set (m := normalizeAddress a) in *.
  assert (Hdsp : isSpace d = false) by now apply isDigit_not_space.
  (* the cleaned text of [m ++ s] is [m] followed by a text that does not
     start with a digit *)
  assert (Hclean : exists t, replaceSpaceRuns (trim (m ++ s)) = m ++ t
                             /\ startsWithDigit t = false).
  { exists (collapseSpaces false (trimEnd s)). split.
    - unfold trim, replaceSpaceRuns.
      rewrite trimStart_fixed
        by (rewrite Hl in S1 |- *; destruct l; simpl in *; exact S1).
      rewrite trimEnd_app.
      destruct (trimEnd s) as [|x u] eqn:Eu.
      + rewrite (trimEnd_fixed _ S2), app_nil_r.
        now apply singleSpaced_fixed.
      + rewrite Hl, <- app_assoc. simpl app at 2.
        rewrite (collapseSpaces_app_after _ _ _ _ Hdsp).
        rewrite <- Hl. now rewrite (singleSpaced_fixed _ _ S3).
    - destruct s as [|c s0]; [reflexivity|].
      destruct (trimEnd_head c s0) as [-> | [u ->]]; [reflexivity|].
      simpl in Hs |- *. destruct (isSpace c); [reflexivity | exact Hs]. }
  destruct Hclean as (t & Ht & Htd).
  unfold normalizeAddress at 1. rewrite Ht.
  assert (Hm : matchStreetNumber (m ++ t) = Some m).
  { destruct m as [|c m'] eqn:Em; [discriminate|].
    simpl in Hidem |- *.
    destruct (isLineTerminator c); [discriminate|].
    destruct (lazyPrefix m') as [m''|] eqn:E'; [|discriminate].
    injection Hidem as ->. now rewrite (lazyPrefix_extend _ _ E' Htd). }
  rewrite Hm. now apply trim_fixed.
Qed.

Lemma normalizeAddress_ignores_complement_witness :
  (matchStreetNumber (normalizeAddress (str "Rua A,  10")) <> None
   /\ startsWithDigit (str ", Apto 2") = false)
  /\ normalizeAddress (normalizeAddress (str "Rua A,  10") ++ str ", Apto 2")
     = normalizeAddress (str "Rua A,  10").
Proof.
  split; [split; [vm_compute; discriminate | reflexivity]|].
  apply (normalizeAddress_ignores_complement (str "Rua A,  10") (str ", Apto 2")).
  - vm_compute; discriminate.
  - reflexivity.
Defined.

(* ================================================================== *)
(** ** More on the grouping of [processFile] *)

Lemma getProp_setProp_other (o : object) (k k' : jsstring) (v : value) :
  k <> k' -> getProp (setProp o k v) k' = getProp o k'.
Proof.
  intros Hne. induction o as [|[k0 v0] o IH]; simpl.
  - now rewrite (proj2 (eqb_neq k k') Hne).
  - destruct (JS.eqb k0 k) eqn:E; simpl.
    + apply eqb_eq in E. subst k0.
      now rewrite (proj2 (eqb_neq k k') Hne).
    + destruct (JS.eqb k0 k'); [reflexivity | exact IH].
Qed.

Lemma keys_setProp_present (o : object) (k : jsstring) (v : value) :
  In k (keys o) -> keys (setProp o k v) = keys o.
Proof.
  unfold keys. induction o as [|[k0 v0] o IH]; simpl; [tauto|].
  intros H. destruct (JS.eqb k0 k) eqn:E; simpl.
  - apply eqb_eq in E. now subst.
  - apply eqb_neq in E. f_equal. apply IH. destruct H; [contradiction | assumption].
Qed.

Lemma keys_setProp_absent (o : object) (k : jsstring) (v : value) :
  ~ In k (keys o) -> keys (setProp o k v) = keys o ++ [k].
Proof.
  unfold keys. induction o as [|[k0 v0] o IH]; simpl; [reflexivity|].
  intros H. destruct (JS.eqb k0 k) eqn:E; simpl.
  - apply eqb_eq in E. subst. tauto.
  - f_equal. apply IH. tauto.
Qed.

Lemma existsb_eqb_In (k : jsstring) (l : list jsstring) :
  existsb (JS.eqb k) l = true <-> In k l.
Proof.
  rewrite existsb_exists. split.
  - intros (x & Hx & E). apply eqb_eq in E. now subst.
  - intros H. exists k. split; [exact H | apply eqb_refl].
Qed.

(** *** The order of [Object.entries] *)

Lemma insertByIndex_sorted {B : Type} (i : N) (e : jsstring * B) l :
  StronglySorted indexOrder l ->
  StronglySorted indexOrder (insertByIndex i e l).
Proof.
  induction 1 as [|[j e'] l Hs IH Hall]; simpl.
  - constructor; constructor.
  - destruct (N.leb_spec i j) as [Hle | Hgt].
    + constructor; [now constructor|].
      constructor; [exact Hle|].
      eapply Forall_impl; [|exact Hall].
      intros x Hx. unfold indexOrder in *. simpl in *. lia.
    + constructor; [exact IH|].
      apply (Permutation_Forall (Permutation_sym (insertByIndex_perm i e l))).
      constructor; [unfold indexOrder; simpl; lia | exact Hall].
Qed.

Lemma indexEntries_sorted {B : Type} (o : list (jsstring * B)) :
  StronglySorted indexOrder (indexEntries o).
Proof.
  induction o as [|e o IH]; simpl; [constructor|].
  destruct (arrayIndex (fst e)); [now apply insertByIndex_sorted | exact IH].
Qed.

Lemma indexEntries_index {B : Type} (o : list (jsstring * B)) :
  Forall (fun ie => arrayIndex (fst (snd ie)) = Some (fst ie))
         (indexEntries o).
Proof.
  induction o as [|e o IH]; simpl; [constructor|].
  destruct (arrayIndex (fst e)) as [i|] eqn:E; [|exact IH].
  apply (Permutation_Forall (Permutation_sym (insertByIndex_perm i e _))).
  now constructor.
Qed.

Lemma index_keys_sorted {B : Type} (o : list (jsstring * B)) :
  StronglySorted (fun k1 k2 => (indexValue k1 <= indexValue k2)%N)
    (map fst (map snd (indexEntries o))).
Proof.
  pose proof (indexEntries_sorted o) as Hs.
  pose proof (indexEntries_index o) as Hi.
  induction Hs as [|a l Hs IH Hall]; simpl; [constructor|].
  inversion Hi as [|a' l' Ha Hl]; subst.
  constructor; [now apply IH|].
  rewrite map_map. apply Forall_map.
  rewrite Forall_forall in Hall, Hl |- *.
  intros x Hx. unfold indexValue.
  rewrite Ha, (Hl x Hx). exact (Hall x Hx).
Qed.

Lemma named_keys {B : Type} (o : list (jsstring * B)) :
  map fst (filter isNamed o)
  = filter (fun k => negb (isIndexKey k)) (map fst o).
Proof.
  induction o as [|e o IH]; simpl; [reflexivity|].
  unfold isNamed at 1, isIndexKey at 1.
  destruct (arrayIndex (fst e)); simpl; now rewrite IH.
Qed.

Lemma index_keys_perm {B : Type} (o : list (jsstring * B)) :
  Permutation (map fst (map snd (indexEntries o)))
              (filter isIndexKey (map fst o)).
Proof.
  rewrite (Permutation_map fst (indexEntries_perm o)).
  induction o as [|e o IH]; simpl; [reflexivity|].
  unfold isNamed at 1, isIndexKey at 1.
  destruct (arrayIndex (fst e)); simpl; [now constructor | exact IH].
Qed.

Section GroupingExtra.

Context {rt : Runtime}.

Variable addressColumn : jsstring.

Lemma groupFrom_keys rows :
  forall grouped grouped',
    groupFrom addressColumn grouped rows = Done grouped' ->
    map fst grouped'
    = map fst grouped
      ++ dedupeFrom (map fst grouped) (map (rowKey addressColumn) rows).
Proof.
  induction rows as [|r rows IH]; intros grouped grouped'; simpl.
  - intros H; injection H as <-. now rewrite app_nil_r.
  - unfold groupStep.
    destruct (lookupBucket grouped (rowKey addressColumn r)) as [b|] eqn:Hl.
    + intros H. rewrite (IH _ _ H), pushTo_keys.
      apply lookupBucket_Some, (in_map fst) in Hl. simpl in Hl.
      now rewrite (proj2 (existsb_eqb_In _ _) Hl).
    + destruct (inherited (rowKey addressColumn r)); [discriminate|].
      intros H. rewrite (IH _ _ H), map_app. simpl.
      apply lookupBucket_None in Hl.
      destruct (existsb (JS.eqb (rowKey addressColumn r)) (map fst grouped))
        eqn:E; [apply existsb_eqb_In in E; contradiction|].
      now rewrite <- app_assoc.
Qed.

Lemma groupFrom_thrown rows :
  forall grouped e,
    groupFrom addressColumn grouped rows = Thrown e -> e = NotAFunction.
Proof.
  induction rows as [|r rows IH]; intros grouped e; simpl; [discriminate|].
  unfold groupStep.
  destruct (lookupBucket grouped (rowKey addressColumn r)); [apply IH|].
  destruct (inherited (rowKey addressColumn r)); [|apply IH].
  intros H; now injection H.
Qed.

(** X4. When grouping completes, the buckets partition the rows: the keys
    are pairwise distinct, the bucket of a key is not empty and holds
    exactly the rows with that key, in the order of the sheet, the buckets
    together hold every row once, two rows of the sheet share a bucket
    exactly when their keys are equal, and there are at most as many merged
    rows as rows. *)
Theorem groupRows_buckets_partition
    (sequenceColumn : option jsstring) (rows : list object)
    (grouped : groups) :
  groupRows addressColumn rows = Done grouped ->
  NoDup (map fst grouped)
  /\ (forall k b, In (k, b) grouped ->
                  b <> [] /\ b = rowsWithKey addressColumn k rows)
  /\ Permutation (concat (map snd grouped)) rows
  /\ (forall r1 r2, In r1 rows -> In r2 rows ->
        ((exists k b, In (k, b) grouped /\ In r1 b /\ In r2 b)
         <-> rowKey addressColumn r1 = rowKey addressColumn r2))
  /\ (length (mergeGroups sequenceColumn grouped) = length grouped
      /\ length grouped <= length rows)%nat.
Proof.
  intros H.
  destruct (groupRows_inv _ _ _ H) as [Hnd _ Hcov Hbuck Hperm].
  assert (Hlen : (length (mergeGroups sequenceColumn grouped) = length grouped)%nat).
  { unfold mergeGroups. rewrite length_map.
    apply (Permutation_length (entries_perm grouped)). }
  split; [exact Hnd|]. split; [exact Hbuck|]. split; [exact Hperm|].
  split.
  - intros r1 r2 H1 H2. split.
    + intros (k & b & Hin & Hb1 & Hb2).
      destruct (Hbuck _ _ Hin) as [_ ->]. unfold rowsWithKey in *.
      apply filter_In in Hb1 as [_ E1]. apply filter_In in Hb2 as [_ E2].
      apply eqb_eq in E1, E2. congruence.
    + intros E. pose proof (Hcov _ H1) as Hk.
      apply in_map_iff in Hk as ([k b] & Ek & Hin). simpl in Ek. subst k.
      exists (rowKey addressColumn r1), b. split; [exact Hin|].
      destruct (Hbuck _ _ Hin) as [_ ->]. unfold rowsWithKey.
      split; apply filter_In; split; try assumption.
      * apply eqb_refl.
      * rewrite E. apply eqb_refl.
  - split; [exact Hlen|].
    rewrite <- (Permutation_length Hperm), <- (length_map snd grouped).
    apply concat_nonempty_length. intros b Hb.
    apply in_map_iff in Hb as ([k b'] & <- & Hin). simpl.
    now apply Hbuck with (k := k).
Qed.

(** X5. Grouping fails exactly when the key of some row is a property name
    inherited from [Object.prototype]; it then throws the [TypeError] of
    [push], and it never fails otherwise. *)
Theorem groupRows_throws_iff_inherited_key (rows : list object) :
  (groupRows addressColumn rows = Thrown NotAFunction
   <-> exists r, In r rows /\ inherited (rowKey addressColumn r) = true)
  /\ ((exists grouped, groupRows addressColumn rows = Done grouped)
      <-> forall r, In r rows -> inherited (rowKey addressColumn r) = false)
  /\ (forall e, groupRows addressColumn rows = Thrown e -> e = NotAFunction).
Proof.
  assert (Hdec : (exists r, In r rows
                            /\ inherited (rowKey addressColumn r) = true)
                 \/ (forall r, In r rows ->
                               inherited (rowKey addressColumn r) = false)).
  { clear. induction rows as [|r rows IH]; [right; intros r []|].
    destruct (inherited (rowKey addressColumn r)) eqn:E.
    - left. exists r. split; [now left | exact E].
    - destruct IH as [(r' & Hin & Hr') | Hall].
      + left. exists r'. split; [now right | exact Hr'].
      + right. intros r' [<- | Hin]; auto. }
  assert (Hthrow : (exists r, In r rows
                              /\ inherited (rowKey addressColumn r) = true) ->
                   groupRows addressColumn rows = Thrown NotAFunction).
  { intros Hex. apply groupFrom_throws; [intros k []|exact Hex]. }
  assert (Hdone : (forall r, In r rows ->
                             inherited (rowKey addressColumn r) = false) ->
                  exists grouped, groupRows addressColumn rows = Done grouped).
  { intros Hall. now apply groupFrom_total. }
  repeat split.
  - intros Ht. destruct Hdec as [Hex | Hall]; [exact Hex|].
    destruct (Hdone Hall) as [g Hg]. congruence.
  - exact Hthrow.
  - intros [g Hg]. destruct Hdec as [Hex | Hall]; [|exact Hall].
    rewrite (Hthrow Hex) in Hg. discriminate.
  - exact Hdone.
  - intros e. apply groupFrom_thrown.
Qed.

(** X6. The order of the merged rows, which is that of the keys of
    [Object.entries]: first the keys that are array indices, in ascending
    order of the index, then the other keys in the order of their first
    appearance in the sheet; each key of a row once. *)
Theorem groupRows_keys_first_appearance (rows : list object)
    (grouped : groups) :
  groupRows addressColumn rows = Done grouped ->
  exists indexKeys,
    map fst (entries grouped)
    = indexKeys
      ++ filter (fun k => negb (isIndexKey k))
           (firstAppearances (map (rowKey addressColumn) rows))
    /\ Permutation indexKeys
         (filter isIndexKey
            (firstAppearances (map (rowKey addressColumn) rows)))
    /\ StronglySorted (fun k1 k2 => (indexValue k1 <= indexValue k2)%N)
         indexKeys.
Proof.
  intros H. apply groupFrom_keys in H. simpl in H.
  fold (firstAppearances (map (rowKey addressColumn) rows)) in H.
  rewrite <- H.
  exists (map fst (map snd (indexEntries grouped))).
  split; [|split].
  - unfold entries. rewrite map_app. f_equal. apply named_keys.
  - apply index_keys_perm.
  - apply index_keys_sorted.
Qed.

End GroupingExtra.

Section MergeExtra.

Context {rt : Runtime}.

(** X7. A merged row is the first row of its bucket with the sequence
    column rewritten: without a sequence column it is that row; with one,
    every other field has the first row's value, and the columns are those
    of the first row, the sequence column being added last when the first
    row does not have it. *)
Theorem mergeGroup_keeps_first_row
    (sequenceColumn : jsstring) (first : object) (rest : list object) :
  mergeGroup None (first :: rest) = first
  /\ (forall k, k <> sequenceColumn ->
        getProp (mergeGroup (Some sequenceColumn) (first :: rest)) k
        = getProp first k)
  /\ keys (mergeGroup (Some sequenceColumn) (first :: rest))
     = if existsb (JS.eqb sequenceColumn) (keys first) then keys first
       else keys first ++ [sequenceColumn].
Proof.
  split; [reflexivity|]. split.
  - intros k Hk. unfold mergeGroup.
    apply getProp_setProp_other. congruence.
  - unfold mergeGroup.
    destruct (existsb (JS.eqb sequenceColumn) (keys first)) eqn:E.
    + apply keys_setProp_present. now apply existsb_eqb_In.
    + apply keys_setProp_absent. intros Hin.
      apply existsb_eqb_In in Hin. congruence.
Qed.

Lemma groupRows_never_other_error addressColumn rows e :
  groupRows addressColumn rows = Thrown e -> e = NotAFunction.
Proof. apply groupFrom_thrown. Qed.

(** X8. [processFile] rejects the empty sheet, and only it, as empty; it
    looks for the address column in the first row only, and rejects the
    sheet for want of it exactly when the first row has no such column;
    and when it completes on a sheet, it returns at least one merged row
    and at most one per row. *)
Theorem processFile_outcomes (jsonData : list object) :
  (processFile jsonData = Thrown EmptySheet <-> jsonData = [])
  /\ (processFile jsonData = Thrown NoAddressColumn
      <-> exists first rest,
            jsonData = first :: rest /\ findAddressColumn first = None)
  /\ (forall results,
        processFile jsonData = Done results ->
        (1 <= length results <= length jsonData)%nat).
Proof.
  destruct jsonData as [|first rest].
  - simpl. repeat split; try discriminate; try reflexivity.
    intros (f & r & E & _). discriminate.
  - unfold processFile.
    destruct (findAddressColumn first) as [addressColumn|] eqn:Ea.
    + destruct (groupRows addressColumn (first :: rest)) as [grouped|e] eqn:Eg.
      * repeat split; try discriminate.
        -- intros (f & r & E & Hn). injection E as <- <-. congruence.
        -- injection H as <-.
           destruct (groupRows_inv _ _ _ Eg) as [_ _ Hcov _ _].
           unfold mergeGroups. rewrite length_map.
           rewrite (Permutation_length (entries_perm grouped)).
           specialize (Hcov first (or_introl eq_refl)).
           rewrite <- (length_map fst grouped).
           destruct (map fst grouped); [destruct Hcov | simpl; lia].
        -- injection H as <-.
           destruct (groupRows_inv _ _ _ Eg) as [_ _ _ Hbuck Hperm].
           unfold mergeGroups. rewrite length_map.
           rewrite (Permutation_length (entries_perm grouped)).
           rewrite <- (Permutation_length Hperm), <- (length_map snd grouped).
           apply concat_nonempty_length. intros b Hb.
           apply in_map_iff in Hb as ([k b'] & <- & Hin). simpl.
           now apply Hbuck with (k := k).
      * pose proof (groupRows_never_other_error _ _ _ Eg) as ->.
        repeat split; try discriminate.
        intros (f & r & E & Hn). injection E as <- <-. congruence.
    + repeat split; try discriminate; eauto.
Qed.

End MergeExtra.

Lemma groupRows_buckets_partition_witness :
  groupRows (rt := latin1Runtime) (str "Endereco") exampleSheet
  = Done exampleGroups
  /\ Permutation (concat (map snd exampleGroups)) exampleSheet
  /\ (length exampleGroups <= length exampleSheet)%nat.
Proof.
  assert (H : groupRows (rt := latin1Runtime) (str "Endereco") exampleSheet
              = Done exampleGroups) by (vm_compute; reflexivity).
  split; [exact H|].
  destruct (groupRows_buckets_partition (rt := latin1Runtime)
              (str "Endereco") (Some (str "Sequence"))
              exampleSheet exampleGroups H)
    as (_ & _ & H3 & _ & _ & H5).
  split; [exact H3 | exact H5].
Defined.

Lemma groupRows_keys_first_appearance_witness :
  groupRows (rt := latin1Runtime) (str "Endereco") numberedSheet
  = Done numberedGroups
  /\ exists indexKeys,
       map fst (entries numberedGroups)
       = indexKeys
         ++ filter (fun k => negb (isIndexKey k))
              (firstAppearances
                 (map (rowKey (rt := latin1Runtime) (str "Endereco"))
                      numberedSheet))
       /\ Permutation indexKeys
            (filter isIndexKey
               (firstAppearances
                  (map (rowKey (rt := latin1Runtime) (str "Endereco"))
                       numberedSheet)))
       /\ StronglySorted (fun k1 k2 => (indexValue k1 <= indexValue k2)%N)
            indexKeys.
Proof.
  assert (H : groupRows (rt := latin1Runtime) (str "Endereco") numberedSheet
              = Done numberedGroups) by (vm_compute; reflexivity).
  split; [exact H|].
  exact (groupRows_keys_first_appearance (rt := latin1Runtime)
           (str "Endereco") numberedSheet numberedGroups H).
Defined.

(** The address "42" is an array index: its row comes first, although the
    sheet has it second. *)
Example numbered_address_comes_first :
  map fst (entries numberedGroups) = [str "42"; str "Rua B, 5"]
  /\ firstAppearances
       (map (rowKey (rt := latin1Runtime) (str "Endereco")) numberedSheet)
     = [str "Rua B, 5"; str "42"].
Proof. vm_compute. split; reflexivity. Qed.

(* ================================================================== *)
(** ** More on the corrector: the request, the parse, the fallbacks *)

Lemma splitLinesAux_no_feed cur line :
  forallb notLineFeed line = true ->
  splitLinesAux cur line = [rev cur ++ line].
Proof.
  revert cur. induction line as [|c line IH]; intros cur H; simpl.
  - now rewrite app_nil_r.
  - simpl in H. apply andb_true_iff in H as [Hc H]. unfold notLineFeed in Hc.
    destruct (c =? 10)%N; [discriminate|].
    rewrite (IH _ H). simpl. now rewrite <- app_assoc.
Qed.

Lemma splitLinesAux_line cur line rest :
  forallb notLineFeed line = true ->
  splitLinesAux cur (line ++ 10%N :: rest)
  = (rev cur ++ line) :: splitLinesAux [] rest.
Proof.
  revert cur. induction line as [|c line IH]; intros cur H; simpl.
  - now rewrite app_nil_r.
  - simpl in H. apply andb_true_iff in H as [Hc H]. unfold notLineFeed in Hc.
    destruct (c =? 10)%N; [discriminate|].
    rewrite (IH _ H). simpl. now rewrite <- app_assoc.
Qed.

(** Splitting at line feeds undoes joining with line feeds. *)
Lemma splitLines_join (lines : list jsstring) :
  lines <> [] ->
  Forall (fun line => forallb notLineFeed line = true) lines ->
  splitLines (join [10%N] lines) = lines.
Proof.
  intros Hne Hall. unfold splitLines. revert Hne.
  induction Hall as [|line lines Hline Hall IH]; intros Hne;
    [now contradiction Hne|].
  destruct lines as [|line' lines].
  - simpl. now rewrite (splitLinesAux_no_feed [] line Hline).
  - change (join [10%N] (line :: line' :: lines))
      with (line ++ 10%N :: join [10%N] (line' :: lines)).
    rewrite (splitLinesAux_line [] line _ Hline). simpl rev. simpl app at 1.
    f_equal. apply IH. discriminate.
Qed.

Lemma string_of_uint_digits (d : Decimal.uint) :
  Forall (fun c => isDigit c = true) (str (NilEmpty.string_of_uint d)).
Proof.
  induction d; simpl; constructor; (reflexivity || assumption).
Qed.

Lemma renderNat_digits (n : nat) :
  renderNat n <> [] /\ Forall (fun c => isDigit c = true) (renderNat n).
Proof.
  unfold renderNat, NilZero.string_of_uint.
  destruct (Nat.to_uint n) eqn:E;
    try (split; [discriminate | apply (string_of_uint_digits (_ u))]).
  split; [discriminate|]. repeat constructor.
Qed.

Lemma isDigit_notLineFeed c : isDigit c = true -> notLineFeed c = true.
Proof.
  intros H. apply isDigit_cases in H.
  repeat (destruct H as [-> | H]; [reflexivity|]). now subst.
Qed.

Lemma trimEnd_nonspace_head c s :
  isSpace c = false -> trimEnd (c :: s) <> [].
Proof.
  intros Hc. simpl. destruct (trimEnd s); [|discriminate].
  rewrite Hc. discriminate.
Qed.

(** A line of the request: a number, a full stop, a space, the address. *)
Lemma numbered_line_facts (idx : nat) (addr : jsstring) :
  trim addr = addr ->
  forallb notLineFeed addr = true ->
  forallb notLineFeed (numberedLine idx addr) = true
  /\ nonBlank (numberedLine idx addr) = true
  /\ trim (stripNumbering (numberedLine idx addr)) = addr
  /\ numberedLine idx addr <> []
  /\ startsClean (numberedLine idx addr) = true.
Proof.
  intros Htrim Hfeed. unfold numberedLine.
  destruct (renderNat_digits (idx + 1)) as [Hne Hdig].
  destruct (renderNat (idx + 1)) as [|d ds] eqn:En; [now contradiction Hne|].
  assert (Hd : isDigit d = true) by now inversion Hdig.
  assert (Hstart : startsClean addr = true)
    by (rewrite <- Htrim; apply trim_startsClean).
  split; [|split; [|split; [|split]]].
  - rewrite forallb_app. apply andb_true_iff. split.
    + apply forallb_forall. intros x Hx.
      apply isDigit_notLineFeed.
      rewrite Forall_forall in Hdig. now apply Hdig.
    + simpl. exact Hfeed.
  - unfold nonBlank, trim, trimStart. simpl.
    rewrite (isDigit_not_space _ Hd).
    match goal with
    | |- nonEmpty (trimEnd (d :: ?rest)) = true =>
        pose proof (trimEnd_nonspace_head d rest (isDigit_not_space _ Hd)) as H;
        destruct (trimEnd (d :: rest)); [now contradiction H | reflexivity]
    end.
  - unfold stripNumbering.
    assert (Hstop : isDigit 46%N = false) by reflexivity.
    change (str ". " ++ addr) with (46%N :: 32%N :: addr).
    rewrite (takeWhile_app_stop isDigit (d :: ds) 46%N (32%N :: addr) Hdig Hstop).
    rewrite (dropWhile_app_stop isDigit (d :: ds) 46%N (32%N :: addr) Hdig Hstop).
    simpl. fold (trimStart addr). rewrite (trimStart_fixed _ Hstart).
    exact Htrim.
  - discriminate.
  - simpl. now rewrite (isDigit_not_space _ Hd).
Qed.

Lemma numbered_lines_facts (addresses : list jsstring) :
  Forall (fun a => trim a = a /\ forallb notLineFeed a = true) addresses ->
  forall i,
    Forall (fun line => forallb notLineFeed line = true)
           (mapi_from i numberedLine addresses)
    /\ filter nonBlank (mapi_from i numberedLine addresses)
       = mapi_from i numberedLine addresses
    /\ map (fun line => trim (stripNumbering line))
           (mapi_from i numberedLine addresses) = addresses.
Proof.
  induction 1 as [|a addresses [Ht Hf] Hall IH]; intros i;
    cbn [mapi_from map filter].
  - repeat split. constructor.
  - destruct (numbered_line_facts i a Ht Hf) as (H1 & H2 & H3 & _).
    destruct (IH (S i)) as (I1 & I2 & I3).
    rewrite H2. repeat split.
    + constructor; assumption.
    + now rewrite I2.
    + now rewrite H3, I3.
Qed.

Lemma join_lines_edges (line : jsstring) (lines : list jsstring) :
  line <> [] -> startsClean line = true ->
  startsClean (join [10%N] (line :: lines)) = true.
Proof.
  intros Hne H. destruct lines as [|l' ls]; simpl; [exact H|].
  destruct line; [now contradiction Hne | exact H].
Qed.

Lemma endsClean_app_r (p s : jsstring) :
  s <> [] -> endsClean s -> endsClean (p ++ s).
Proof.
  intros Hne [-> | (l & c & -> & Hc)]; [now contradiction Hne|].
  right. exists (p ++ l), c. split; [now rewrite app_assoc | exact Hc].
Qed.

Lemma join_endsClean (lines : list jsstring) :
  lines <> [] ->
  (forall d, last lines d <> [] /\ endsClean (last lines d)) ->
  endsClean (join [10%N] lines).
Proof.
  induction lines as [|line lines IH]; intros Hne Hlast;
    [now contradiction Hne|].
  destruct lines as [|l' ls].
  - simpl in *. apply (Hlast []).
  - change (join [10%N] (line :: l' :: ls))
      with (line ++ 10%N :: join [10%N] (l' :: ls)).
    assert (Hrec : endsClean (join [10%N] (l' :: ls)))
      by (apply IH; [discriminate | exact Hlast]).
    assert (Hne' : join [10%N] (l' :: ls) <> []).
    { destruct ls as [|l'' ls']; simpl.
      - apply (Hlast []).
      - destruct l'; discriminate. }
    apply endsClean_app_r with (p := line ++ [10%N]) in Hrec; [|exact Hne'].
    now rewrite <- app_assoc in Hrec.
Qed.

Lemma numbered_lines_last (addresses : list jsstring) :
  Forall (fun a => a <> [] /\ trim a = a) addresses ->
  addresses <> [] ->
  forall i d,
    last (mapi_from i numberedLine addresses) d <> []
    /\ endsClean (last (mapi_from i numberedLine addresses) d).
Proof.
  induction 1 as [|a rest [Ha Ht] Hall IH]; intros Hne i d;
    [now contradiction Hne|].
  destruct rest as [|b rest'].
  - cbn [mapi_from last]. unfold numberedLine. split.
    + intros E. apply (f_equal (@length N)) in E.
      rewrite !length_app in E. simpl in E. lia.
    + rewrite app_assoc. apply endsClean_app_r; [exact Ha|].
      rewrite <- Ht. apply trim_endsClean.
  - cbn [mapi_from]. 
    change (last (numberedLine i a :: numberedLine (S i) b
                    :: mapi_from (S (S i)) numberedLine rest') d)
      with (last (mapi_from (S i) numberedLine (b :: rest')) d).
    apply IH. discriminate.
Qed.

(** X9. The request and the parse agree: when the response repeats the
    numbered list of the request, for addresses that are not empty, are
    trimmed and hold no line feed (as those of a batch are, but for the
    line feed), what is parsed from it is the list of addresses. *)
Theorem parseCorrected_addressList (addresses : list jsstring) :
  addresses <> [] ->
  Forall (fun a => a <> [] /\ trim a = a /\ forallb notLineFeed a = true)
         addresses ->
  parseCorrected (trim (addressList addresses)) = addresses.
Proof.
  intros Hne Hall.
  assert (Hall1 : Forall (fun a => trim a = a /\ forallb notLineFeed a = true)
                         addresses)
    by (eapply Forall_impl; [|exact Hall]; simpl; tauto).
  assert (Hall2 : Forall (fun a => a <> [] /\ trim a = a) addresses)
    by (eapply Forall_impl; [|exact Hall]; simpl; tauto).
  destruct (numbered_lines_facts addresses Hall1 0) as (L1 & L2 & L3).
  unfold addressList, mapi.
  set (lines := mapi_from 0 numberedLine addresses) in *.
  assert (Hlines : lines <> []).
  { unfold lines. destruct addresses; [now contradiction Hne | discriminate]. }
  assert (Htrim : trim (join [10%N] lines) = join [10%N] lines).
  { apply trim_fixed.
    - destruct addresses as [|a rest]; [now contradiction Hne|].
      unfold lines. cbn [mapi_from].
      inversion Hall1 as [|? ? [Ht Hf] _]; subst.
      destruct (numbered_line_facts 0 a Ht Hf) as (_ & _ & _ & H4 & H5).
      now apply join_lines_edges.
    - apply join_endsClean; [exact Hlines|]. intros d.
      now apply numbered_lines_last. }
  rewrite Htrim. unfold parseCorrected.
  rewrite (splitLines_join lines Hlines L1), L2. exact L3.
Qed.

Lemma parseCorrected_addressList_witness :
  (twoAddresses <> []
   /\ Forall (fun a => a <> [] /\ trim a = a /\ forallb notLineFeed a = true)
             twoAddresses)
  /\ parseCorrected (trim (addressList twoAddresses)) = twoAddresses.
Proof.
  assert (H1 : twoAddresses <> []) by discriminate.
  assert (H2 : Forall (fun a => a <> [] /\ trim a = a
                                /\ forallb notLineFeed a = true)
                      twoAddresses)
    by (repeat constructor; discriminate).
  split; [split; assumption|].
  exact (parseCorrected_addressList twoAddresses H1 H2).
Defined.

Lemma trim_idem (s : jsstring) : trim (trim s) = trim s.
Proof. apply trim_fixed; [apply trim_startsClean | apply trim_endsClean]. Qed.

(** X10. Every correction parsed from a response is trimmed, and there is
    one for each line of the response that is not blank. *)
Theorem parseCorrected_trimmed (correctedText : jsstring) :
  Forall (fun corrected => trim corrected = corrected)
         (parseCorrected correctedText)
  /\ length (parseCorrected correctedText)
     = length (filter nonBlank (splitLines correctedText)).
Proof.
  split; [|apply parseCorrected_length].
  unfold parseCorrected. apply Forall_map, Forall_forall.
  intros line _. apply trim_idem.
Qed.

Lemma correctLoop_result addresses responses retries :
  forall remaining attempt,
    (attempt + remaining = retries)%nat ->
    correctLoop addresses responses retries attempt remaining = addresses
    \/ exists k text,
         (attempt <= k < retries)%nat
         /\ responses k = AiContent (Some text)
         /\ correctLoop addresses responses retries attempt remaining
            = parseCorrected (trim text)
         /\ length (parseCorrected (trim text)) = length addresses.
Proof.
  induction remaining as [|remaining IH]; intros attempt Hsum; simpl;
    [now left|].
  assert (Hnext : correctLoop addresses responses retries (S attempt) remaining
                  = addresses
                  \/ exists k text,
                       (attempt <= k < retries)%nat
                       /\ responses k = AiContent (Some text)
                       /\ correctLoop addresses responses retries (S attempt)
                            remaining = parseCorrected (trim text)
                       /\ length (parseCorrected (trim text))
                          = length addresses).
  { destruct (IH (S attempt)) as [H | (k & text & Hk & H)]; [lia | now left|].
    right. exists k, text. split; [lia | exact H]. }
  destruct (responses attempt) as [| |content|] eqn:E; auto.
  - destruct content as [text|]; simpl; [|now left].
    destruct (trim text) as [|c t] eqn:Et; [now left|].
    destruct (Nat.eqb_spec (length (parseCorrected (c :: t)))
                (length addresses)) as [Hlen|_]; [|now left].
    right. exists attempt, text. rewrite Et.
    repeat split; try assumption; lia.
  - destruct (attempt =? retries - 1)%nat; [now left | exact Hnext].
Qed.

Lemma correctLoop_ext addresses responses responses' retries :
  forall remaining attempt,
    (forall k, (attempt <= k < attempt + remaining)%nat ->
               responses' k = responses k) ->
    correctLoop addresses responses' retries attempt remaining
    = correctLoop addresses responses retries attempt remaining.
Proof.
  induction remaining as [|remaining IH]; intros attempt H; simpl;
    [reflexivity|].
  rewrite (H attempt) by lia.
  assert (Hnext : correctLoop addresses responses' retries (S attempt) remaining
                  = correctLoop addresses responses retries (S attempt)
                      remaining)
    by (apply IH; intros k Hk; apply H; lia).
  destruct (responses attempt); try reflexivity; [exact Hnext|].
  destruct (attempt =? retries - 1)%nat; [reflexivity | exact Hnext].
Qed.

(** X11. What [correctAddressesBatchWithAI] returns is its input, or the
    corrections parsed from the response to one of its attempts, which are
    then as many as the addresses; and it makes no attempt beyond
    [retries]: the responses to later attempts do not matter. *)
Theorem correctAddressesBatchWithAI_result
    (addresses : list jsstring) (responses : nat -> aiResponse)
    (retries : nat) :
  (correctAddressesBatchWithAI addresses responses retries = addresses
   \/ exists k text,
        (k < retries)%nat
        /\ responses k = AiContent (Some text)
        /\ correctAddressesBatchWithAI addresses responses retries
           = parseCorrected (trim text)
        /\ length (parseCorrected (trim text)) = length addresses)
  /\ forall responses' : nat -> aiResponse,
       (forall k, (k < retries)%nat -> responses' k = responses k) ->
       correctAddressesBatchWithAI addresses responses' retries
       = correctAddressesBatchWithAI addresses responses retries.
Proof.
  split.
  - unfold correctAddressesBatchWithAI.
    destruct (correctLoop_result addresses responses retries retries 0)
      as [H | (k & text & Hk & H)]; [lia | now left|].
    right. exists k, text. split; [lia | exact H].
  - intros responses' H. apply correctLoop_ext. intros k Hk. apply H. lia.
Qed.

Lemma correctLoop_failures addresses responses retries :
  forall remaining attempt,
    (forall k, (attempt <= k < attempt + remaining)%nat ->
               responses k = AiRateLimited \/ responses k = AiHttpError
               \/ responses k = AiThrew \/ responses k = AiContent None) ->
    correctLoop addresses responses retries attempt remaining = addresses.
Proof.
  induction remaining as [|remaining IH]; intros attempt H; simpl;
    [reflexivity|].
  assert (Hnext : correctLoop addresses responses retries (S attempt) remaining
                  = addresses)
    by (apply IH; intros k Hk; apply H; lia).
  destruct (H attempt) as [-> | [-> | [-> | ->]]]; try lia; try reflexivity;
    [exact Hnext|].
  destruct (attempt =? retries - 1)%nat; [reflexivity | exact Hnext].
Qed.

(** X12. When every attempt fails (status 429, another error status, an
    exception, or a response without content) the addresses are returned
    as they were given. *)
Theorem correctAddressesBatchWithAI_failures
    (addresses : list jsstring) (responses : nat -> aiResponse)
    (retries : nat) :
  (forall k, (k < retries)%nat ->
             responses k = AiRateLimited \/ responses k = AiHttpError
             \/ responses k = AiThrew \/ responses k = AiContent None) ->
  correctAddressesBatchWithAI addresses responses retries = addresses.
Proof.
  intros H. apply correctLoop_failures. intros k Hk. apply H. lia.
Qed.

Lemma correctAddressesBatchWithAI_failures_witness :
  correctAddressesBatchWithAI twoAddresses (fun _ => AiRateLimited) 3
  = twoAddresses.
Proof.
  apply (correctAddressesBatchWithAI_failures twoAddresses
           (fun _ => AiRateLimited) 3).
  intros k _. now left.
Defined.

(* ================================================================== *)
(** ** More on the [correct-addresses] handler *)

Section HandlerExtra.

Context {rt : Runtime}.

Lemma findKey_In (test : jsstring -> bool) (r : object) (k : jsstring) :
  findKey test r = Some k -> In k (keys r).
Proof. unfold findKey. intros H. now apply find_some in H. Qed.

Lemma mkAddressData_keys (r : object) :
  row (mkAddressData r) = r
  /\ (forall k, addressKey (mkAddressData r) = Some k -> In k (keys r))
  /\ (forall k, latKey (mkAddressData r) = Some k -> In k (keys r))
  /\ (forall k, lonKey (mkAddressData r) = Some k -> In k (keys r)).
Proof.
  unfold mkAddressData. simpl. repeat split; intros k; apply findKey_In.
Qed.

Lemma validateCoordinates_keys fetch r updatedRow latK lonK addr zip :
  (forall k, latK = Some k -> In k (keys updatedRow)) ->
  (forall k, lonK = Some k -> In k (keys updatedRow)) ->
  keys (validateCoordinates fetch r updatedRow latK lonK addr zip)
  = keys updatedRow.
Proof.
  intros Hlat Hlon. unfold validateCoordinates.
  destruct latK as [lk|], lonK as [ok|]; try reflexivity.
  destruct (negb (isNaN (parseFloat (getProp r lk)))
            && negb (isNaN (parseFloat (getProp r ok)))); [|reflexivity].
  destruct (geocodeAddress fetch addr zip) as [[glat glon]|];
    [|reflexivity].
  destruct (fgtb _ _); [|reflexivity].
  rewrite keys_setProp_present.
  - apply keys_setProp_present. now apply Hlat.
  - rewrite keys_setProp_present by now apply Hlat. now apply Hlon.
Qed.

Lemma validateCoordinates_frame fetch r updatedRow latK lonK addr zip k :
  Some k <> latK -> Some k <> lonK ->
  getProp (validateCoordinates fetch r updatedRow latK lonK addr zip) k
  = getProp updatedRow k.
Proof.
  intros Hlat Hlon. unfold validateCoordinates.
  destruct latK as [lk|], lonK as [ok|]; try reflexivity.
  destruct (negb (isNaN (parseFloat (getProp r lk)))
            && negb (isNaN (parseFloat (getProp r ok)))); [|reflexivity].
  destruct (geocodeAddress fetch addr zip) as [[glat glon]|];
    [|reflexivity].
  destruct (fgtb _ _); [|reflexivity].
  rewrite !getProp_setProp_other by congruence. reflexivity.
Qed.

Lemma processRow_keys correctedAddresses fetch idx (r : object) :
  keys (processRow correctedAddresses fetch idx (mkAddressData r)) = keys r.
Proof.
  destruct (mkAddressData_keys r) as (Hrow & Ha & Hlat & Hlon).
  unfold processRow. rewrite Hrow.
  destruct (addressKey (mkAddressData r)) as [k|] eqn:Ek; [|reflexivity].
  set (updatedRow := if JS.eqb _ _ then r else setProp r k _).
  assert (Hu : keys updatedRow = keys r).
  { unfold updatedRow. destruct (JS.eqb _ _); [reflexivity|].
    apply keys_setProp_present. now apply Ha. }
  rewrite validateCoordinates_keys; [exact Hu | |];
    intros k' Hk'; rewrite Hu; auto.
Qed.

Lemma processRow_frame correctedAddresses fetch idx (r : object) k :
  Some k <> addressKey (mkAddressData r) ->
  Some k <> latKey (mkAddressData r) ->
  Some k <> lonKey (mkAddressData r) ->
  getProp (processRow correctedAddresses fetch idx (mkAddressData r)) k
  = getProp r k.
Proof.
  intros Ha Hlat Hlon.
  destruct (mkAddressData_keys r) as (Hrow & _).
  unfold processRow. rewrite Hrow.
  destruct (addressKey (mkAddressData r)) as [ak|] eqn:Ek; [|reflexivity].
  rewrite validateCoordinates_frame by assumption.
  destruct (JS.eqb _ _); [reflexivity|].
  apply getProp_setProp_other. congruence.
Qed.

Lemma processBatch_nth responses fetch (batch : list object) i r :
  nth_error batch i = Some r ->
  exists correctedAddresses,
    nth_error (processBatch responses fetch batch) i
    = Some (processRow correctedAddresses fetch i (mkAddressData r)).
Proof.
  intros H. unfold processBatch. eexists.
  rewrite mapi_nth, nth_error_map, H. reflexivity.
Qed.

(** X13. A row without an address column comes back as it was received,
    whatever the corrector and the geocoder answer. *)
Theorem processBatch_row_without_address
    (responses : nat -> aiResponse) (fetch : nat -> jsstring -> fetchOutcome)
    (batch : list object) (i : nat) (r : object) :
  nth_error batch i = Some r ->
  addressKey (mkAddressData r) = None ->
  nth_error (processBatch responses fetch batch) i = Some r.
Proof.
  intros H Hk. destruct (processBatch_nth responses fetch batch i r H)
    as [ca ->].
  unfold processRow. rewrite Hk.
  now destruct (mkAddressData_keys r) as (-> & _).
Qed.

(** X14. The handler changes no field but the address, the latitude and the
    longitude: every other field of a returned row has the value it had in
    the row received. *)
Theorem processBatch_other_fields_unchanged
    (responses : nat -> aiResponse) (fetch : nat -> jsstring -> fetchOutcome)
    (batch : list object) (i : nat) (r out : object) (k : jsstring) :
  nth_error batch i = Some r ->
  nth_error (processBatch responses fetch batch) i = Some out ->
  Some k <> addressKey (mkAddressData r) ->
  Some k <> latKey (mkAddressData r) ->
  Some k <> lonKey (mkAddressData r) ->
  getProp out k = getProp r k.
Proof.
  intros H Hout Ha Hlat Hlon.
  destruct (processBatch_nth responses fetch batch i r H) as [ca Hca].
  rewrite Hca in Hout. injection Hout as <-.
  now apply processRow_frame.
Qed.

Lemma processBatch_keys responses fetch (batch : list object) :
  map keys (processBatch responses fetch batch) = map keys batch.
Proof.
  unfold processBatch, mapi.
  generalize (match batchAddresses (map mkAddressData batch) with
              | [] => []
              | _ :: _ =>
                  correctAddressesBatchWithAI
                    (batchAddresses (map mkAddressData batch)) responses 3
              end).
  intros ca. generalize 0%nat.
  induction batch as [|r batch IH]; intros i; simpl; [reflexivity|].
  now rewrite processRow_keys, IH.
Qed.

Lemma correctFrom_keys responses fetch :
  forall fuel batchIndex rows,
    (length rows <= fuel)%nat ->
    map keys (correctFrom fuel batchIndex responses fetch rows)
    = map keys rows.
Proof.
  induction fuel as [|fuel IH]; intros batchIndex rows Hfuel.
  - destruct rows; [reflexivity | simpl in Hfuel; lia].
  - destruct rows as [|r rows]; [reflexivity|].
    cbn [correctFrom]. rewrite map_app, processBatch_keys, IH.
    + now rewrite <- map_app, firstn_skipn.
    + rewrite length_skipn. unfold AI_BATCH_SIZE. simpl in *. lia.
Qed.

(** X15. The handler returns the rows it received, one for one and in
    order, each with the columns it had, in the same order: no row and no
    column is added, dropped or moved, however many batches there are. *)
Theorem correctAddresses_rows_and_columns
    (responses : nat -> nat -> aiResponse)
    (fetch : nat -> nat -> jsstring -> fetchOutcome) (rows : list object) :
  length (correctAddresses responses fetch rows) = length rows
  /\ map keys (correctAddresses responses fetch rows) = map keys rows.
Proof.
  assert (H : map keys (correctAddresses responses fetch rows) = map keys rows)
    by (apply correctFrom_keys; lia).
  split; [|exact H].
  apply (f_equal (@length (list jsstring))) in H.
  now rewrite !length_map in H.
Qed.

Lemma geocodeAddress_fails (fetch : jsstring -> fetchOutcome) addr zip :
  (forall query, fetch query = FetchThrew \/ fetch query = FetchNotOk
                 \/ fetch query = FetchJson []) ->
  geocodeAddress fetch addr zip = None.
Proof.
  intros H. unfold geocodeAddress.
  match goal with |- context [fetch ?q] => destruct (H q) as [-> | [-> | ->]] end;
    reflexivity.
Qed.

Lemma validateCoordinates_no_geocode fetch r updatedRow latK lonK addr zip :
  geocodeAddress fetch addr zip = None ->
  validateCoordinates fetch r updatedRow latK lonK addr zip = updatedRow.
Proof.
  intros H. unfold validateCoordinates. rewrite H.
  destruct latK as [lk|], lonK as [ok|]; try reflexivity.
  now destruct (negb (isNaN (parseFloat (getProp r lk)))
                && negb (isNaN (parseFloat (getProp r ok)))).
Qed.

(** X16. Degradation without loss: in a batch where every row has a
    non-blank address, when the corrector falls back to the addresses it
    was given and the geocoder fails for every query, the batch comes back
    as it was received. *)
Theorem processBatch_degrades_to_input
    (responses : nat -> aiResponse) (fetch : nat -> jsstring -> fetchOutcome)
    (batch : list object) :
  (forall r, In r batch ->
             nonEmpty (ad_originalAddress (mkAddressData r)) = true) ->
  correctAddressesBatchWithAI
    (batchAddresses (map mkAddressData batch)) responses 3
  = batchAddresses (map mkAddressData batch) ->
  (forall i query, fetch i query = FetchThrew \/ fetch i query = FetchNotOk
                   \/ fetch i query = FetchJson []) ->
  processBatch responses fetch batch = batch.
Proof.
  intros Hall Hai Hfetch. unfold processBatch.
  assert (Haddr : batchAddresses (map mkAddressData batch)
                  = map ad_originalAddress (map mkAddressData batch)).
  { unfold batchAddresses. apply filter_all_id. intros a Ha.
    apply in_map_iff in Ha as (d & <- & Hd).
    apply in_map_iff in Hd as (r & <- & Hr). now apply Hall. }
  assert (Hca : match batchAddresses (map mkAddressData batch) with
                | [] => []
                | _ :: _ =>
                    correctAddressesBatchWithAI
                      (batchAddresses (map mkAddressData batch)) responses 3
                end = map ad_originalAddress (map mkAddressData batch)).
  { rewrite Hai, Haddr. now destruct (map ad_originalAddress _). }
  rewrite Hca. unfold mapi.
  transitivity (map row (map mkAddressData batch)).
  - assert (Hrows : forall k d,
               nth_error (map mkAddressData batch) k = Some d ->
               processRow (map ad_originalAddress (map mkAddressData batch))
                 fetch k d = row d).
    { intros k d Hd. unfold processRow.
      destruct (addressKey d) as [ak|]; [|reflexivity].
      unfold correctedAddressAt.
      rewrite nth_error_map, Hd. simpl.
      assert (Hne : nonEmpty (ad_originalAddress d) = true).
      { rewrite nth_error_map in Hd.
        destruct (nth_error batch k) as [r|] eqn:Er; [|discriminate].
        injection Hd as <-. apply Hall. now apply nth_error_In in Er. }
      destruct (ad_originalAddress d) as [|c s] eqn:Eo; [discriminate|].
      simpl. rewrite N.eqb_refl, eqb_refl. simpl.
      apply validateCoordinates_no_geocode, geocodeAddress_fails, Hfetch. }
    apply nth_error_ext. intros k.
    rewrite mapi_from_nth.
    replace (nth_error (map row (map mkAddressData batch)) k)
      with (option_map row (nth_error (map mkAddressData batch) k))
      by (symmetry; apply nth_error_map).
    destruct (nth_error (map mkAddressData batch) k) as [d|] eqn:Ed;
      [|reflexivity].
    simpl. now rewrite (Hrows _ _ Ed).
  - rewrite map_map.
    transitivity (map (fun x : object => x) batch);
      [apply map_ext; reflexivity | apply map_id].
Qed.

End HandlerExtra.

Lemma processBatch_row_without_address_witness :
  addressKey (mkAddressData (rt := latin1Runtime) rowNoAddress) = None
  /\ nth_error (processBatch (rt := latin1Runtime) replyRowB noFetch
                  [rowNoAddress; rowB]) 0
     = Some rowNoAddress.
Proof.
  split; [reflexivity|].
  apply (processBatch_row_without_address (rt := latin1Runtime)
           replyRowB noFetch [rowNoAddress; rowB] 0 rowNoAddress);
    reflexivity.
Defined.

Lemma processBatch_other_fields_unchanged_witness :
  nth_error (processBatch (rt := latin1Runtime) replyRowB noFetch
               [sheetRow (str "rua b 20") (str "S1")]) 0
  = Some (sheetRow (str "Rua B, 20") (str "S1"))
  /\ getProp (sheetRow (str "Rua B, 20") (str "S1")) (str "Sequence")
     = getProp (sheetRow (str "rua b 20") (str "S1")) (str "Sequence").
Proof.
  assert (Hout : nth_error (processBatch (rt := latin1Runtime) replyRowB noFetch
                              [sheetRow (str "rua b 20") (str "S1")]) 0
                 = Some (sheetRow (str "Rua B, 20") (str "S1")))
    by (vm_compute; reflexivity).
  split; [exact Hout|].
  apply (processBatch_other_fields_unchanged (rt := latin1Runtime)
           replyRowB noFetch [sheetRow (str "rua b 20") (str "S1")] 0
           (sheetRow (str "rua b 20") (str "S1"))
           (sheetRow (str "Rua B, 20") (str "S1")) (str "Sequence")
           eq_refl Hout);
    vm_compute; discriminate.
Defined.

Lemma processBatch_degrades_to_input_witness :
  processBatch (rt := latin1Runtime) (fun _ => AiHttpError) failingFetch
    [rowA; rowB]
  = [rowA; rowB].
Proof.
  apply (processBatch_degrades_to_input (rt := latin1Runtime)
           (fun _ => AiHttpError) failingFetch [rowA; rowB]).
  - intros r [<- | [<- | []]]; reflexivity.
  - reflexivity.
  - intros i query. now left.
Defined.

(* ================================================================== *)
(** ** More on [calculateDistance] *)

Section DistanceExtra.

Context {rt : Runtime}.

(** X17. With a coordinate that is [NaN] or infinite, stored or geocoded,
    the distance is [NaN], and the coordinate validation leaves the row as
    it is: such a value never replaces a stored coordinate, and never has a
    stored coordinate replaced. *)
Theorem calculateDistance_not_finite_keeps_row :
  EcmaMath rt ->
  (forall lat1 lon1 lat2 lon2 : number,
      isFiniteNumber lat1 && isFiniteNumber lon1
      && isFiniteNumber lat2 && isFiniteNumber lon2 = false ->
      calculateDistance lat1 lon1 lat2 lon2 = nan)
  /\ (forall (fetch : jsstring -> fetchOutcome) (r updatedRow : object)
             (latK lonK : jsstring) (correctedAddress : jsstring)
             (zipcode : option jsstring) (glat glon : number),
        geocodeAddress fetch correctedAddress zipcode = Some (glat, glon) ->
        isFiniteNumber (parseFloat (getProp r latK))
        && isFiniteNumber (parseFloat (getProp r lonK))
        && isFiniteNumber glat && isFiniteNumber glon = false ->
        validateCoordinates fetch r updatedRow (Some latK) (Some lonK)
          correctedAddress zipcode = updatedRow).
Proof.
  intros Hecma. split.
  - intros lat1 lon1 lat2 lon2. now apply calculateDistance_not_finite.
  - intros fetch r updatedRow latK lonK correctedAddress zipcode glat glon
      Hg Hnf.
    unfold validateCoordinates. rewrite Hg.
    destruct (negb (isNaN (parseFloat (getProp r latK)))
              && negb (isNaN (parseFloat (getProp r lonK))));
      [|reflexivity].
    now rewrite (calculateDistance_not_finite _ _ _ _ Hecma Hnf).
Qed.

End DistanceExtra.

Lemma calculateDistance_not_finite_keeps_row_witness :
  EcmaMath latin1Runtime
  /\ calculateDistance (rt := latin1Runtime) infinity (ofZ 0) (ofZ 0) (ofZ 0)
     = nan.
Proof.
  split; [exact latin1_ecmaMath|].
  apply (proj1 (calculateDistance_not_finite_keeps_row (rt := latin1Runtime)
                  latin1_ecmaMath)).
  reflexivity.
Defined.

(* ================================================================== *)
(** ** More on [batch-geocode] *)

Lemma trimEnd_is_prefix (s : jsstring) : exists r, s = trimEnd s ++ r.
Proof.
  induction s as [|c s [r IH]]; simpl; [now exists []|].
  destruct (trimEnd s) as [|x t].
  - destruct (isSpace c); [now exists (c :: s) | now exists s].
  - exists r. simpl in *. now rewrite <- IH.
Qed.

Lemma trim_is_block (s : jsstring) : exists p r, s = p ++ trim s ++ r.
Proof.
  unfold trim, trimStart.
  destruct (trimEnd_is_prefix (dropWhile isSpace s)) as [r Hr].
  exists (takeWhile isSpace s), r.
  rewrite <- Hr. symmetry. apply takeWhile_dropWhile.
Qed.

Lemma singleSpaced_suffix b p s :
  singleSpaced b (p ++ s) = true -> singleSpaced false s = true.
Proof.
  revert b. induction p as [|c p IH]; intros b; simpl.
  - apply singleSpaced_weaken.
  - destruct (isSpace c).
    + intros H. apply andb_true_iff in H as [_ H]. eauto.
    + eauto.
Qed.

Lemma collapseSpaces_Forall (P : N -> Prop) b s :
  P 32%N -> Forall P s -> Forall P (collapseSpaces b s).
Proof.
  intros H32 Hs. revert b.
  induction Hs as [|c s Hc Hs IH]; intros b; simpl; [constructor|].
  destruct (isSpace c); [destruct b|]; try constructor; auto.
Qed.

Section GeocodeExtra.

Context {rt : Runtime}.

#[local] Arguments addressMatchesExpected : simpl never.

(** X18. Normalised text is clean: it holds only letters, digits,
    underscores, white space, hyphens and commas, its white space is single
    spaces, and it has none at either end. *)
Theorem normalizeText_clean (s : option jsstring) :
  Forall (fun c => isKept c = true) (normalizeText s)
  /\ trim (normalizeText s) = normalizeText s
  /\ replaceSpaceRuns (normalizeText s) = normalizeText s.
Proof.
  destruct s as [[|c0 s0]|]; try (repeat split; constructor).
  unfold normalizeText.
  set (s6 := filter isKept _).
  assert (H6 : Forall (fun c => isKept c = true) s6).
  { unfold s6. apply Forall_forall. intros c Hc.
    now apply filter_In in Hc. }
  assert (Hc : Forall (fun c => isKept c = true) (replaceSpaceRuns s6))
    by (apply collapseSpaces_Forall; [reflexivity | exact H6]).
  destruct (trim_is_block (replaceSpaceRuns s6)) as (p & r & Hblock).
  repeat split.
  - rewrite Hblock in Hc. apply Forall_app in Hc as [_ Hc].
    now apply Forall_app in Hc as [Hc _].
  - apply trim_idem.
  - apply singleSpaced_fixed.
    pose proof (collapseSpaces_singleSpaced false s6) as Hs.
    fold (replaceSpaceRuns s6) in Hs. rewrite Hblock in Hs.
    apply singleSpaced_suffix in Hs.
    now apply singleSpaced_prefix in Hs.
Qed.

(** X19. What [addressMatchesExpected] accepts: the city names must contain
    one another, but of the state and of the neighbourhood the provider
    returns only the presence is tested, never the name; an expected state
    or neighbourhood is satisfied by any returned one. *)
Theorem addressMatchesExpected_criterion
    (a : NominatimAddressDetails) (e : ExpectedAddressDetails) :
  addressMatchesExpected (Some a) e
  = (nonEmpty (expCity e) && nonEmpty (gCity a)
     && (includes (gCity a) (expCity e) || includes (expCity e) (gCity a)))
    && (negb (nonEmpty (expState e)) || nonEmpty (gState a))
    && (negb (nonEmpty (expBairro e)) || nonEmpty (gBairro a)).
Proof.
  unfold addressMatchesExpected.
  now rewrite stateMatches_spec, bairroMatches_spec.
Qed.

Lemma gCity_noCityDetails (a : NominatimAddressDetails) :
  noCityDetails a = true -> gCity a = [].
Proof.
  unfold noCityDetails, gCity. intros H.
  apply andb_true_iff in H as [H H4]. apply andb_true_iff in H as [H H3].
  apply andb_true_iff in H as [H1 H2].
  destruct (city a) as [[|? ?]|], (town a) as [[|? ?]|],
    (village a) as [[|? ?]|], (county a) as [[|? ?]|];
    try discriminate; reflexivity.
Qed.

Lemma noCityDetails_rejected a e :
  noCityDetails a = true -> addressMatchesExpected (Some a) e = false.
Proof.
  intros H. unfold addressMatchesExpected, cityMatches.
  rewrite (gCity_noCityDetails _ H). simpl. now rewrite andb_false_r.
Qed.

(** The status and the accepted result of a row, by cases. *)
Lemma resolveRow_cases (r0 : InputAddressRow) (replies : ProviderReplies) :
  let p := resolveRow r0 replies in
  match firstFound replies with
  | None =>
      status p = pending /\ latitude p = None /\ longitude p = None
      /\ correctedAddress p = rawAddress r0
  | Some r =>
      if matchesRow r0 r
      then status p = valid /\ latitude p = Some (lat r)
           /\ longitude p = Some (lon r)
           /\ correctedAddress p
              = orElseOpt (Some (display_name r)) (rawAddress r0)
      else
        match retryReply replies with
        | SearchFound r' =>
            if matchesRow r0 r'
            then status p = corrected /\ latitude p = Some (lat r')
                 /\ longitude p = Some (lon r')
                 /\ correctedAddress p
                    = orElseOpt (Some (display_name r')) (rawAddress r0)
            else status p = mismatch /\ latitude p = Some (lat r)
                 /\ longitude p = Some (lon r)
                 /\ correctedAddress p = rawAddress r0
        | _ =>
            status p = mismatch /\ latitude p = Some (lat r)
            /\ longitude p = Some (lon r)
            /\ correctedAddress p = rawAddress r0
        end
  end.
Proof.
  unfold resolveRow, firstFound, matchesRow.
  destruct (structuredReply replies) as [| |r1],
    (freeTextReply replies) as [| |r2],
    (retryReply replies) as [| |r3]; simpl;
    repeat match goal with
           | |- context [addressMatchesExpected ?a ?e] =>
               destruct (addressMatchesExpected a e) eqn:?
           end; simpl; repeat split; congruence.
Qed.

(** X20. A provider result without city, town, village and county, such as
    one without the address breakdown, is never accepted: the row it is
    found for does not become [valid]. *)
Theorem bare_result_never_valid
    (r0 : InputAddressRow) (replies : ProviderReplies) (r : NominatimResult) :
  firstFound replies = Some r ->
  noCityDetails (addressOrEmpty r) = true ->
  matchesRow r0 r = false
  /\ status (resolveRow r0 replies) <> valid.
Proof.
  intros Hf Hbare.
  assert (Hm : matchesRow r0 r = false)
    by (apply noCityDetails_rejected, Hbare).
  split; [exact Hm|].
  pose proof (resolveRow_cases r0 replies) as H. cbv zeta in H.
  rewrite Hf, Hm in H.
  destruct (retryReply replies) as [| |r'];
    [| |destruct (matchesRow r0 r')]; destruct H as (-> & _); discriminate.
Qed.

(** X21. The outcome states: a row is [pending] exactly when neither the
    structured nor the free-text search found a result, [valid] exactly
    when the result found first passes the validation, and [corrected]
    exactly when that result fails it and the retry finds one that passes;
    it is [mismatch] otherwise. *)
Theorem resolveRow_status
    (r0 : InputAddressRow) (replies : ProviderReplies) :
  (status (resolveRow r0 replies) = pending <-> firstFound replies = None)
  /\ (status (resolveRow r0 replies) = valid
      <-> exists r, firstFound replies = Some r /\ matchesRow r0 r = true)
  /\ (status (resolveRow r0 replies) = corrected
      <-> exists r r', firstFound replies = Some r /\ matchesRow r0 r = false
                       /\ retryReply replies = SearchFound r'
                       /\ matchesRow r0 r' = true).
Proof.
  pose proof (resolveRow_cases r0 replies) as H. cbv zeta in H.
  destruct (firstFound replies) as [r|];
    [destruct (matchesRow r0 r) eqn:Em;
     [|destruct (retryReply replies) as [| |r'] eqn:Er;
       [| |destruct (matchesRow r0 r') eqn:Em']]|];
    destruct H as (-> & _);
    repeat split; intros;
    repeat match goal with
           | H : exists _, _ |- _ => destruct H
           | H : _ /\ _ |- _ => destruct H
           end; try discriminate; try congruence; eauto 7.
Qed.

(** X22. The coordinates are absent exactly when the row is [pending]: a
    [mismatch] row still carries the coordinates of the result that failed
    the validation.  The address is changed only for [valid] and
    [corrected] rows: a [pending] or [mismatch] row keeps the address it
    came with. *)
Theorem resolveRow_coordinates_and_address
    (r0 : InputAddressRow) (replies : ProviderReplies) :
  (latitude (resolveRow r0 replies) = None
   <-> status (resolveRow r0 replies) = pending)
  /\ (longitude (resolveRow r0 replies) = None
      <-> status (resolveRow r0 replies) = pending)
  /\ (status (resolveRow r0 replies) = pending
      \/ status (resolveRow r0 replies) = mismatch ->
      correctedAddress (resolveRow r0 replies) = rawAddress r0)
  /\ originalAddress (resolveRow r0 replies) = orElse (rawAddress r0) [].
Proof.
  pose proof (resolveRow_cases r0 replies) as H. cbv zeta in H.
  assert (Ho : originalAddress (resolveRow r0 replies)
               = orElse (rawAddress r0) []).
  { unfold resolveRow.
    destruct (structuredReply replies), (freeTextReply replies),
      (retryReply replies); simpl;
      repeat match goal with
             | |- context [addressMatchesExpected ?a ?e] =>
                 destruct (addressMatchesExpected a e)
             end; reflexivity. }
  destruct (firstFound replies) as [r|];
    [destruct (matchesRow r0 r);
     [|destruct (retryReply replies) as [| |r'];
       [| |destruct (matchesRow r0 r')]]|];
    destruct H as (Hs & Hla & Hlo & Hc); rewrite Hs, Hla, Hlo;
    repeat split; try discriminate; try assumption; try reflexivity;
    intros [E | E]; try discriminate; assumption.
Qed.

(** X23. The free-text search is made only when the structured search found
    nothing, and the retry only when a result was found and failed the
    validation: the reply to a search that is not made does not change the
    row. *)
Theorem resolveRow_unused_replies
    (r0 : InputAddressRow) (replies : ProviderReplies)
    (other : searchOutcome) :
  (forall r, structuredReply replies = SearchFound r ->
     resolveRow r0 {| structuredReply := structuredReply replies;
                      freeTextReply := other;
                      retryReply := retryReply replies |}
     = resolveRow r0 replies)
  /\ (firstFound replies = None
      \/ (exists r, firstFound replies = Some r /\ matchesRow r0 r = true) ->
      resolveRow r0 {| structuredReply := structuredReply replies;
                       freeTextReply := freeTextReply replies;
                       retryReply := other |}
      = resolveRow r0 replies).
Proof.
  split.
  - intros r Hr. unfold resolveRow. simpl. now rewrite Hr.
  - unfold firstFound, matchesRow, resolveRow. simpl.
    destruct (structuredReply replies) as [| |r1],
      (freeTextReply replies) as [| |r2]; simpl;
      intros [E | (r & E & Hm)]; try discriminate; try reflexivity;
      injection E as <-; now rewrite Hm.
Qed.




(** X25. Every result records the search made last and a note that is not
    empty; the search recorded is the retry exactly when the row is
    [corrected] or [mismatch]. *)
Theorem resolveRow_search_and_note
    (r0 : InputAddressRow) (replies : ProviderReplies) :
  searchUsed (resolveRow r0 replies) <> NoSearch
  /\ note (resolveRow r0 replies) <> []
  /\ ((exists params,
         searchUsed (resolveRow r0 replies) = UsedRetryCorrected params)
      <-> status (resolveRow r0 replies) = corrected
          \/ status (resolveRow r0 replies) = mismatch).
Proof.
  unfold resolveRow.
  destruct (structuredReply replies) as [| |r1],
    (freeTextReply replies) as [| |r2],
    (retryReply replies) as [| |r3]; simpl;
    repeat match goal with
           | |- context [addressMatchesExpected ?a ?e] =>
               destruct (addressMatchesExpected a e)
           end; simpl;
    (split; [discriminate|]); (split; [discriminate|]);
    (split; [intros [params E]; try discriminate; auto
            | intros [E | E]; try discriminate; eauto]).
Qed.

(** X26. The structured query always starts with the format, the address
    details flag, the limit of one result and the country code [br], and
    holds the street, the city and the state only when their normalised
    text is not empty: it never holds a parameter without a value. *)
Theorem buildStructuredParams_no_empty_value (r0 : InputAddressRow) :
  firstn 4 (buildStructuredParams r0)
  = [(str "format", str "json"); (str "addressdetails", str "1");
     (str "limit", str "1"); (str "countrycodes", str "br")]
  /\ Forall (fun param => snd param <> []) (buildStructuredParams r0)
  /\ (length (buildStructuredParams r0) <= 7)%nat.
Proof.
  unfold buildStructuredParams, appendIf.
  destruct (normalizeText (Some (orElse (rawAddress r0) []))) as [|c1 s1];
    destruct (normalizeText (Some (orElse (cidade r0) []))) as [|c2 s2];
    destruct (normalizeText (Some (orElse (estado r0) []))) as [|c3 s3];
    simpl; (split; [reflexivity|]); (split; [|lia]);
    repeat constructor; discriminate.
Qed.

End GeocodeExtra.

Lemma bare_result_never_valid_witness :
  (firstFound repliesBare = Some resultBare
   /\ noCityDetails (addressOrEmpty resultBare) = true)
  /\ status (resolveRow (rt := latin1Runtime) rowCentro repliesBare) <> valid.
Proof.
  split; [split; reflexivity|].
  exact (proj2 (bare_result_never_valid (rt := latin1Runtime)
                  rowCentro repliesBare resultBare eq_refl eq_refl)).
Defined.

Example resolveRow_corrected_by_retry :
  status (resolveRow (rt := latin1Runtime) rowCentro repliesRetry) = corrected
  /\ latitude (resolveRow (rt := latin1Runtime) rowCentro repliesRetry)
     = Some (lat resultCentro)
  /\ searchUsed (resolveRow (rt := latin1Runtime) rowCentro repliesRetry)
     = UsedRetryCorrected (correctedParams (rt := latin1Runtime) rowCentro).
Proof. vm_compute. repeat split. Qed.

(* ================================================================== *)
(** ** The page: from the sheet to the table, and the export *)

Section PageExtra.

Context {rt : Runtime}.

(** X27. From the sheet to the table: when [processFile] completes, and the
    corrector times out, fails, answers without rows or answers with the
    rows its handler computes, the table kept has one row per merged row,
    with the columns of that row in their order; it has at least one row
    and at most one per row of the sheet. *)
Theorem processFile_then_correction_keeps_shape
    (jsonData results : list object) (reply : correctionOutcome)
    (responses : nat -> nat -> aiResponse)
    (fetch : nat -> nat -> jsstring -> fetchOutcome) :
  processFile jsonData = Done results ->
  reply = CorrectionData (Some (correctAddresses responses fetch results))
  \/ hasCorrectedRows reply = false ->
  map keys (processedDataOf results reply) = map keys results
  /\ (1 <= length (processedDataOf results reply) <= length jsonData)%nat.
Proof.
  intros Hp Hreply.
  assert (Hk : map keys (processedDataOf results reply) = map keys results).
  { destruct Hreply as [-> | Hno].
    - simpl. apply correctFrom_keys. lia.
    - destruct reply as [| | |[rows|]]; try reflexivity. discriminate. }
  split; [exact Hk|].
  apply (f_equal (@length (list jsstring))) in Hk.
  rewrite !length_map in Hk. rewrite Hk.
  destruct jsonData as [|first rest]; [discriminate|].
  unfold processFile in Hp.
  destruct (findAddressColumn first) as [addressColumn|]; [|discriminate].
  destruct (groupRows addressColumn (first :: rest)) as [grouped|e] eqn:Eg;
    [|discriminate].
  injection Hp as <-.
  destruct (groupRows_inv _ _ _ Eg) as [_ _ Hcov Hbuck Hperm].
  unfold mergeGroups. rewrite length_map.
  rewrite (Permutation_length (entries_perm grouped)). split.
  - specialize (Hcov first (or_introl eq_refl)).
    rewrite <- (length_map fst grouped).
    destruct (map fst grouped); [destruct Hcov | simpl; lia].
  - rewrite <- (Permutation_length Hperm), <- (length_map snd grouped).
    apply concat_nonempty_length. intros b Hb.
    apply in_map_iff in Hb as ([k b'] & <- & Hin). simpl.
    now apply Hbuck with (k := k).
Qed.

End PageExtra.

Section ExportExtra.

Context {rt : Runtime}.

(** X28. The export is gated by the credits the handler sees and by the
    credit procedure: the procedure is called exactly when a user is signed
    in and the credits are not below 1; the credits of the page are
    decremented, and the download is sent to be recorded, exactly when the
    procedure was called and the deduction succeeded; a file is written
    exactly when, after that, recording the download and the calls of the
    XLSX library complete, and it holds the rows of the table.  So no file
    is written without a deduction, but a credit is spent without a file
    when one of those calls throws. *)
Theorem handleExport_credit_gate
    (format : exportFormat) (st : PageState) (reply : deductOutcome)
    (isoNow : jsstring) (recording writing : callOutcome)
    (date monthIndex fullYear : nat) :
  (deductCalled (handleExport format st reply isoNow recording writing
                   date monthIndex fullYear) = true
   <-> user st <> None /\ fltb (credits st) (ofZ 1) = false)
  /\ (creditsDecremented (handleExport format st reply isoNow recording
                            writing date monthIndex fullYear) = true
      <-> deductCalled (handleExport format st reply isoNow recording writing
                          date monthIndex fullYear) = true
          /\ deductSucceeded reply = true)
  /\ (downloadRequested (handleExport format st reply isoNow recording
                           writing date monthIndex fullYear) <> None
      <-> creditsDecremented (handleExport format st reply isoNow recording
                                writing date monthIndex fullYear) = true)
  /\ (fileWritten (handleExport format st reply isoNow recording writing
                     date monthIndex fullYear) <> None
      <-> creditsDecremented (handleExport format st reply isoNow recording
                                writing date monthIndex fullYear) = true
          /\ recording = Completes /\ writing = Completes)
  /\ (forall file,
        fileWritten (handleExport format st reply isoNow recording writing
                       date monthIndex fullYear) = Some file ->
        file = (exportFileName format date monthIndex fullYear,
                processedData st)).
Proof.
  unfold handleExport, deductSucceeded.
  destruct (user st) as [u|];
    [destruct (fltb (credits st) (ofZ 1));
     [|destruct reply as [|error data];
       [|destruct (deductFailed error data);
         [|destruct recording; [destruct writing|]]]]|];
    cbn;
    repeat split; intros;
    repeat match goal with
           | H : _ /\ _ |- _ => destruct H
           | H : Some _ = Some _ |- _ => injection H as <-
           end; try discriminate; try congruence; try reflexivity;
    match goal with H : ?x <> ?x |- _ => now contradiction H end.
Qed.

End ExportExtra.

Lemma processFile_then_correction_keeps_shape_witness :
  (processFile (rt := latin1Runtime) exampleSheet = Done exampleResults
   /\ hasCorrectedRows CorrectionTimedOut = false)
  /\ map keys (processedDataOf exampleResults CorrectionTimedOut)
     = map keys exampleResults.
Proof.
  split; [split; reflexivity|].
  exact (proj1 (processFile_then_correction_keeps_shape
                  (rt := latin1Runtime) exampleSheet exampleResults
                  CorrectionTimedOut (fun _ _ => AiThrew)
                  (fun _ _ _ => FetchThrew) eq_refl
                  (or_intror eq_refl))).
Defined.

(** One credit, and the deduction succeeds: the file is written and the
    credit is spent; when the download cannot be recorded, the credit is
    spent and no file is written. *)
Example handleExport_last_credit :
  fileWritten (handleExport (rt := latin1Runtime) Csv pageOneCredit deductOk
                 (str "2026-11-03T12:00:00.000Z") Completes Completes
                 3 10 2026)
  = Some (str "RotaSmart-03-11-2026.csv", [rowNoAddress])
  /\ creditsAfter (handleExport (rt := latin1Runtime) Csv pageOneCredit
                     deductOk (str "2026-11-03T12:00:00.000Z")
                     Completes Completes 3 10 2026) (ofZ 1)
     = S754_zero false
  /\ fileWritten (handleExport (rt := latin1Runtime) Csv pageOneCredit
                    deductOk (str "2026-11-03T12:00:00.000Z")
                    Throws Completes 3 10 2026)
     = None
  /\ creditsAfter (handleExport (rt := latin1Runtime) Csv pageOneCredit
                     deductOk (str "2026-11-03T12:00:00.000Z")
                     Throws Completes 3 10 2026) (ofZ 1)
     = S754_zero false.
Proof. vm_compute. repeat split. Qed.

(* ================================================================== *)
(** ** The [correct-addresses] handler: coordinates and corrections *)

Section HandlerClaims.

Context {rt : Runtime}.


(** C10, as the code has it.  Corrections are mapped back to rows by index
    into the blank-filtered address list.  A row without an address column
    is returned as it came.  A row at position [i] that has an address
    column (which is not also its latitude or longitude column) receives
    entry [i] of the corrections, when there is one, it is not empty and it
    differs from the row's own trimmed address; otherwise its address is
    left as it was.  The corrections are as many as the non-blank
    addresses.  When every row of the batch has a non-blank address, entry
    [i] of the list sent to the corrector is the address of row [i].  When
    a row before position [i] has a blank or missing address and the list
    sent has an entry [i], that entry is the address of a later row
    [j > i]; when it has no entry [i], row [i] keeps its address. *)
Theorem corrections_mapped_by_filtered_index
    (responses : nat -> aiResponse) (fetch : nat -> jsstring -> fetchOutcome)
    (batch : list object) (i : nat) (r out : object) :
  nth_error batch i = Some r ->
  nth_error (processBatch responses fetch batch) i = Some out ->
  let addressData := map mkAddressData batch in
  let addresses := batchAddresses addressData in
  let correctedAddresses :=
    match addresses with
    | [] => []
    | _ :: _ => correctAddressesBatchWithAI addresses responses 3
    end in
  let originalAddress := ad_originalAddress (mkAddressData r) in
  (addressKey (mkAddressData r) = None -> out = r)
  /\ (forall k,
        addressKey (mkAddressData r) = Some k ->
        Some k <> latKey (mkAddressData r) ->
        Some k <> lonKey (mkAddressData r) ->
        getProp out k
        = match nth_error correctedAddresses i with
          | Some (c :: s) =>
              if JS.eqb (c :: s) originalAddress then getProp r k
              else VStr (c :: s)
          | _ => getProp r k
          end)
  /\ length correctedAddresses = length addresses
  /\ ((forall d, In d addressData -> nonEmpty (ad_originalAddress d) = true) ->
      nth_error addresses i = Some originalAddress)
  /\ (forall j dj a,
        (j < i)%nat ->
        nth_error addressData j = Some dj ->
        nonEmpty (ad_originalAddress dj) = false ->
        nth_error addresses i = Some a ->
        exists j' dj',
          (i < j')%nat /\ nth_error addressData j' = Some dj'
          /\ ad_originalAddress dj' = a
          /\ length (batchAddresses (firstn j' addressData)) = i)
  /\ (nth_error addresses i = None ->
      nth_error correctedAddresses i = None
      /\ forall k,
           addressKey (mkAddressData r) = Some k ->
           Some k <> latKey (mkAddressData r) ->
           Some k <> lonKey (mkAddressData r) ->
           getProp out k = getProp r k).
Proof.
  intros Hr Hout addressData addresses correctedAddresses originalAddress.
  assert (Hlen : length correctedAddresses = length addresses)
    by apply batchCorrections_length.
  assert (Hd : nth_error addressData i = Some (mkAddressData r))
    by (unfold addressData; now rewrite nth_error_map, Hr).
  assert (Hrow : out = processRow correctedAddresses fetch i (mkAddressData r)).
  { unfold processBatch in Hout.
    fold addressData in Hout. fold addresses in Hout.
    fold correctedAddresses in Hout.
    rewrite mapi_nth, Hd in Hout. now injection Hout as <-. }
  destruct (mkAddressData_keys r) as (Hrowr & _).
  assert (Hfield :
            forall k,
              addressKey (mkAddressData r) = Some k ->
              Some k <> latKey (mkAddressData r) ->
              Some k <> lonKey (mkAddressData r) ->
              getProp out k
              = match nth_error correctedAddresses i with
                | Some (c :: s) =>
                    if JS.eqb (c :: s) originalAddress then getProp r k
                    else VStr (c :: s)
                | _ => getProp r k
                end).
  { intros k Hk Hlat Hlon. rewrite Hrow.
    unfold processRow. rewrite Hk, Hrowr.
    rewrite validateCoordinates_frame by assumption.
    unfold correctedAddressAt. fold originalAddress.
    destruct (nth_error correctedAddresses i) as [[|c s]|]; cbn [orElse].
    - now rewrite eqb_refl.
    - destruct (JS.eqb (c :: s) originalAddress); [reflexivity|].
      apply getProp_setProp.
    - now rewrite eqb_refl. }
  split; [|split; [exact Hfield|split; [exact Hlen|split; [|split]]]].
  - intros Hk. rewrite Hrow. unfold processRow. now rewrite Hk, Hrowr.
  - intros Hall. unfold addresses, batchAddresses.
    rewrite filter_all_id.
    + now rewrite nth_error_map, Hd.
    + intros x Hx. apply in_map_iff in Hx as (d' & <- & Hd').
      now apply Hall.
  - intros j dj a Hj Hdj Hblank Ha.
    unfold addresses, batchAddresses in Ha.
    assert (Hdj' : nth_error (map ad_originalAddress addressData) j
                   = Some (ad_originalAddress dj))
      by now rewrite nth_error_map, Hdj.
    destruct (filter_nth_shifted _ nonEmpty _ _ _ _ _ Hj Hdj' Hblank Ha)
      as (j' & Hij & Hj' & Hcount).
    rewrite nth_error_map in Hj'.
    destruct (nth_error addressData j') as [dj'|] eqn:Edj; [|discriminate].
    injection Hj' as Hj'.
    exists j', dj'. repeat split; try assumption.
    unfold batchAddresses. now rewrite <- firstn_map.
  - intros Hnone.
    apply nth_error_None in Hnone. rewrite <- Hlen in Hnone.
    apply nth_error_None in Hnone. split; [exact Hnone|].
    intros k Hk Hlat Hlon. rewrite (Hfield k Hk Hlat Hlon).
    now rewrite Hnone.
Qed.

End HandlerClaims.

(** *** Worked examples on the Latin-1 platform *)

(** In the batch of a row with a blank address followed by two addresses,
    the corrections of the two addresses go to the rows at positions 0
    and 1: the row at position 1 receives the correction of the address of
    the row after it. *)
Lemma corrections_mapped_by_filtered_index_witness :
  (nth_error [rowBlank; rowA; rowB] 1 = Some rowA
   /\ nth_error (processBatch (rt := latin1Runtime) replyRowsAB noFetch
                   [rowBlank; rowA; rowB]) 1
      = Some [(str "Endereco", VStr (str "Rua B, 20"))])
  /\ addressKey (mkAddressData (rt := latin1Runtime) rowA)
     = Some (str "Endereco")
  /\ nth_error
       (correctAddressesBatchWithAI
          (batchAddresses (map (mkAddressData (rt := latin1Runtime))
                             [rowBlank; rowA; rowB])) replyRowsAB 3) 1
     = Some (str "Rua B, 20")
  /\ getProp [(str "Endereco", VStr (str "Rua B, 20"))] (str "Endereco")
     = VStr (str "Rua B, 20")
  /\ exists j' dj',
       (1 < j')%nat
       /\ nth_error (map (mkAddressData (rt := latin1Runtime))
                       [rowBlank; rowA; rowB]) j' = Some dj'
       /\ ad_originalAddress dj' = str "rua b 20"
       /\ length (batchAddresses
                    (firstn j' (map (mkAddressData (rt := latin1Runtime))
                                  [rowBlank; rowA; rowB]))) = 1%nat.
Proof.
  split; [split; vm_compute; reflexivity|].
  split; [vm_compute; reflexivity|].
  split; [vm_compute; reflexivity|].
  pose proof (corrections_mapped_by_filtered_index (rt := latin1Runtime)
                replyRowsAB noFetch [rowBlank; rowA; rowB] 1 rowA
                [(str "Endereco", VStr (str "Rua B, 20"))]
                eq_refl eq_refl) as H.
  cbv zeta in H.
  destruct H as (_ & H2 & _ & _ & H4 & _).
  split.
  - rewrite (H2 (str "Endereco")).
    + vm_compute. reflexivity.
    + reflexivity.
    + vm_compute. discriminate.
    + vm_compute. discriminate.
  - apply (H4 0%nat (mkAddressData (rt := latin1Runtime) rowBlank)
              (str "rua b 20")).
    + lia.
    + reflexivity.
    + reflexivity.
    + reflexivity.
Defined.


